(** * Musare backend: module orchestration and job scheduling

    A shallow embedding of [backend/src/Job.ts], [JobQueue.ts] and
    [ModuleManager.ts], followed by the properties of the orchestration
    layer that the specification states about them.

    Conventions of the embedding:
    - a JavaScript object that is shared and mutated (a job, a module) lives
      in a store and is referred to by a key; arrays of objects are lists of
      keys, so that two arrays holding the same object really alias;
    - an [async] function is cut at its first suspension point: the part that
      runs synchronously inside the caller, and the part that runs when the
      awaited work is over;
    - a promise that rejects (an exception leaving an [async] function) is
      the [Throw] case of [Completion];
    - [performance.now()] readings are integers supplied by the environment,
      and so are the values of [generateUuid()];
    - priorities are integers, as the specification has them.

    The file has three parts: the embedding of the sources, module by module;
    the vocabulary of the statements; the statements and their proofs. *)

From Stdlib Require Import ZArith Lia Sorted.
From stdpp Require Import gmap strings list.

(** ** Shared vocabulary *)

Definition Error := string.

(** How a call ends: with a value, or with an exception (for an [async]
    function: a fulfilled or a rejected promise). *)
Inductive Completion (A : Type) : Type :=
| Return (a : A)
| Throw (e : Error).
Arguments Return {A} a.
Arguments Throw {A} e.

(** JavaScript truthiness of the values the code tests with [if (x)]. *)
Definition truthy_number (n : Z) : bool := negb (n =? 0)%Z.

Definition truthy_string (s : string) : bool :=
  match s with EmptyString => false | _ => true end.

Definition truthy_opt {A : Type} (t : A → bool) (o : option A) : bool :=
  match o with Some a => t a | None => false end.

(** ** BaseModule *)

Module BaseModule.

(** Modelled from the spec: [BaseModule.ts] is not among the sources. The
    status values are those of the specification's subsystem descriptor; the
    six that [ModuleManager.ts] names explicitly are among them, and
    [UNINITIALIZED] is the one its [switch] leaves to [default]. *)
Inductive ModuleStatus : Set :=
| UNINITIALIZED | STARTING | STARTED | ERROR | STOPPING | STOPPED | DISABLED.

#[global] Instance ModuleStatus_eq_dec : EqDecision ModuleStatus.
Proof. solve_decision. Defined.

(** A module object: its status, the names returned by
    [getDependentModules()], and the names of the jobs it registers. *)
Record Module : Type := {
  _status : ModuleStatus;
  _dependentModules : list string;
  _jobs : list string
}.

Definition getStatus (m : Module) : ModuleStatus := _status m.

Definition setStatus (s : ModuleStatus) (m : Module) : Module :=
  {| _status := s;
     _dependentModules := _dependentModules m;
     _jobs := _jobs m |}.

Definition getDependentModules (m : Module) : list string :=
  _dependentModules m.

(** Modelled from the spec: a module can run jobs exactly when its status
    is [STARTED] ("cannot run jobs (status not STARTED)"). *)
Definition canRunJobs (m : Module) : bool :=
  match _status m with STARTED => true | _ => false end.

(** Modelled from the spec: the registry of job types of a module;
    [getJob] finds a job class by name or fails. *)
Definition getJob (jobName : string) (m : Module) : Completion string :=
  if bool_decide (jobName ∈ _jobs m) then Return jobName
  else Throw "Job not found.".

End BaseModule.

(** ** Job.ts *)

Module Job.

Inductive JobStatus : Set := QUEUED | ACTIVE | PAUSED | COMPLETED.

#[global] Instance JobStatus_eq_dec : EqDecision JobStatus.
Proof. solve_decision. Defined.

(** [JobOptions]: every field is optional. A session is an opaque value,
    here its identifier. *)
Record JobOptions : Type := {
  priority : option Z;
  longJob : option string;
  session : option string;
  socketId : option string;
  callbackRef : option string
}.

(** The options handed to [new JobContext(this, contextOptions)]. *)
Record ContextOptions : Type := {
  ctx_session : option string;
  ctx_socketId : option string;
  ctx_callbackRef : option string
}.

Record Job : Type := {
  _module : string;               (* the module object, by its name *)
  _payload : string;              (* the payload object, by a name *)
  _context : option ContextOptions;
  _priority : Z;
  _longJob : option string;
  _uuid : string;
  _status : JobStatus;
  _createdAt : Z;
  _startedAt : option Z;
  _completedAt : option Z
}.

Definition DEFAULT_PRIORITY : Z := 1.

(** [constructor(module, payload, options)]. The clock reading and the
    value of [generateUuid()] are supplied by the caller of the model. *)
Definition new (module : string) (payload : string)
    (options : option JobOptions) (now : Z) (uuid : string) : Job :=
  let contextOptions :=
    match options with
    | Some o =>
        if truthy_opt (λ _, true) (session o)
           || truthy_opt truthy_string (socketId o)
        then Some {| ctx_session := session o;
                     ctx_socketId := socketId o;
                     ctx_callbackRef := callbackRef o |}
        else None
    | None => None
    end in
  let priority' :=
    match options with
    | Some o =>
        match priority o with
        | Some p => if truthy_number p then p else DEFAULT_PRIORITY
        | None => DEFAULT_PRIORITY
        end
    | None => DEFAULT_PRIORITY
    end in
  let longJob' :=
    match options with
    | Some o =>
        match longJob o with
        | Some t => if truthy_string t then Some t else None
        | None => None
        end
    | None => None
    end in
  {| _module := module;
     _payload := payload;
     _context := contextOptions;
     _priority := priority';
     _longJob := longJob';
     _uuid := uuid;
     _status := QUEUED;
     _createdAt := now;
     _startedAt := None;
     _completedAt := None |}.

Definition getPriority (j : Job) : Z := _priority j.
Definition getUuid (j : Job) : string := _uuid j.
Definition getStatus (j : Job) : JobStatus := _status j.
Definition getModule (j : Job) : string := _module j.

Definition _setStatus (s : JobStatus) (j : Job) : Job :=
  {| _module := _module j; _payload := _payload j; _context := _context j;
     _priority := _priority j; _longJob := _longJob j; _uuid := _uuid j;
     _status := s; _createdAt := _createdAt j;
     _startedAt := _startedAt j; _completedAt := _completedAt j |}.

Definition set_startedAt (t : Z) (j : Job) : Job :=
  {| _module := _module j; _payload := _payload j; _context := _context j;
     _priority := _priority j; _longJob := _longJob j; _uuid := _uuid j;
     _status := _status j; _createdAt := _createdAt j;
     _startedAt := Some t; _completedAt := _completedAt j |}.

Definition set_completedAt (t : Z) (j : Job) : Job :=
  {| _module := _module j; _payload := _payload j; _context := _context j;
     _priority := _priority j; _longJob := _longJob j; _uuid := _uuid j;
     _status := _status j; _createdAt := _createdAt j;
     _startedAt := _startedAt j; _completedAt := Some t |}.

Definition getCallbackRef (j : Job) : option string :=
  match _context j with Some c => ctx_callbackRef c | None => None end.

Inductive Outcome : Set := success | error.

(** What the code that [execute] hands control to does when it is run. The
    three overridable hooks of the job class: [_validate] and [_authorize]
    return or throw, [_execute] returns data or throws. And
    [JSON.stringify(this._payload)], which [toJSON] calls when the report of
    an outcome is written: the payload is any JavaScript value, one the
    phases or its owner may have changed by then, and the call returns its
    text or throws (a cyclic structure, a BigInt, a [toJSON] method or a
    getter of the payload that throws). *)
Record Hooks : Type := {
  _validate : option Error;
  _authorize : option Error;
  _execute : Completion string;
  _stringify : Outcome → Completion string
}.

Inductive StatisticsType : Set :=
| CONSTRUCTED | SUCCESSFUL | FAILED | TOTAL | DURATION (ms : Z).

(** What [execute] does that is visible outside the job, in program
    order. Publishing on the event bus, logging and counting are calls into
    modules outside these sources; they are taken to return. *)
Inductive Effect : Type :=
| RanValidate
| RanAuthorize
| RanExecute
| Published (uuid : string) (o : Outcome)
| Logged (o : Outcome)
| Stats (t : StatisticsType).

#[global] Instance Outcome_eq_dec : EqDecision Outcome.
Proof. solve_decision. Defined.

#[global] Instance StatisticsType_eq_dec : EqDecision StatisticsType.
Proof. solve_decision. Defined.

#[global] Instance Effect_eq_dec : EqDecision Effect.
Proof. solve_decision. Defined.

(** [execute], up to its first [await]: the two guards, then the move to
    [ACTIVE]. This part runs synchronously inside the caller. *)
Definition execute_enter (canRunJobs : bool) (now : Z) (j : Job)
    : Job * Completion unit :=
  if truthy_opt truthy_number (_startedAt j)
  then (j, Throw "Job has already been executed.")
  else if negb canRunJobs
  then (j, Throw "Module can not currently run jobs.")
  else (set_startedAt now (_setStatus ACTIVE j), Return ()).

(** The [try] block of [execute]: the phases in order, the first throw
    ends them. *)
Definition try_phases (h : Hooks) : list Effect * Completion string :=
  match _validate h with
  | Some e => ([RanValidate], Throw e)
  | None =>
      match _authorize h with
      | Some e => ([RanValidate; RanAuthorize], Throw e)
      | None => ([RanValidate; RanAuthorize; RanExecute], _execute h)
      end
  end.

Definition publish_if_callbackRef (j : Job) (o : Outcome) : list Effect :=
  match getCallbackRef j with
  | Some r => if truthy_string r then [Published (_uuid j) o] else []
  | None => []
  end.

(** [toJSON()]. The name and the module's status are read from the class
    and the module object; what is kept here is what the job object holds.
    The call that can throw is [JSON.stringify(this._payload)], whose outcome
    is [payload]. *)
Record JobJSON : Type := {
  json_uuid : string;
  json_priority : Z;
  json_status : JobStatus;
  json_createdAt : Z;
  json_startedAt : option Z;
  json_completedAt : option Z;
  json_payload : string
}.

Definition toJSON (payload : Completion string) (j : Job)
    : Completion JobJSON :=
  match payload with
  | Return text =>
      Return {| json_uuid := getUuid j;
                json_priority := getPriority j;
                json_status := getStatus j;
                json_createdAt := _createdAt j;
                json_startedAt := _startedAt j;
                json_completedAt := _completedAt j;
                json_payload := text |}
  | Throw e => Throw e
  end.

(** [log(log)] as [execute] calls it: the argument of [LogBook.log] is
    built first, with [this.toJSON()] spread into its data, so that an
    exception of [toJSON] leaves [log] before anything is written. *)
Definition log (payload : Completion string) (j : Job) (o : Outcome)
    : list Effect * option Error :=
  match toJSON payload j with
  | Return _ => ([Logged o], None)
  | Throw e => ([], Some e)
  end.

(** The [catch] block of [execute], entered with the exception [caught]: it
    reports and rethrows; an exception of its own replaces the one it
    caught. *)
Definition catch_block (h : Hooks) (j : Job) (caught : Error)
    : list Effect * Completion string :=
  let published := publish_if_callbackRef j error in
  match log (_stringify h error) j error with
  | (logged, None) => (published ++ logged ++ [Stats FAILED], Throw caught)
  | (logged, Some e) => (published ++ logged, Throw e)
  end.

(** The rest of the [try] block once the phases have ended as [r], and
    the [catch] block: an exception of the report that ends the [try] block
    is caught like one of a phase. *)
Definition report (h : Hooks) (j : Job) (r : Completion string)
    : list Effect * Completion string :=
  match r with
  | Return data =>
      let published := publish_if_callbackRef j success in
      match log (_stringify h success) j success with
      | (logged, None) =>
          (published ++ logged ++ [Stats SUCCESSFUL], Return data)
      | (logged, Some e) =>
          let '(handled, r') := catch_block h j e in
          (published ++ logged ++ handled, r')
      end
  | Throw e => catch_block h j e
  end.

(** [execute], from the [try] on: [try] / [catch] / [finally]. *)
Definition execute_body (h : Hooks) (now : Z) (j : Job)
    : Job * Completion string * list Effect :=
  let '(ran, r) := try_phases h in
  let '(reported, r') := report h j r in
  let j1 := set_completedAt now j in
  let duration :=
    match _startedAt j1 with
    | Some t => if truthy_number t then [Stats (DURATION (now - t))] else []
    | None => []
    end in
  (_setStatus COMPLETED j1, r', ran ++ reported ++ [Stats TOTAL] ++ duration).

(** The whole of [execute], for a caller that awaits it. *)
Definition execute (canRunJobs : bool) (h : Hooks) (started finished : Z)
    (j : Job) : Job * Completion string * list Effect :=
  match execute_enter canRunJobs started j with
  | (j', Throw e) => (j', Throw e, [])
  | (j', Return _) => execute_body h finished j'
  end.

End Job.

(** ** Array helpers *)

(** [Array.prototype.indexOf]: the first index holding [x]; [None] is the
    JavaScript result [-1]. *)
Definition indexOf {A : Type} `{EqDecision A} (x : A) (l : list A) : option nat :=
  fst <$> list_find (λ y, y = x) l.

Definition includes {A : Type} `{EqDecision A} (x : A) (l : list A) : bool :=
  bool_decide (x ∈ l).

(** [array.splice(start, 1)] for a [start] computed by [indexOf]: a negative
    start counts from the end, so [-1] removes the last element. *)
Definition splice1 {A : Type} (start : option nat) (l : list A) : list A :=
  match start with
  | Some i => delete i l
  | None => take (length l - 1) l
  end.

(** ** ModuleManager.ts *)

Module ModuleManager.

(** The [_modules] object: its entries in insertion order, which is the
    order of [Object.entries] and [Object.values]. *)
Abbreviation Modules := (list (string * BaseModule.Module)).

Fixpoint getModule (moduleName : string) (ms : Modules)
    : option BaseModule.Module :=
  match ms with
  | [] => None
  | (n, m) :: rest =>
      if decide (n = moduleName) then Some m else getModule moduleName rest
  end.

(** Mutation of the module object stored under a name. *)
Fixpoint updateModule (moduleName : string)
    (f : BaseModule.Module → BaseModule.Module) (ms : Modules) : Modules :=
  match ms with
  | [] => []
  | (n, m) :: rest =>
      if decide (n = moduleName) then (n, f m) :: rest
      else (n, m) :: updateModule moduleName f rest
  end.

(** Calls that leave the manager, in program order. *)
Inductive Action : Type :=
| StartupCalled (name : string)
| ShutdownCalled (name : string)
| QueueResumed.

#[global] Instance Action_eq_dec : EqDecision Action.
Proof. solve_decision. Defined.

Record State : Type := {
  _modules : Modules;
  actions : list Action
}.

(** The result of an [async] method of the manager. [OutOfFuel] is a
    recursion that has used up the call stack. [_startModule] calls itself
    before its first suspension, so the calls for a chain of dependencies are
    nested on the stack; the depth the stack allows is the fuel of the model.
    At that depth the engine throws a [RangeError], which leaves every
    [_startModule] on the stack as a rejection, none of them having a handler
    for it, and is caught in [startup]. *)
Inductive Result : Type :=
| Ok (st : State)
| Err (e : Error) (st : State)
| OutOfFuel (st : State).

Definition state_of (r : Result) : State :=
  match r with Ok st | Err _ st | OutOfFuel st => st end.

(** The message of the [RangeError] of an exhausted call stack. *)
Definition RangeError : Error := "Maximum call stack size exceeded"%string.

Definition setStatus (name : string) (s : BaseModule.ModuleStatus)
    (st : State) : State :=
  {| _modules := updateModule name (BaseModule.setStatus s) (_modules st);
     actions := actions st |}.

Definition record (a : Action) (st : State) : State :=
  {| _modules := _modules st; actions := actions st ++ [a] |}.

Section Routines.

(** What the modules' own startup and shutdown routines do: whether the
    routine of the named module throws. *)
Variable startup_throws : string → option Error.
Variable shutdown_throws : string → option Error.

(** Modelled from the spec: [module.startup()] of [BaseModule.ts], which is
    not among the sources: the routine is run; "on success mark STARTED". The
    [ERROR] mark on failure is the [catch] handler of [_startModule]. *)
Definition module_startup (name : string) (st : State) : Result :=
  let st1 := record (StartupCalled name) (setStatus name BaseModule.STARTING st) in
  match startup_throws name with
  | None => Ok (setStatus name BaseModule.STARTED st1)
  | Some e => Err e st1
  end.

(** Modelled from the spec: [module.shutdown()] of [BaseModule.ts]. *)
Definition module_shutdown (name : string) (st : State) : Result :=
  let st1 := record (ShutdownCalled name) (setStatus name BaseModule.STOPPING st) in
  match shutdown_throws name with
  | None => Ok (setStatus name BaseModule.STOPPED st1)
  | Some e => Err e st1
  end.

(** The [for ... of module.getDependentModules()] loop of [_startModule],
    over the recursive call [rec]. *)
Fixpoint start_dependencies (rec : string → State → Result)
    (names : list string) (st : State) : Result :=
  match names with
  | [] => Ok st
  | name :: rest =>
      match getModule name (_modules st) with
      | None => Err "Dependent module not found" st
      | Some _ =>
          match rec name st with
          | Ok st' => start_dependencies rec rest st'
          | r => r
          end
      end
  end.

(** [_startModule(module)]. The module object is named by its key; its
    status is read when the call is made. The recursion of the source has no
    bound, the depth of the model is bounded by [fuel]. *)
Fixpoint _startModule (fuel : nat) (name : string) (st : State) : Result :=
  match fuel with
  | O => OutOfFuel st
  | S fuel' =>
      match getModule name (_modules st) with
      | None => Err "Dependent module not found" st
      | Some module =>
          match BaseModule.getStatus module with
          | BaseModule.STARTING | BaseModule.STARTED => Ok st
          | BaseModule.ERROR => Err "Dependent module failed to start" st
          | BaseModule.STOPPING | BaseModule.STOPPED | BaseModule.DISABLED =>
              Err "Dependent module is unavailable" st
          | BaseModule.UNINITIALIZED =>
              match start_dependencies (_startModule fuel')
                      (BaseModule.getDependentModules module) st with
              | Ok st' =>
                  match module_startup name st' with
                  | Err e st'' => Err e (setStatus name BaseModule.ERROR st'')
                  | r => r
                  end
              | r => r
              end
          end
      end
  end.

(** The loop of [startup] over [Object.values(this._modules)]. *)
Fixpoint start_all (fuel : nat) (names : list string) (st : State) : Result :=
  match names with
  | [] => Ok st
  | name :: rest =>
      match _startModule fuel name st with
      | Ok st' => start_all fuel rest st'
      | r => r
      end
  end.

Definition is_running (m : BaseModule.Module) : bool :=
  match BaseModule.getStatus m with
  | BaseModule.STARTED | BaseModule.STARTING | BaseModule.ERROR => true
  | _ => false
  end.

(** One round of the [for (const [name, module] of modules)] loop of
    [shutdown]. *)
Definition shutdownOrder_step (shutdownOrder : list string)
    (entry : string * BaseModule.Module) : list string :=
  let '(name, module) := entry in
  let order1 :=
    if includes name shutdownOrder then shutdownOrder
    else shutdownOrder ++ [name] in
  let dependencies := BaseModule.getDependentModules module in
  let present := filter (λ d, includes d order1 = true) dependencies in
  let order2 := foldl (λ o d, splice1 (indexOf d o) o) order1 present in
  order2 ++ dependencies.

(** The order in which [shutdown] stops the modules. *)
Definition shutdownOrder (ms : Modules) : list string :=
  foldl shutdownOrder_step []
    (filter (λ entry, is_running entry.2 = true) ms).

(** The last loop of [shutdown]: [await this.getModule(name)?.shutdown()]. *)
Fixpoint shutdown_each (names : list string) (st : State) : Result :=
  match names with
  | [] => Ok st
  | name :: rest =>
      match getModule name (_modules st) with
      | None => shutdown_each rest st
      | Some _ =>
          match module_shutdown name st with
          | Ok st' => shutdown_each rest st'
          | r => r
          end
      end
  end.

Definition shutdown (st : State) : Result :=
  shutdown_each (shutdownOrder (_modules st)) st.

(** The [catch (err)] block of [startup]: [await this.shutdown()], then
    [throw err], unless [shutdown] has thrown itself. *)
Definition startup_catch (err : Error) (st : State) : Result :=
  match shutdown st with
  | Ok st' => Err err st'
  | r => r
  end.

(** [startup()], after [_loadModules] has built the table [loaded]. The
    [try] block covers the whole loop, so its [catch] block also takes the
    [RangeError] of a recursion that has used up the stack. *)
Definition startup (fuel : nat) (loaded : Modules) : Result :=
  let st := {| _modules := loaded; actions := [] |} in
  match start_all fuel (map fst loaded) st with
  | Ok st' => Ok (record QueueResumed st')
  | Err e st' => startup_catch e st'
  | OutOfFuel st' => startup_catch RangeError st'
  end.

End Routines.

End ModuleManager.

(** ** JobQueue.ts *)

Module JobQueue.

(** A job object is named by its address in [heap]; a caller's
    [{ resolve, reject }] pair is named by a number. *)
Abbreviation JobRef := nat.
Abbreviation Callback := nat.

(** The promises of the chain [_process] builds on one call of
    [job.execute()],
    [.then(callback.resolve).catch(callback.reject).finally(...)], by the last
    of them that has settled: none, the call is suspended; the promise of
    [execute], as [c]; that of [.then]; that of [.catch]; that of
    [.finally]. Each reaction runs in a microtask of its own, so other code
    runs in between. [rejection] is what the promise of [.then] was rejected
    with, if it was: what [execute] threw, or what [resolve] threw when it
    was called. *)
Inductive PromiseState : Type :=
| Running
| Settled (c : Completion string)
| Resolved (c : Completion string) (rejection : option Error)
| Answered (c : Completion string) (rejection : option Error)
| Delivered (c : Completion string) (rejection : option Error).

Record Promise : Type := {
  p_job : JobRef;
  p_callback : option Callback;
  p_state : PromiseState
}.

Definition is_running (p : Promise) : bool :=
  match p_state p with Running => true | _ => false end.

Definition is_settled (p : Promise) : bool :=
  match p_state p with Settled _ => true | _ => false end.

Definition is_resolved (p : Promise) : bool :=
  match p_state p with Resolved _ _ => true | _ => false end.

Definition is_answered (p : Promise) : bool :=
  match p_state p with Answered _ _ => true | _ => false end.

(** The seven fields of the [JobQueue] object, then the part of the program
    it works on: the job objects, the module table of the [ModuleManager],
    every promise [job.execute()] has returned to the queue so far, and what
    the callers' callbacks have received. *)
Record State : Type := {
  _concurrency : nat;
  _isPaused : bool;
  _jobs : list JobRef;
  _queue : list JobRef;
  _active : list JobRef;
  _callbacks : gmap string Callback;
  _processLock : bool;
  heap : list Job.Job;
  modules : ModuleManager.Modules;
  promises : list Promise;
  delivered : list (Callback * Completion string)
}.

Definition set_isPaused (b : bool) (st : State) : State :=
  {| _concurrency := _concurrency st; _isPaused := b; _jobs := _jobs st;
     _queue := _queue st; _active := _active st;
     _callbacks := _callbacks st; _processLock := _processLock st;
     heap := heap st; modules := modules st; promises := promises st;
     delivered := delivered st |}.

Definition set_jobs (l : list JobRef) (st : State) : State :=
  {| _concurrency := _concurrency st; _isPaused := _isPaused st; _jobs := l;
     _queue := _queue st; _active := _active st;
     _callbacks := _callbacks st; _processLock := _processLock st;
     heap := heap st; modules := modules st; promises := promises st;
     delivered := delivered st |}.

Definition set_queue (l : list JobRef) (st : State) : State :=
  {| _concurrency := _concurrency st; _isPaused := _isPaused st;
     _jobs := _jobs st; _queue := l; _active := _active st;
     _callbacks := _callbacks st; _processLock := _processLock st;
     heap := heap st; modules := modules st; promises := promises st;
     delivered := delivered st |}.

Definition set_active (l : list JobRef) (st : State) : State :=
  {| _concurrency := _concurrency st; _isPaused := _isPaused st;
     _jobs := _jobs st; _queue := _queue st; _active := l;
     _callbacks := _callbacks st; _processLock := _processLock st;
     heap := heap st; modules := modules st; promises := promises st;
     delivered := delivered st |}.

Definition set_callbacks (m : gmap string Callback) (st : State) : State :=
  {| _concurrency := _concurrency st; _isPaused := _isPaused st;
     _jobs := _jobs st; _queue := _queue st; _active := _active st;
     _callbacks := m; _processLock := _processLock st;
     heap := heap st; modules := modules st; promises := promises st;
     delivered := delivered st |}.

Definition set_processLock (b : bool) (st : State) : State :=
  {| _concurrency := _concurrency st; _isPaused := _isPaused st;
     _jobs := _jobs st; _queue := _queue st; _active := _active st;
     _callbacks := _callbacks st; _processLock := b;
     heap := heap st; modules := modules st; promises := promises st;
     delivered := delivered st |}.

Definition set_heap (h : list Job.Job) (st : State) : State :=
  {| _concurrency := _concurrency st; _isPaused := _isPaused st;
     _jobs := _jobs st; _queue := _queue st; _active := _active st;
     _callbacks := _callbacks st; _processLock := _processLock st;
     heap := h; modules := modules st; promises := promises st;
     delivered := delivered st |}.

Definition set_modules (ms : ModuleManager.Modules) (st : State) : State :=
  {| _concurrency := _concurrency st; _isPaused := _isPaused st;
     _jobs := _jobs st; _queue := _queue st; _active := _active st;
     _callbacks := _callbacks st; _processLock := _processLock st;
     heap := heap st; modules := ms; promises := promises st;
     delivered := delivered st |}.

Definition set_promises (ps : list Promise) (st : State) : State :=
  {| _concurrency := _concurrency st; _isPaused := _isPaused st;
     _jobs := _jobs st; _queue := _queue st; _active := _active st;
     _callbacks := _callbacks st; _processLock := _processLock st;
     heap := heap st; modules := modules st; promises := ps;
     delivered := delivered st |}.

Definition set_delivered (d : list (Callback * Completion string))
    (st : State) : State :=
  {| _concurrency := _concurrency st; _isPaused := _isPaused st;
     _jobs := _jobs st; _queue := _queue st; _active := _active st;
     _callbacks := _callbacks st; _processLock := _processLock st;
     heap := heap st; modules := modules st; promises := promises st;
     delivered := d |}.

(** [constructor()], with the module table the queue will consult. *)
Definition new (ms : ModuleManager.Modules) : State :=
  {| _concurrency := 50; _isPaused := true; _jobs := []; _queue := [];
     _active := []; _callbacks := ∅; _processLock := false;
     heap := []; modules := ms; promises := []; delivered := [] |}.

(** Reads through a job reference. *)
Definition uuid_of (st : State) (job : JobRef) : option string :=
  Job.getUuid <$> heap st !! job.

Definition priority_of (h : list Job.Job) (job : JobRef) : Z :=
  from_option Job.getPriority Job.DEFAULT_PRIORITY (h !! job).

Definition status_of (st : State) (job : JobRef) : option Job.JobStatus :=
  Job.getStatus <$> heap st !! job.

(** [job.getModule().canRunJobs()]. *)
Definition canRunJobs_of (st : State) (job : JobRef) : bool :=
  match heap st !! job with
  | Some j =>
      match ModuleManager.getModule (Job.getModule j) (modules st) with
      | Some m => BaseModule.canRunJobs m
      | None => false
      end
  | None => false
  end.

(** [getJob(jobId)]: [this._jobs.find(job => job.getUuid() === jobId)]. *)
Definition getJob (jobId : string) (st : State) : option JobRef :=
  snd <$> list_find (λ job, uuid_of st job = Some jobId) (_jobs st).

Definition pause (st : State) : State := set_isPaused true st.

(** [Array.prototype.sort] with a comparator. The sort is stable (ECMAScript
    2019), and a stable sort has one possible result: that of insertion. It
    works in place and returns the array it was called on. *)
Fixpoint sort_insert {A : Type} (compare : A → A → Z) (x : A) (l : list A)
    : list A :=
  match l with
  | [] => [x]
  | y :: l' =>
      if (compare x y <=? 0)%Z then x :: l
      else y :: sort_insert compare x l'
  end.

Definition sort {A : Type} (compare : A → A → Z) (l : list A) : list A :=
  foldr (sort_insert compare) [] l.

(** The comparator of [_process]: [(a, b) => a.getPriority() - b.getPriority()]. *)
Definition by_priority (h : list Job.Job) (a b : JobRef) : Z :=
  (priority_of h a - priority_of h b)%Z.

(** [job.execute()] as called by [_process]: the synchronous part of
    [Job.execute] runs at once, and the promise it returns is recorded with
    the callback that [_process] chains on it. *)
Definition call_execute (job : JobRef) (callback : option Callback) (now : Z)
    (st : State) : State :=
  match heap st !! job with
  | None => st
  | Some j =>
      let '(j', c) := Job.execute_enter (canRunJobs_of st job) now j in
      let p := {| p_job := job;
                  p_callback := callback;
                  p_state := match c with
                             | Return _ => Running
                             | Throw e => Settled (Throw e)
                             end |} in
      set_promises (promises st ++ [p]) (set_heap (<[job := j']> (heap st)) st)
  end.

(** One round of the [for] loop of [_process] for a job whose module can run
    jobs: from the [splice] to the chain on [job.execute()]. The callback found
    is returned with the state. *)
Definition dispatch (job : JobRef) (now : Z) (st : State)
    : State * option Callback :=
  let st1 := set_queue (splice1 (indexOf job (_queue st)) (_queue st)) st in
  let st2 := set_active (_active st1 ++ [job]) st1 in
  let callback := uuid_of st2 job ≫= λ u, _callbacks st2 !! u in
  (call_execute job callback now st2, callback).

(** The [for] loop of [_process], from index [i]. The array [jobs] it walks
    is [this._queue] itself: [sort] returned the array it sorted. The boolean
    tells whether the loop was left by an exception, which happens when
    [callback] is [undefined] and [callback.resolve] is read.
    Every round consumes one unit of [fuel]; [_process] supplies the length of
    the queue, which the loop cannot exceed ([process_loop_fuel]). *)
Fixpoint process_loop (fuel : nat) (now : Z) (i : nat) (st : State)
    : State * bool :=
  match fuel with
  | O => (st, false)
  | S fuel' =>
      match _queue st !! i with
      | None => (st, false)
      | Some job =>
          if negb (canRunJobs_of st job) then process_loop fuel' now (S i) st
          else
            match dispatch job now st with
            | (st', None) => (st', true)
            | (st', Some _) =>
                if _concurrency st' <=? length (_active st') then (st', false)
                else process_loop fuel' now (S i) st'
            end
      end
  end.

(** [_process()]. It contains no [await]: it runs to its end inside its
    caller. *)
Definition _process (now : Z) (st : State) : State :=
  if _processLock st then st
  else if _isPaused st
          || (_concurrency st <=? length (_active st))
          || (length (_queue st) =? 0)
  then st
  else
    let st1 := set_processLock true st in
    let st2 := set_queue (sort (by_priority (heap st1)) (_queue st1)) st1 in
    let '(st3, threw) := process_loop (length (_queue st2)) now 0 st2 in
    if threw then st3 else set_processLock false st3.

Definition resume (now : Z) (st : State) : State :=
  _process now (set_isPaused false st).

(** [queueJob(moduleName, jobName, payload, callback, options)] up to its
    call of [this._process()]; [uuid] is the value [generateUuid()] gives the
    new job. *)
Definition enqueue (moduleName jobName payload : string)
    (callback : Callback) (options : option Job.JobOptions)
    (now : Z) (uuid : string) (st : State) : Completion State :=
  match ModuleManager.getModule moduleName (modules st) with
  | None => Throw "Module not found."
  | Some module =>
      match BaseModule.getJob jobName module with
      | Throw e => Throw e
      | Return _ =>
          let job := length (heap st) in
          let st1 :=
            set_heap (heap st ++ [Job.new moduleName payload options now uuid])
              st in
          let st2 := set_callbacks (<[uuid := callback]> (_callbacks st1)) st1 in
          let st3 := set_jobs (_jobs st2 ++ [job]) st2 in
          Return (set_queue (_queue st3 ++ [job]) st3)
      end
  end.

Definition queueJob (moduleName jobName payload : string)
    (callback : Callback) (options : option Job.JobOptions)
    (now : Z) (uuid : string) (st : State) : State * Completion string :=
  match enqueue moduleName jobName payload callback options now uuid st with
  | Throw e => (st, Throw e)
  | Return st' => (_process now st', Return uuid)
  end.

(** The suspended [execute] of a job runs to its end: the phases, the
    report, the [finally] block. Its promise settles. *)
Definition settle (job : JobRef) (h : Job.Hooks) (now : Z) (st : State)
    : State :=
  match list_find (λ p, p_job p = job ∧ is_running p = true) (promises st) with
  | None => st
  | Some (k, p) =>
      match heap st !! job with
      | None => st
      | Some j =>
          let '(j', c, _) := Job.execute_body h now j in
          let p' := {| p_job := job; p_callback := p_callback p;
                       p_state := Settled c |} in
          set_promises (<[k := p']> (promises st))
            (set_heap (<[job := j']> (heap st)) st)
      end
  end.

(** A reaction settles the next promise of the chain, and the calls it
    makes reach the callback. *)
Definition hand_over (k : nat) (p' : Promise)
    (calls : list (Callback * Completion string)) (st : State) : State :=
  set_delivered (delivered st ++ calls)
    (set_promises (<[k := p']> (promises st)) st).

(** What [.then(callback.resolve)] calls [resolve] with: the result of a
    fulfilled promise. *)
Definition resolved (c : Completion string) : list (Completion string) :=
  match c with
  | Return data => [Return data]
  | Throw _ => []
  end.

(** What [.catch(callback.reject)] calls [reject] with: the exception of a
    rejected promise. *)
Definition rejected (rejection : option Error) : list (Completion string) :=
  match rejection with
  | Some e => [Throw e]
  | None => []
  end.

(** The first reaction [_process] chained, [.then(callback.resolve)], on a
    promise of [execute] that has settled. [resolve_throws] is what the
    caller's [resolve] does when it is called: it returns, or it throws. The
    promise of [.then] is rejected with what [resolve] threw, or with the
    exception of [execute], which it passes on. *)
Definition then_resolve (job : JobRef) (resolve_throws : option Error)
    (st : State) : State :=
  match list_find (λ p, p_job p = job ∧ is_settled p = true
                        ∧ is_Some (p_callback p)) (promises st) with
  | Some (k, {| p_callback := Some cb; p_state := Settled c |}) =>
      let rejection :=
        match c with
        | Return _ => resolve_throws
        | Throw e => Some e
        end in
      hand_over k
        {| p_job := job; p_callback := Some cb;
           p_state := Resolved c rejection |}
        ((λ r, (cb, r)) <$> resolved c) st
  | _ => st
  end.

(** The second reaction, [.catch(callback.reject)], a microtask later.
    What [reject] throws rejects the promise of [.catch] and then that of
    [.finally], on which nothing is chained; the fields of the queue are not
    touched by it. *)
Definition catch_reject (job : JobRef) (st : State) : State :=
  match list_find (λ p, p_job p = job ∧ is_resolved p = true
                        ∧ is_Some (p_callback p)) (promises st) with
  | Some (k, {| p_callback := Some cb; p_state := Resolved c rejection |}) =>
      hand_over k
        {| p_job := job; p_callback := Some cb;
           p_state := Answered c rejection |}
        ((λ r, (cb, r)) <$> rejected rejection) st
  | _ => st
  end.

(** The last reaction [_process] chained, [.finally(...)], up to the call
    of [this._process()] that ends it. It runs after the callback has been
    called, in a later microtask, also when [reject] has thrown. *)
Definition react (job : JobRef) (st : State) : option State :=
  match list_find (λ p, p_job p = job ∧ is_answered p = true
                        ∧ is_Some (p_callback p)) (promises st) with
  | Some (k, {| p_callback := Some cb; p_state := Answered c rejection |}) =>
      let p' := {| p_job := job; p_callback := Some cb;
                   p_state := Delivered c rejection |} in
      let st1 := set_promises (<[k := p']> (promises st)) st in
      let st2 :=
        match uuid_of st1 job with
        | Some u => set_callbacks (delete u (_callbacks st1)) st1
        | None => st1
        end in
      Some
        match indexOf job (_active st2) with
        | Some activeJobIndex =>
            set_active (splice1 (Some activeJobIndex) (_active st2)) st2
        | None => st2
        end
  | _ => None
  end.

Definition finish (job : JobRef) (now : Z) (st : State) : State :=
  match react job st with
  | Some st' => _process now st'
  | None => st
  end.

(** What can happen to a queue, one synchronous block at a time. *)
Inductive Event : Type :=
| QueueJob (moduleName jobName payload : string) (callback : Callback)
    (options : option Job.JobOptions) (now : Z) (uuid : string)
| Pause
| Resume (now : Z)
| Settle (job : JobRef) (h : Job.Hooks) (now : Z)
| Finish (job : JobRef) (now : Z)
| SetModuleStatus (name : string) (s : BaseModule.ModuleStatus)
| Then (job : JobRef) (resolve_throws : option Error)
| Catch (job : JobRef).

Definition step (st : State) (ev : Event) : State :=
  match ev with
  | QueueJob moduleName jobName payload callback options now uuid =>
      (queueJob moduleName jobName payload callback options now uuid st).1
  | Pause => pause st
  | Resume now => resume now st
  | Settle job h now => settle job h now st
  | Finish job now => finish job now st
  | SetModuleStatus name s =>
      set_modules
        (ModuleManager.updateModule name (BaseModule.setStatus s) (modules st))
        st
  | Then job resolve_throws => then_resolve job resolve_throws st
  | Catch job => catch_reject job st
  end.

Definition run (evs : list Event) (st : State) : State := foldl step st evs.

(** The dispatch pass an event makes, if it makes one: the clock reading
    and the state in which [_process] is called. *)
Definition pass_of (st : State) (ev : Event) : option (Z * State) :=
  match ev with
  | QueueJob moduleName jobName payload callback options now uuid =>
      match enqueue moduleName jobName payload callback options now uuid st with
      | Return st' => Some (now, st')
      | Throw _ => None
      end
  | Resume now => Some (now, set_isPaused false st)
  | Finish job now => (λ st', (now, st')) <$> react job st
  | _ => None
  end.

(** [getStatus()]. *)
Record QueueStatus : Type := {
  isPaused : bool;
  queueLength : nat;
  activeLength : nat;
  concurrency : nat
}.

Definition getStatus (st : State) : QueueStatus :=
  {| isPaused := _isPaused st;
     queueLength := length (_queue st);
     activeLength := length (_active st);
     concurrency := _concurrency st |}.

(** [getJobs()]. *)
Definition getJobs (st : State) : list JobRef := _jobs st.

End JobQueue.

(** * Specification vocabulary

    The notions the statements below are written in. *)

Module JobLifecycle.

(** A caller's dealings with one job object: it calls [execute()], which
    runs up to the first suspension, and later the suspended call runs to its
    end. *)
Inductive Call : Type :=
| Enter (canRunJobs : bool) (now : Z)
| Leave (h : Job.Hooks) (now : Z).

(** The job object, the number of calls of [execute] that are suspended, and
    everything the job has reported so far. *)
Record Life : Type := {
  job : Job.Job;
  suspended : nat;
  log : list Job.Effect
}.

Definition born (j : Job.Job) : Life :=
  {| job := j; suspended := 0; log := [] |}.

Definition life_step (l : Life) (c : Call) : Life :=
  match c with
  | Enter canRunJobs now =>
      match Job.execute_enter canRunJobs now (job l) with
      | (j', Return _) =>
          {| job := j'; suspended := S (suspended l); log := log l |}
      | (j', Throw _) =>
          {| job := j'; suspended := suspended l; log := log l |}
      end
  | Leave h now =>
      match suspended l with
      | O => l
      | S n =>
          let '(j', _, effects) := Job.execute_body h now (job l) in
          {| job := j'; suspended := n; log := log l ++ effects |}
      end
  end.

Definition life_run (calls : list Call) (l : Life) : Life :=
  foldl life_step l calls.

(** [performance.now()] never reads zero once the process runs. *)
Definition clock_nonzero (c : Call) : bool :=
  match c with
  | Enter _ now | Leave _ now => negb (now =? 0)%Z
  end.

(** The moves of the status the lifecycle allows in one step. *)
Definition advances (s s' : Job.JobStatus) : Prop :=
  s' = s
  ∨ (s = Job.QUEUED ∧ s' = Job.ACTIVE)
  ∨ (s = Job.ACTIVE ∧ s' = Job.COMPLETED).

(** The order of the lifecycle. [PAUSED] is declared but never assigned. *)
Definition status_rank (s : Job.JobStatus) : nat :=
  match s with
  | Job.QUEUED => 0
  | Job.ACTIVE | Job.PAUSED => 1
  | Job.COMPLETED => 2
  end.

(** "The entry point never throws": no exception leaves [execute]. *)
Definition never_throws (canRunJobs : bool) (h : Job.Hooks)
    (started finished : Z) (j : Job.Job) : Prop :=
  ∀ e, (Job.execute canRunJobs h started finished j).1.2 ≠ Throw e.

(** A job whose [_validate] rejects the payload, as [DeleteByIdJob] does. *)
Definition rejecting : Job.Hooks :=
  {| Job._validate := Some "Payload must be an object"%string;
     Job._authorize := None;
     Job._execute := Return ""%string;
     Job._stringify := λ _, Return "{}"%string |}.

(** How many times the phases of the job were begun. *)
Definition executions (l : Life) : nat :=
  length (filter (λ e, e = Job.RanValidate) (log l)).

(** The three shapes a job object can have. *)
Inductive shape (l : Life) : Prop :=
| fresh :
    Job._status (job l) = Job.QUEUED → Job._startedAt (job l) = None →
    suspended l = 0 → executions l = 0 → shape l
| running t :
    Job._status (job l) = Job.ACTIVE → Job._startedAt (job l) = Some t →
    t ≠ 0%Z → suspended l = 1 → executions l = 0 → shape l
| finished t :
    Job._status (job l) = Job.COMPLETED → Job._startedAt (job l) = Some t →
    t ≠ 0%Z → suspended l = 0 → executions l = 1 → shape l.

End JobLifecycle.

Module Orchestration.

Import ModuleManager.

(** [a] names [b] among its dependencies. *)
Definition depends_on (ms : Modules) (a b : string) : Prop :=
  ∃ m, getModule a ms = Some m ∧ b ∈ BaseModule.getDependentModules m.



(** The table as [_loadModules] leaves it: no module has been touched. *)
Definition freshly_loaded (ms : Modules) : Prop :=
  Forall (λ entry, BaseModule.getStatus entry.2 = BaseModule.UNINITIALIZED) ms.

Definition startup_called (name : string) (st : State) : Prop :=
  StartupCalled name ∈ actions st.

(** Failing fast: whatever depth the call stack allows, an error comes
    back and no startup routine has run. *)
Definition fails_fast (startup_throws shutdown_throws : string → option Error)
    (loaded : Modules) : Prop :=
  ∀ fuel, ∃ e st,
    startup startup_throws shutdown_throws (S fuel) loaded = Err e st
    ∧ ∀ name, ¬ startup_called name st.

Definition module (s : BaseModule.ModuleStatus) (deps : list string)
    : BaseModule.Module :=
  {| BaseModule._status := s;
     BaseModule._dependentModules := deps;
     BaseModule._jobs := [] |}.

(** A chain: [a] needs [b], [b] needs [c]; [b] was loaded first. *)
Definition chain_bac : Modules :=
  [("b"%string, module BaseModule.STARTED ["c"%string]);
   ("a"%string, module BaseModule.STARTED ["b"%string]);
   ("c"%string, module BaseModule.STARTED [])].


(** A module that needs itself. *)
Definition loop_a : Modules :=
  [("a"%string, module BaseModule.UNINITIALIZED ["a"%string])].

Definition never_throws : string → option Error := λ _, None.

(** A status other than [UNINITIALIZED]. *)
Definition touched (name : string) (st : State) : Prop :=
  ∃ m, getModule name (_modules st) = Some m
       ∧ BaseModule.getStatus m ≠ BaseModule.UNINITIALIZED.


Definition grows (st st' : State) : Prop :=
  ∀ name, touched name st → touched name st'.


End Orchestration.

Module Scheduling.

Import JobQueue.

(** A table with one module, [data], which registers the job [find]. *)
Definition data_module (s : BaseModule.ModuleStatus) : ModuleManager.Modules :=
  [("data"%string,
    {| BaseModule._status := s;
       BaseModule._dependentModules := [];
       BaseModule._jobs := ["find"%string] |})].

Definition with_priority (p : Z) : Job.JobOptions :=
  {| Job.priority := Some p; Job.longJob := None; Job.session := None;
     Job.socketId := None; Job.callbackRef := None |}.

(** A submission of [data.find] at time 5, answered on callback 7. *)
Definition submit (uuid : string) (options : option Job.JobOptions) : Event :=
  QueueJob "data" "find" "{}" 7 options 5 uuid.

(** The identifiers [generateUuid()] hands out during a run, one per
    submission. *)
Definition submitted (ev : Event) : list string :=
  match ev with
  | QueueJob _ _ _ _ _ _ uuid => [uuid]
  | _ => []
  end.

Definition submitted_uuids (evs : list Event) : list string :=
  evs ≫= submitted.

Definition uuids (st : State) : list string := Job.getUuid <$> heap st.

(** A job object as its constructor left it. *)
Definition untouched (j : Job.Job) : Prop :=
  Job._status j = Job.QUEUED ∧ Job._startedAt j = None.

(** A promise whose [finally] handler has not run yet. *)
Definition pending (p : Promise) : bool :=
  match p_state p with Delivered _ _ => false | _ => true end.

(** What the fields of a queue have to do with one another. *)
Record consistent (st : State) : Prop := {
  jobs_are_heap : _jobs st = seq 0 (length (heap st));
  uuids_unique : NoDup (uuids st);
  queue_nodup : NoDup (_queue st);
  queue_waiting : ∀ job, job ∈ _queue st →
    (∃ j, heap st !! job = Some j ∧ untouched j
          ∧ is_Some (_callbacks st !! Job.getUuid j))
    ∧ (job ∉ (p_job <$> promises st));
  promises_nodup : NoDup (p_job <$> promises st);
  promises_valid : ∀ p, p ∈ promises st →
    is_Some (heap st !! p_job p) ∧ is_Some (p_callback p);
  active_nodup : NoDup (_active st);
  active_pending : ∀ job, job ∈ _active st →
    ∃ p, p ∈ promises st ∧ p_job p = job ∧ pending p = true
}.

Definition wf (st : State) : Prop :=
  consistent st ∧ _processLock st = false.

(** A unit the queue has handed to [job.execute()]: it is in the active
    set, its job object is [ACTIVE], and its promise is chained on the
    callback registered for it. *)
Definition dispatched (st : State) (job : JobRef) : Prop :=
  job ∈ _active st
  ∧ status_of st job = Some Job.ACTIVE
  ∧ ∃ cb, {| p_job := job; p_callback := Some cb; p_state := Running |}
          ∈ promises st.

(** How a dispatch pass, or a part of one, changes a queue. *)
Record pass (st st' : State) : Prop := {
  pass_queue : _queue st' ⊆+ _queue st;
  pass_active : ∃ l, _active st' = _active st ++ l;
  pass_promises : ∃ ps, promises st' = promises st ++ ps;
  pass_heap : ∀ job, job ∉ _queue st ∨ job ∈ _queue st' →
    heap st' !! job = heap st !! job;
  pass_dispatched : ∀ job, job ∈ _queue st → job ∉ _queue st' →
    dispatched st' job;
  pass_callbacks : _callbacks st' = _callbacks st;
  pass_delivered : delivered st' = delivered st;
  pass_modules : modules st' = modules st;
  pass_jobs : _jobs st' = _jobs st;
  pass_concurrency : _concurrency st' = _concurrency st;
  pass_isPaused : _isPaused st' = _isPaused st;
  pass_uuids : uuids st' = uuids st;
  pass_eligible : ∀ job, job ∈ _queue st → job ∉ _queue st' →
    canRunJobs_of st job = true;
  pass_count :
    length (_active st') + length (_queue st')
    = length (_active st) + length (_queue st)
}.

(** The bound of the specification. *)
Definition bounded (st : State) : Prop :=
  length (_active st) ≤ _concurrency st.

Definition priority_le (h : list Job.Job) (a b : JobRef) : Prop :=
  (priority_of h a ≤ priority_of h b)%Z.

(** A job whose phases all pass. *)
Definition passing : Job.Hooks :=
  {| Job._validate := None; Job._authorize := None;
     Job._execute := Return ""%string;
     Job._stringify := λ _, Return "{}"%string |}.

End Scheduling.

(** ** Accounting for a job *)

Module JobAccounting.

(** The phases among the effects of a call, in the order they were run. *)
Definition is_phase (e : Job.Effect) : bool :=
  match e with
  | Job.RanValidate | Job.RanAuthorize | Job.RanExecute => true
  | _ => false
  end.

Definition phases (l : list Job.Effect) : list Job.Effect :=
  filter (λ e, is_phase e = true) l.

(** How often an entry was handed to [JobStatistics.updateStats]. *)
Definition counted (t : Job.StatisticsType) (l : list Job.Effect) : nat :=
  length (filter (λ e, e = Job.Stats t) l).

(** The durations handed to [JobStatistics.updateStats]. *)
Definition durations (l : list Job.Effect) : list Z :=
  omap (λ e, match e with Job.Stats (Job.DURATION d) => Some d | _ => None end) l.

(** The messages published on the event bus: channel and status. *)
Definition publications (l : list Job.Effect) : list (string * Job.Outcome) :=
  omap (λ e, match e with Job.Published u o => Some (u, o) | _ => None end) l.

(** The entries written to the log book. *)
Definition logged (l : list Job.Effect) : list Job.Outcome :=
  omap (λ e, match e with Job.Logged o => Some o | _ => None end) l.

Definition outcome_of (r : Completion string) : Job.Outcome :=
  match r with Return _ => Job.success | Throw _ => Job.error end.

(** How the phases end: as the first of them that throws, or else as
    [_execute]. *)
Definition first_failure (h : Job.Hooks) : Completion string :=
  match Job._validate h with
  | Some e => Throw e
  | None =>
      match Job._authorize h with
      | Some e => Throw e
      | None => Job._execute h
      end
  end.

(** Whether the log entry of an outcome can be written: whether
    [JSON.stringify] returns on the payload when [log] calls [toJSON]. *)
Definition writes (h : Job.Hooks) (o : Job.Outcome) : bool :=
  match Job._stringify h o with Return _ => true | Throw _ => false end.

(** How a call ends whose phases ended as [r]: as they did, unless the log
    entry cannot be written; then the call throws what [JSON.stringify]
    threw, in the [catch] block if it throws there as well. *)
Definition ends_as (h : Job.Hooks) (r : Completion string)
    : Completion string :=
  match r with
  | Return data =>
      match Job._stringify h Job.success, Job._stringify h Job.error with
      | Return _, _ => Return data
      | Throw e, Return _ => Throw e
      | Throw _, Throw e => Throw e
      end
  | Throw e =>
      match Job._stringify h Job.error with
      | Return _ => Throw e
      | Throw e' => Throw e'
      end
  end.

End JobAccounting.

(** ** The order of startup and shutdown *)

Module StartupOrder.
Import ModuleManager Orchestration.

(** The state [module.startup()] leaves behind in [_startModule]: the call
    is recorded, and the module is [STARTED], or [ERROR] when its routine
    threw. *)
Definition after_startup (name : string) (threw : bool) (st : State) : State :=
  setStatus name (if threw then BaseModule.ERROR else BaseModule.STARTED)
    (record (StartupCalled name) (setStatus name BaseModule.STARTING st)).

(** The states a startup goes through: from the table as it was found, one
    startup routine at a time, each run on a module that was untouched and
    whose dependencies were not. *)
Inductive started_from (ms : Modules) : State → Prop :=
| started_nothing :
    started_from ms {| _modules := ms; actions := [] |}
| started_one st name m threw :
    started_from ms st →
    getModule name (_modules st) = Some m →
    BaseModule.getStatus m = BaseModule.UNINITIALIZED →
    (∀ d, d ∈ BaseModule.getDependentModules m → touched d st) →
    started_from ms (after_startup name threw st).

Definition is_startup (a : Action) : bool :=
  match a with StartupCalled _ => true | _ => false end.

(** A numbering of the modules that falls along every dependency, and a
    table that holds every module it names. *)
Definition ranked (ms : Modules) (rank : string → nat) : Prop :=
  ∀ a b, depends_on ms a b → rank b < rank a ∧ is_Some (getModule b ms).

Definition module_status (name : string) (st : State)
    : option BaseModule.ModuleStatus :=
  BaseModule.getStatus <$> getModule name (_modules st).

(** The second state has the modules of the first, with the dependency
    lists they had, and the touched ones are still touched. *)
Definition extends (st st' : State) : Prop :=
  grows st st'
  ∧ ∀ name,
      BaseModule.getDependentModules <$> getModule name (_modules st')
      = BaseModule.getDependentModules <$> getModule name (_modules st).

(** The modules whose [_startModule] is in progress while [x] is being
    started: each waits for a dependency that is another of them or [x]. *)
Definition waiting_on (S : string → Prop) (x : string) (st : State) : Prop :=
  ∀ s, S s →
    ∃ m d, getModule s (_modules st) = Some m
           ∧ d ∈ BaseModule.getDependentModules m ∧ (S d ∨ d = x).

Definition untouched_all (S : string → Prop) (st : State) : Prop :=
  ∀ s, S s → ¬ touched s st.

(** No module is in a status other than the one it was loaded in or
    [STARTED]. *)
Definition healthy (st : State) : Prop :=
  ∀ name m, getModule name (_modules st) = Some m →
    BaseModule.getStatus m = BaseModule.UNINITIALIZED
    ∨ BaseModule.getStatus m = BaseModule.STARTED.

(** What a call of [_startModule] on [name] does, seen from outside. *)
Definition start_spec (ms : Modules) (name : string) (st : State)
    (r : Result) : Prop :=
  extends st (state_of r)
  ∧ (∀ st', r = Ok st' → touched name st')
  ∧ (started_from ms st → started_from ms (state_of r))
  ∧ (∀ S, waiting_on S name st → untouched_all S st →
          untouched_all S (state_of r))
  ∧ (healthy st → ∀ st', r = Ok st' → healthy st').

Definition startups (st : State) : list Action :=
  filter (λ a, is_startup a = true) (actions st).

(** The names of a list that the table holds: those on which
    [this.getModule(moduleName)?.shutdown()] calls [shutdown]. *)
Definition loaded_names (ms : Modules) (names : list string) : list string :=
  filter (λ n, is_Some (getModule n ms)) names.

(** In a log, every startup call comes after those of the module's
    dependencies. *)
Definition dependencies_first (ms : Modules) (log : list Action) : Prop :=
  ∀ n d j, log !! j = Some (StartupCalled n) → depends_on ms n d →
    ∃ i, i < j ∧ log !! i = Some (StartupCalled d).

(** The modules of a table that [shutdown] takes as running, with the
    dependencies they list. *)
Definition to_stop (ms : Modules) (x : string) : Prop :=
  ∃ n m, (n, m) ∈ ms ∧ is_running m = true
         ∧ (x = n ∨ x ∈ BaseModule.getDependentModules m).

Definition dependencies_listed_once (ms : Modules) : Prop :=
  Forall (λ entry, NoDup (BaseModule.getDependentModules entry.2)) ms.

(** Three modules in a line, loaded in the order of their names. *)
Definition line_abc : Modules :=
  [("a"%string, module BaseModule.UNINITIALIZED ["b"%string]);
   ("b"%string, module BaseModule.UNINITIALIZED ["c"%string]);
   ("c"%string, module BaseModule.UNINITIALIZED [])].

Definition rank_abc (name : string) : nat :=
  if decide (name = "a"%string) then 2
  else if decide (name = "b"%string) then 1 else 0.

End StartupOrder.

(** ** Accounting for the jobs of a queue *)

Module QueueAccounting.
Import JobQueue Scheduling.

(** What the reactions of a promise have called the caller's callback
    with so far. *)
Definition answers (p : Promise) : list (Callback * Completion string) :=
  match p_callback p with
  | Some cb =>
      (λ r, (cb, r)) <$>
        match p_state p with
        | Running | Settled _ => []
        | Resolved c _ => resolved c
        | Answered c rejection | Delivered c rejection =>
            resolved c ++ rejected rejection
        end
  | None => []
  end.

(** The jobs whose completion handler has run. *)
Definition finished (st : State) : list JobRef :=
  p_job <$> filter (λ p, pending p = false) (promises st).

(** An exception of [execute] is the one [.then] passes on. *)
Definition well_answered (p : Promise) : Prop :=
  match p_state p with
  | Resolved (Throw e) rejection | Answered (Throw e) rejection
  | Delivered (Throw e) rejection => rejection = Some e
  | _ => True
  end.

(** What the callback of a promise has been called with. Nothing, before
    the reactions have run. After [.then(callback.resolve)], the result if
    there is one. After [.catch(callback.reject)], the outcome [c] of the
    promise; or the result and then, by [reject], what [resolve] threw. *)
Definition answered_as (p : Promise) : Prop :=
  ∃ cb, p_callback p = Some cb
        ∧ match p_state p with
          | Running | Settled _ => answers p = []
          | Resolved (Return data) _ => answers p = [(cb, Return data)]
          | Resolved (Throw _) _ => answers p = []
          | Answered c _ | Delivered c _ =>
              answers p = [(cb, c)]
              ∨ ∃ data e, c = Return data
                          ∧ answers p = [(cb, Return data); (cb, Throw e)]
          end.

(** The status of the job of a promise: [execute] is suspended in its
    phases, or it has run its [finally] block. *)
Definition expected_status (p : Promise) : Job.JobStatus :=
  match p_state p with
  | Running => Job.ACTIVE
  | _ => Job.COMPLETED
  end.

(** Where the jobs of a queue are: every registered job waits in the queue
    or has been handed to [execute], the active ones are those whose
    [finally] handler has not run, and the callbacks have received what the
    promises have handed them. *)
Record accounted (st : State) : Prop := {
  acc_jobs : _queue st ++ (p_job <$> promises st) ≡ₚ _jobs st;
  acc_active :
    _active st ≡ₚ p_job <$> filter (λ p, pending p = true) (promises st);
  acc_delivered : delivered st ≡ₚ promises st ≫= answers;
  acc_status : ∀ p, p ∈ promises st →
    status_of st (p_job p) = Some (expected_status p);
  acc_rejection : Forall well_answered (promises st)
}.

(** The units a dispatch pass, or a part of one, has taken from the queue,
    in the order it took them. *)
Record took (st st' : State) (taken : list JobRef) : Prop := {
  took_queue : _queue st ≡ₚ taken ++ _queue st';
  took_active : _active st' = _active st ++ taken;
  took_promises : ∃ ps,
    promises st' = promises st ++ ps ∧ p_job <$> ps = taken
    ∧ Forall (λ p, p_state p = Running) ps
}.

Definition is_resume (ev : Event) : bool :=
  match ev with Resume _ => true | _ => false end.

(** A unit of the queue whose module can run jobs. *)
Definition eligible (st : State) (job : JobRef) : Prop :=
  job ∈ _queue st ∧ canRunJobs_of st job = true.

(** The callbacks the queue holds are those of the jobs that wait or whose
    [finally] handler has not run. *)
Definition callbacks_held (st : State) : Prop :=
  ∀ u, is_Some (_callbacks st !! u) ↔
    ∃ job, uuid_of st job = Some u
           ∧ (job ∈ _queue st
              ∨ ∃ p, p ∈ promises st ∧ p_job p = job ∧ pending p = true).

(** Units of equal priority wait in the order they were submitted: job
    references are handed out in that order. *)
Definition fifo (st : State) : Prop :=
  ∀ a b, [a; b] `sublist_of` _queue st →
    priority_of (heap st) a = priority_of (heap st) b → a < b.

(** The order in which waiting units are due: by priority number, and by
    submission among equals. *)
Definition due_before (h : list Job.Job) (a b : JobRef) : Prop :=
  (priority_of h a < priority_of h b)%Z
  ∨ (priority_of h a = priority_of h b ∧ a ≤ b).

(** The places a registered job can be in: it waits in the queue; or the
    queue has handed it to [execute], once, and then it is in the active set
    until the [finally] handler of its promise has run, its status is the
    one its call of [execute] has reached, and its callback has received what
    the promise has handed it. *)
Inductive place (st : State) (job : JobRef) : Prop :=
| waiting :
    job ∈ _queue st → job ∉ _active st →
    status_of st job = Some Job.QUEUED →
    job ∉ (p_job <$> promises st) →
    place st job
| handed p :
    p ∈ promises st → p_job p = job →
    job ∉ _queue st →
    (job ∈ _active st ↔ pending p = true) →
    status_of st job = Some (expected_status p) →
    (∀ a, a ∈ answers p → a ∈ delivered st) →
    place st job.

End QueueAccounting.

(** * Job.ts: the lifecycle of a unit of work *)

Module JobFacts.
Import JobLifecycle.

Lemma new_priority_given module payload o now uuid p :
  Job.priority o = Some p → p ≠ 0%Z →
  Job.getPriority (Job.new module payload (Some o) now uuid) = p.
Proof.
  intros Hp Hnz. unfold Job.getPriority, Job.new. simpl. rewrite Hp.
  unfold truthy_number. destruct (Z.eqb_spec p 0); [contradiction | reflexivity].
Qed.

Lemma new_priority_default module payload now uuid :
  Job.getPriority (Job.new module payload None now uuid) = Job.DEFAULT_PRIORITY.
Proof. reflexivity. Qed.

(** Claim C9 fails at [options.priority = 0]. The constructor tests
    [if (priority)], and zero is falsy: whatever the other options are, a
    provided priority [p] is assigned when [p] is not zero, and a provided
    priority 0, which is a priority like any other and the one before the
    default, is replaced by the default priority 1. *)
Theorem new_priority_zero_is_replaced :
  ∀ module payload lj se so cb now uuid,
    (∀ p,
       Job.getPriority
         (Job.new module payload
            (Some {| Job.priority := Some p; Job.longJob := lj;
                     Job.session := se; Job.socketId := so;
                     Job.callbackRef := cb |}) now uuid)
       = if (p =? 0)%Z then Job.DEFAULT_PRIORITY else p)
    ∧ Job.getPriority
        (Job.new module payload
           (Some {| Job.priority := Some 0%Z; Job.longJob := lj;
                    Job.session := se; Job.socketId := so;
                    Job.callbackRef := cb |}) now uuid) = 1%Z
    ∧ Job.DEFAULT_PRIORITY ≠ 0%Z.
Proof.
  intros module payload lj se so cb now uuid. split; [|split].
  - intros p. unfold Job.getPriority, Job.new, truthy_number. simpl.
    destruct (p =? 0)%Z; reflexivity.
  - reflexivity.
  - discriminate.
Qed.

Lemma body_job h now j :
  (Job.execute_body h now j).1.1
  = Job._setStatus Job.COMPLETED (Job.set_completedAt now j).
Proof.
  unfold Job.execute_body. destruct (Job.try_phases h) as [ran r]. simpl.
  destruct (Job.report h j r). reflexivity.
Qed.

Lemma body_effects h now j :
  (Job.execute_body h now j).2
  = (Job.try_phases h).1
    ++ (Job.report h j (Job.try_phases h).2).1
    ++ [Job.Stats Job.TOTAL]
    ++ match Job._startedAt j with
       | Some t =>
           if truthy_number t then [Job.Stats (Job.DURATION (now - t))] else []
       | None => []
       end.
Proof.
  unfold Job.execute_body. destruct (Job.try_phases h) as [ran r]. simpl.
  destruct (Job.report h j r). reflexivity.
Qed.

Lemma body_result h now j :
  (Job.execute_body h now j).1.2 = (Job.report h j (Job.try_phases h).2).2.
Proof.
  unfold Job.execute_body. destruct (Job.try_phases h) as [ran r]. simpl.
  destruct (Job.report h j r). reflexivity.
Qed.

(** The shapes the report of a call takes: the log entry and the count of
    the outcome are written, or the log entry cannot be written and the
    exception of [toJSON] takes the place of the outcome. *)
Lemma report_cases h j r :
  let published o := Job.publish_if_callbackRef j o in
  match r with
  | Return data =>
      match Job._stringify h Job.success with
      | Return _ =>
          Job.report h j r
          = (published Job.success
               ++ [Job.Logged Job.success] ++ [Job.Stats Job.SUCCESSFUL],
             Return data)
      | Throw e =>
          match Job._stringify h Job.error with
          | Return _ =>
              Job.report h j r
              = (published Job.success ++ []
                   ++ published Job.error
                   ++ [Job.Logged Job.error] ++ [Job.Stats Job.FAILED],
                 Throw e)
          | Throw e' =>
              Job.report h j r
              = (published Job.success ++ [] ++ published Job.error ++ [],
                 Throw e')
          end
      end
  | Throw e =>
      match Job._stringify h Job.error with
      | Return _ =>
          Job.report h j r
          = (published Job.error
               ++ [Job.Logged Job.error] ++ [Job.Stats Job.FAILED],
             Throw e)
      | Throw e' => Job.report h j r = (published Job.error ++ [], Throw e')
      end
  end.
Proof.
  unfold Job.report, Job.catch_block, Job.log, Job.toJSON.
  destruct r as [data|e]; simpl;
    destruct (Job._stringify h Job.success), (Job._stringify h Job.error);
    reflexivity.
Qed.

Lemma publish_shape j o :
  Job.publish_if_callbackRef j o = []
  ∨ Job.publish_if_callbackRef j o = [Job.Published (Job._uuid j) o].
Proof.
  unfold Job.publish_if_callbackRef. destruct (Job.getCallbackRef j) as [r|]; [|auto].
  destruct (truthy_string r); auto.
Qed.

Lemma report_no_phase h j r :
  Forall (λ e, e ≠ Job.RanValidate ∧ e ≠ Job.RanAuthorize ∧ e ≠ Job.RanExecute)
    (Job.report h j r).1.
Proof.
  pose proof (report_cases h j r) as H. cbv zeta in H.
  destruct (publish_shape j Job.success) as [Hs|Hs],
           (publish_shape j Job.error) as [He|He];
    destruct r, (Job._stringify h Job.success), (Job._stringify h Job.error);
    rewrite H, ?Hs, ?He; simpl; repeat constructor; discriminate.
Qed.

Lemma publish_mem x j o :
  x ∈ Job.publish_if_callbackRef j o
  ↔ x = Job.Published (Job.getUuid j) o
    ∧ truthy_opt truthy_string (Job.getCallbackRef j) = true.
Proof.
  unfold Job.publish_if_callbackRef.
  destruct (Job.getCallbackRef j) as [r|]; simpl.
  - destruct (truthy_string r).
    + rewrite list_elem_of_singleton. unfold Job.getUuid. tauto.
    + rewrite elem_of_nil. split; [contradiction | intros [_ ?]; discriminate].
  - rewrite elem_of_nil. split; [contradiction | intros [_ ?]; discriminate].
Qed.

(** An entry of the report is among the effects of the call when the report
    holds it: the phases, the count of the call and the duration are other
    entries. *)
Lemma body_reported x h now j :
  x ≠ Job.RanValidate → x ≠ Job.RanAuthorize → x ≠ Job.RanExecute →
  x ≠ Job.Stats Job.TOTAL → (∀ d, x ≠ Job.Stats (Job.DURATION d)) →
  x ∈ (Job.execute_body h now j).2
  ↔ x ∈ (Job.report h j (Job.try_phases h).2).1.
Proof.
  intros H1 H2 H3 H4 H5. rewrite body_effects, !elem_of_app. split; [|tauto].
  intros [H | [H | [H | H]]]; [exfalso | exact H | exfalso | exfalso].
  - unfold Job.try_phases in H.
    destruct (Job._validate h), (Job._authorize h); simpl in H;
      repeat (apply elem_of_cons in H as [->|H]; [contradiction|]);
      apply elem_of_nil in H; exact H.
  - apply list_elem_of_singleton in H. contradiction.
  - destruct (Job._startedAt j) as [t|]; [destruct (truthy_number t)|];
      try (apply elem_of_nil in H; exact H).
    apply list_elem_of_singleton in H. exact (H5 _ H).
Qed.

Lemma body_counts_total h now j :
  Job.Stats Job.TOTAL ∈ (Job.execute_body h now j).2.
Proof.
  rewrite body_effects, !elem_of_app. right. right. left. apply list_elem_of_here.
Qed.

Lemma executions_body h now j :
  length (filter (λ e, e = Job.RanValidate) (Job.execute_body h now j).2) = 1.
Proof.
  rewrite body_effects, !filter_app, !length_app.
  assert (H0 : filter (λ e, e = Job.RanValidate)
                 (Job.report h j (Job.try_phases h).2).1 = []).
  { pose proof (report_no_phase h j (Job.try_phases h).2) as H.
    induction H as [|x l [Hx _] _ IH]; [reflexivity|].
    rewrite filter_cons_False by exact Hx. exact IH. }
  rewrite H0. unfold Job.try_phases.
  destruct (Job._validate h), (Job._authorize h); simpl;
    destruct (Job._startedAt j) as [t|]; simpl;
    try destruct (truthy_number t); reflexivity.
Qed.

Lemma body_status h now j :
  Job._status (Job.execute_body h now j).1.1 = Job.COMPLETED.
Proof. rewrite body_job. reflexivity. Qed.

Lemma body_startedAt h now j :
  Job._startedAt (Job.execute_body h now j).1.1 = Job._startedAt j.
Proof. rewrite body_job. reflexivity. Qed.

Lemma enter_started canRunJobs now j t :
  Job._startedAt j = Some t → t ≠ 0%Z →
  Job.execute_enter canRunJobs now j = (j, Throw "Job has already been executed.").
Proof.
  intros Hs Ht. unfold Job.execute_enter. rewrite Hs. simpl.
  unfold truthy_number. destruct (Z.eqb_spec t 0); [contradiction | reflexivity].
Qed.

Lemma shape_step l c :
  clock_nonzero c = true → shape l →
  shape (life_step l c)
  ∧ advances (Job._status (job l)) (Job._status (job (life_step l c))).
Proof.
  intros Hc Hl. destruct c as [can now | h now]; simpl in *.
  - apply negb_true_iff, Z.eqb_neq in Hc.
    destruct Hl as [Hst Hsa Hsu Hex | t Hst Hsa Ht Hsu Hex | t Hst Hsa Ht Hsu Hex].
    + unfold Job.execute_enter. rewrite Hsa. simpl. destruct can; simpl.
      * split; [ | right; left; split; [assumption | reflexivity]].
        eapply running with (t := now); simpl; auto.
      * split; [ | left; reflexivity]. apply fresh; simpl; auto.
    + rewrite (enter_started _ _ _ t) by assumption. simpl.
      split; [ | left; reflexivity]. destruct l; eapply running; simpl in *; eauto.
    + rewrite (enter_started _ _ _ t) by assumption. simpl.
      split; [ | left; reflexivity]. destruct l; eapply finished; simpl in *; eauto.
  - destruct Hl as [Hst Hsa Hsu Hex | t Hst Hsa Ht Hsu Hex | t Hst Hsa Ht Hsu Hex].
    + rewrite Hsu. split; [apply fresh; auto | left; reflexivity].
    + rewrite Hsu.
      pose proof (executions_body h now (job l)) as Hb.
      pose proof (body_status h now (job l)) as Hbs.
      pose proof (body_startedAt h now (job l)) as Hba.
      destruct (Job.execute_body h now (job l)) as [[j' r] effs]. simpl in *.
      split; [ | right; right; split; assumption].
      eapply finished with (t := t); simpl; auto; try congruence.
      unfold executions in *. simpl. rewrite filter_app, length_app. lia.
    + rewrite Hsu. split; [eapply finished; eauto | left; reflexivity].
Qed.

Lemma shape_run calls l :
  forallb clock_nonzero calls = true → shape l → shape (life_run calls l).
Proof.
  revert l. induction calls as [|c calls IH]; intros l Hc Hl; simpl in *; [assumption|].
  apply andb_true_iff in Hc as [Hc1 Hc2].
  apply IH; [assumption|]. apply shape_step; assumption.
Qed.

Lemma shape_born module payload options now uuid :
  shape (born (Job.new module payload options now uuid)).
Proof. apply fresh; reflexivity. Qed.


Lemma rank_run calls : ∀ l,
  forallb clock_nonzero calls = true → shape l →
  status_rank (Job._status (job l))
  ≤ status_rank (Job._status (job (life_run calls l))).
Proof.
  induction calls as [|c calls IH]; intros l Hc Hl; [simpl; lia|].
  simpl in Hc. apply andb_true_iff in Hc as [Hc1 Hc2].
  change (life_run (c :: calls) l) with (life_run calls (life_step l c)).
  destruct (shape_step l c Hc1 Hl) as [Hl' Hadv].
  specialize (IH (life_step l c) Hc2 Hl').
  destruct Hadv as [H | [[H1 H2] | [H1 H2]]].
  - rewrite <- H. exact IH.
  - rewrite H1. simpl. lia.
  - rewrite H1. rewrite H2 in IH. simpl in *. lia.
Qed.

(** Claim C6. The status of a job only moves forward, from QUEUED to ACTIVE
    to COMPLETED: whatever calls of [execute] are made on a job object and
    whenever the suspended call resumes, each step leaves the status where it
    is or moves it to the next state; the phases are begun at most once; and
    [execute] on a job that has started throws "Job has already been
    executed." and leaves the job as it is. Clock readings are not zero. *)
Theorem job_status_only_advances :
  ∀ (module payload : string) (options : option Job.JobOptions)
    (created : Z) (uuid : string) (calls more : list Call),
    forallb clock_nonzero (calls ++ more) = true →
    let before :=
      life_run calls (born (Job.new module payload options created uuid)) in
    let after := life_run more before in
    status_rank (Job.getStatus (job before))
      ≤ status_rank (Job.getStatus (job after))
    ∧ (∀ c, more = [c] →
         advances (Job.getStatus (job before)) (Job.getStatus (job after)))
    ∧ executions after ≤ 1
    ∧ (is_Some (Job._startedAt (job before)) →
       ∀ canRunJobs h started finished,
         Job.execute canRunJobs h started finished (job before)
         = (job before, Throw "Job has already been executed.", [])).
Proof.
  intros module payload options created uuid calls more Hc before after.
  rewrite forallb_app in Hc. apply andb_true_iff in Hc as [Hc1 Hc2].
  assert (Hb : shape before).
  { apply shape_run; [exact Hc1 | apply shape_born]. }
  assert (Ha : shape after) by (apply shape_run; assumption).
  split; [apply rank_run; assumption|]. split; [|split].
  - intros c ->. simpl in Hc2. apply andb_true_iff in Hc2 as [Hc2 _].
    apply (shape_step before c Hc2 Hb).
  - destruct Ha as [_ _ _ -> | t _ _ _ _ -> | t _ _ _ _ ->]; lia.
  - intros [t Ht] can h started finished.
    destruct Hb as [_ Hs _ _ | t' _ Hs Hnz _ _ | t' _ Hs Hnz _ _];
      [congruence | |];
      unfold Job.execute; rewrite (enter_started can started _ t' Hs Hnz);
      reflexivity.
Qed.

Lemma job_status_only_advances_witness :
  forallb clock_nonzero
    ([Enter true 5; Leave rejecting 9] ++ [Enter true 12]) = true
  ∧ let before :=
      life_run [Enter true 5; Leave rejecting 9]
        (born (Job.new "data" "{}" None 1 "u0")) in
    let after := life_run [Enter true 12] before in
    status_rank (Job.getStatus (job before))
      ≤ status_rank (Job.getStatus (job after))
    ∧ (∀ c, [Enter true 12] = [c] →
         advances (Job.getStatus (job before)) (Job.getStatus (job after)))
    ∧ executions after ≤ 1
    ∧ (is_Some (Job._startedAt (job before)) →
       ∀ canRunJobs h started finished,
         Job.execute canRunJobs h started finished (job before)
         = (job before, Throw "Job has already been executed.", [])).
Proof.
  split; [reflexivity|].
  apply (job_status_only_advances "data" "{}" None 1 "u0"
           [Enter true 5; Leave rejecting 9] [Enter true 12]).
  reflexivity.
Defined.

(** Claim C7, as stated, fails: a job whose validation throws makes
    [execute] throw that error to its caller. *)
Lemma execute_rethrows_counterexample :
  ¬ never_throws true rejecting 5 9 (Job.new "data" "{}" None 1 "u0").
Proof.
  intros H. apply (H "Payload must be an object"%string). reflexivity.
Qed.

End JobFacts.

(** * ModuleManager.ts: startup and shutdown *)

Module ModuleManagerFacts.
Import ModuleManager Orchestration.

(** Claim C4 fails on a chain of three running modules. [a] needs [b], [b]
    needs [c], and the table lists [b] first: the order computed is [c], [a],
    [b], so [c] is stopped while [b], which depends on it, still runs. *)
Theorem shutdown_order_breaks_on_chain :
  shutdownOrder chain_bac = ["c"; "a"; "b"]%string
  ∧ depends_on chain_bac "b" "c"
  ∧ actions (state_of (shutdown never_throws
               {| _modules := chain_bac; actions := [] |}))
    = [ShutdownCalled "c"; ShutdownCalled "a"; ShutdownCalled "b"].
Proof.
  split; [reflexivity | split; [ | reflexivity]].
  exists (module BaseModule.STARTED ["c"%string]). split; [reflexivity|].
  simpl. apply list_elem_of_here.
Qed.

Lemma getModule_update_eq name f ms :
  getModule name (updateModule name f ms) = f <$> getModule name ms.
Proof.
  induction ms as [|[n m] ms IH]; simpl; [reflexivity|].
  destruct (decide (n = name)) as [->|Hne]; simpl.
  - rewrite decide_True by reflexivity. reflexivity.
  - rewrite decide_False by assumption. apply IH.
Qed.

Lemma getModule_update_ne name name' f ms :
  name ≠ name' →
  getModule name' (updateModule name f ms) = getModule name' ms.
Proof.
  intros Hne. induction ms as [|[n m] ms IH]; simpl; [reflexivity|].
  destruct (decide (n = name)) as [->|Hn]; simpl.
  - rewrite !decide_False by assumption. reflexivity.
  - destruct (decide (n = name')); [reflexivity | apply IH].
Qed.

Lemma getModule_In name m ms :
  getModule name ms = Some m → (name, m) ∈ ms.
Proof.
  induction ms as [|[n m'] ms IH]; simpl; [discriminate|].
  destruct (decide (n = name)) as [->|Hn]; intros H.
  - injection H as ->. apply list_elem_of_here.
  - apply list_elem_of_further, IH, H.
Qed.

Lemma getModule_is_Some name ms :
  name ∈ map fst ms → is_Some (getModule name ms).
Proof.
  induction ms as [|[n m'] ms IH]; simpl; intros H.
  - apply elem_of_nil in H. contradiction.
  - destruct (decide (n = name)); [eauto|].
    apply elem_of_cons in H as [->|H]; [contradiction | auto].
Qed.

Section Startup.

Variable startup_throws shutdown_throws : string → option Error.
Variable loaded : Modules.

Lemma grows_refl st : grows st st.
Proof. intros n H. exact H. Qed.

Lemma grows_trans st1 st2 st3 : grows st1 st2 → grows st2 st3 → grows st1 st3.
Proof. intros H1 H2 n H. apply H2, H1, H. Qed.

Lemma touched_setStatus name name' s st :
  touched name' (setStatus name s st) ↔
  (name' = name ∧ is_Some (getModule name (_modules st))
   ∧ s ≠ BaseModule.UNINITIALIZED)
  ∨ (name' ≠ name ∧ touched name' st).
Proof.
  unfold touched, setStatus. simpl. destruct (decide (name = name')) as [<-|Hne].
  - rewrite getModule_update_eq. split.
    + intros (m & Hm & Hs). left.
      destruct (getModule name (_modules st)) as [m0|]; [|discriminate].
      injection Hm as <-. simpl in Hs. eauto.
    + intros [(_ & [m0 Hm0] & Hs) | [Hne _]]; [|contradiction].
      rewrite Hm0. simpl. eexists. split; [reflexivity | exact Hs].
  - rewrite getModule_update_ne by assumption. split.
    + intros H. right. split; [congruence | exact H].
    + intros [(-> & _) | [_ H]]; [contradiction | exact H].
Qed.

Lemma dependencies_setStatus name name' s st :
  BaseModule.getDependentModules <$> getModule name' (_modules (setStatus name s st))
  = BaseModule.getDependentModules <$> getModule name' (_modules st).
Proof.
  unfold setStatus. simpl. destruct (decide (name = name')) as [<-|Hne].
  - rewrite getModule_update_eq. destruct (getModule name (_modules st)); reflexivity.
  - rewrite getModule_update_ne by assumption. reflexivity.
Qed.












End Startup.







Lemma self_dependency_never_returns (a : string) (st : State) :
  getModule a (_modules st) = Some (module BaseModule.UNINITIALIZED [a]) →
  ∀ fuel, _startModule never_throws fuel a st = OutOfFuel st.
Proof.
  intros Ha. induction fuel as [|fuel IH]; [reflexivity|].
  simpl. rewrite Ha. simpl. rewrite Ha, IH. reflexivity.
Qed.

(** A module that needs itself does make [startup] fail before any
    startup routine has run. *)
Example self_dependency_fails_fast :
  fails_fast never_throws never_throws loop_a.
Proof.
  intros fuel. unfold startup.
  change (map fst loop_a) with ["a"%string]. cbn [start_all].
  rewrite (self_dependency_never_returns "a"
             {| _modules := loop_a; actions := [] |} eq_refl (S fuel)).
  eexists _, _. split; [reflexivity|].
  intros name H. unfold startup_called in H. simpl in H.
  apply elem_of_nil in H. contradiction.
Qed.

End ModuleManagerFacts.

(** * JobQueue.ts: the scheduler *)

Module JobQueueFacts.
Import JobQueue Scheduling.

(** Claim C2 fails when two eligible units are adjacent in the queue. The
    loop walks [this._queue] itself and removes the unit it dispatches, so the
    next unit moves into the index just visited and is passed over: after
    the pass the second unit is still queued, although its module can run
    jobs, the queue is neither paused nor locked, and one unit is active out
    of fifty allowed. *)
Theorem dispatch_pass_skips_next_unit :
  let st := run [submit "u0" None; submit "u1" None; Resume 9]
              (new (data_module BaseModule.STARTED)) in
  _queue st = [1] ∧ _active st = [0]
  ∧ canRunJobs_of st 1 = true
  ∧ length (_active st) < _concurrency st
  ∧ _isPaused st = false ∧ _processLock st = false.
Proof. vm_compute. repeat split; lia. Qed.

(** Claim C3 fails on three eligible units. With equal priorities the third
    unit is dispatched in the pass and the second, submitted before it, is
    not. With priorities 1, 1, 2 the unit of priority 2 is dispatched while
    the second unit of priority 1 is left in the queue. The sort itself is
    stable and by priority: [sort_sorted], [sort_stable]. *)
Theorem dispatch_pass_overtakes_earlier_unit :
  let same := run [submit "u0" None; submit "u1" None; submit "u2" None;
                   Resume 9] (new (data_module BaseModule.STARTED)) in
  let lower := run [submit "u0" None; submit "u1" None;
                    submit "u2" (Some (with_priority 2)); Resume 9]
                 (new (data_module BaseModule.STARTED)) in
  (_queue same = [1] ∧ _active same = [0; 2]
   ∧ priority_of (heap same) 1 = priority_of (heap same) 2)
  ∧ (_queue lower = [1] ∧ _active lower = [0; 2]
     ∧ (priority_of (heap lower) 1 < priority_of (heap lower) 2)%Z
     ∧ canRunJobs_of lower 1 = true).
Proof. vm_compute. repeat split; reflexivity. Qed.

(** *** The concurrency bound *)

Lemma call_execute_fields job cb now st :
  let st' := call_execute job cb now st in
  _concurrency st' = _concurrency st ∧ _active st' = _active st
  ∧ _queue st' = _queue st ∧ _jobs st' = _jobs st
  ∧ _callbacks st' = _callbacks st ∧ modules st' = modules st
  ∧ delivered st' = delivered st ∧ _isPaused st' = _isPaused st
  ∧ _processLock st' = _processLock st.
Proof.
  unfold call_execute. destruct (heap st !! job); [|repeat split].
  destruct (Job.execute_enter _ _ _). repeat split.
Qed.

Lemma process_loop_concurrency fuel now : ∀ i st,
  _concurrency (process_loop fuel now i st).1 = _concurrency st.
Proof.
  induction fuel as [|fuel IH]; intros i st; simpl; [reflexivity|].
  destruct (_queue st !! i) as [job|]; [|reflexivity].
  destruct (canRunJobs_of st job); simpl; [|apply IH].
  match goal with |- context [call_execute ?j ?c ?n ?s] =>
    pose proof (call_execute_fields j c n s) as (Hc & Ha & _);
    set (st3 := call_execute j c n s) in * end.
  destruct (uuid_of _ job ≫= _); [|exact Hc].
  destruct (_concurrency st3 <=? length (_active st3)); [exact Hc|].
  rewrite IH. exact Hc.
Qed.

Lemma process_loop_bounded fuel now : ∀ i st,
  length (_active st) < _concurrency st →
  length (_active (process_loop fuel now i st).1) ≤ _concurrency st.
Proof.
  induction fuel as [|fuel IH]; intros i st Hlt; simpl; [lia|].
  destruct (_queue st !! i) as [job|]; [|simpl; lia].
  destruct (canRunJobs_of st job); simpl; [|apply IH, Hlt].
  match goal with |- context [call_execute ?j ?c ?n ?s] =>
    pose proof (call_execute_fields j c n s) as (Hc & Ha & _);
    set (st3 := call_execute j c n s) in * end.
  simpl in Hc, Ha.
  assert (Hlen : length (_active st3) = S (length (_active st))).
  { rewrite Ha, length_app. simpl. lia. }
  destruct (uuid_of _ job ≫= _); [|simpl; lia].
  destruct (Nat.leb_spec (_concurrency st3) (length (_active st3))); [simpl; lia|].
  rewrite <- Hc. apply IH. lia.
Qed.

Lemma _process_concurrency now st :
  _concurrency (_process now st) = _concurrency st.
Proof.
  unfold _process. destruct (_processLock st); [reflexivity|].
  destruct (_ || _); [reflexivity|].
  match goal with |- context [process_loop ?f ?n ?i ?s] =>
    pose proof (process_loop_concurrency f n i s) as H;
    destruct (process_loop f n i s) as [st3 threw] end.
  simpl in H. destruct threw; exact H.
Qed.

Lemma _process_bounded now st :
  length (_active st) ≤ _concurrency st →
  length (_active (_process now st)) ≤ _concurrency st.
Proof.
  intros Hle. unfold _process. destruct (_processLock st); [exact Hle|].
  destruct (_isPaused st); [exact Hle|]. simpl.
  destruct (Nat.leb_spec (_concurrency st) (length (_active st))); [exact Hle|].
  simpl. destruct (length (_queue st) =? 0); [exact Hle|].
  match goal with |- context [process_loop ?f ?n ?i ?s] =>
    pose proof (process_loop_bounded f n i s) as Hb;
    destruct (process_loop f n i s) as [st3 threw] end.
  simpl in Hb. destruct threw; simpl; apply Hb; lia.
Qed.

Lemma length_delete_le {A} (l : list A) i : length (delete i l) ≤ length l.
Proof.
  revert i. induction l as [|x l IH]; intros [|i]; simpl; try lia.
  specialize (IH i). lia.
Qed.

Lemma settle_fields job h now st :
  let st' := settle job h now st in
  _concurrency st' = _concurrency st ∧ _active st' = _active st
  ∧ _queue st' = _queue st ∧ _jobs st' = _jobs st
  ∧ _callbacks st' = _callbacks st ∧ modules st' = modules st
  ∧ delivered st' = delivered st ∧ _isPaused st' = _isPaused st
  ∧ _processLock st' = _processLock st.
Proof.
  unfold settle. destruct (list_find _ _) as [[k p]|]; [|repeat split].
  destruct (heap st !! job); [|repeat split].
  destruct (Job.execute_body _ _ _) as [[j' c] effs]. repeat split.
Qed.

Lemma react_fields job st st' :
  react job st = Some st' →
  _concurrency st' = _concurrency st ∧ _queue st' = _queue st
  ∧ _jobs st' = _jobs st ∧ heap st' = heap st ∧ modules st' = modules st
  ∧ _isPaused st' = _isPaused st ∧ _processLock st' = _processLock st
  ∧ length (_active st') ≤ length (_active st).
Proof.
  unfold react.
  destruct (list_find _ _) as [[k [pj [cb|] [|c|c a|c a|c a]]]|]; try discriminate.
  intros [= <-].
  destruct (uuid_of _ job); simpl;
    match goal with |- context [indexOf job ?l] =>
      destruct (indexOf job l) as [i|] end; simpl;
    repeat split; try lia; apply length_delete_le.
Qed.

Lemma then_resolve_fields job t st :
  let st' := then_resolve job t st in
  _concurrency st' = _concurrency st ∧ _active st' = _active st
  ∧ _queue st' = _queue st ∧ _jobs st' = _jobs st
  ∧ _callbacks st' = _callbacks st ∧ modules st' = modules st
  ∧ heap st' = heap st ∧ _isPaused st' = _isPaused st
  ∧ _processLock st' = _processLock st.
Proof.
  unfold then_resolve.
  destruct (list_find _ _) as [[k [pj [cb|] [|c|c a|c a|c a]]]|]; repeat split.
Qed.

Lemma catch_reject_fields job st :
  let st' := catch_reject job st in
  _concurrency st' = _concurrency st ∧ _active st' = _active st
  ∧ _queue st' = _queue st ∧ _jobs st' = _jobs st
  ∧ _callbacks st' = _callbacks st ∧ modules st' = modules st
  ∧ heap st' = heap st ∧ _isPaused st' = _isPaused st
  ∧ _processLock st' = _processLock st.
Proof.
  unfold catch_reject.
  destruct (list_find _ _) as [[k [pj [cb|] [|c|c a|c a|c a]]]|]; repeat split.
Qed.

Lemma enqueue_fields moduleName jobName payload callback options now uuid st st' :
  enqueue moduleName jobName payload callback options now uuid st = Return st' →
  _concurrency st' = _concurrency st ∧ _active st' = _active st
  ∧ _queue st' = _queue st ++ [length (heap st)]
  ∧ _jobs st' = _jobs st ++ [length (heap st)]
  ∧ heap st' = heap st ++ [Job.new moduleName payload options now uuid]
  ∧ _callbacks st' = <[uuid := callback]> (_callbacks st)
  ∧ modules st' = modules st ∧ promises st' = promises st
  ∧ delivered st' = delivered st
  ∧ _isPaused st' = _isPaused st ∧ _processLock st' = _processLock st.
Proof.
  unfold enqueue. destruct (ModuleManager.getModule _ _); [|discriminate].
  destruct (BaseModule.getJob _ _); [|discriminate].
  intros [= <-]. repeat split.
Qed.

Lemma pass_of_step st ev now pre :
  pass_of st ev = Some (now, pre) → step st ev = _process now pre.
Proof.
  destruct ev; simpl; try discriminate.
  - unfold queueJob. destruct (enqueue _ _ _ _ _ _ _ _); [|discriminate].
    intros [= <- <-]. reflexivity.
  - intros [= <- <-]. reflexivity.
  - unfold finish. destruct (react job st); [|discriminate].
    intros [= <- <-]. reflexivity.
Qed.

Lemma pass_of_bounded st ev now pre :
  pass_of st ev = Some (now, pre) →
  _concurrency pre = _concurrency st
  ∧ length (_active pre) ≤ length (_active st).
Proof.
  destruct ev; simpl; try discriminate.
  - destruct (enqueue _ _ _ _ _ _ _ _) as [st'|] eqn:He; [|discriminate].
    intros [= <- <-]. apply enqueue_fields in He as (-> & -> & _). auto.
  - intros [= <- <-]. auto.
  - destruct (react job st) as [st'|] eqn:Hr; [|discriminate].
    intros [= <- <-]. apply react_fields in Hr. intuition.
Qed.

Lemma no_pass_step st ev :
  pass_of st ev = None →
  _concurrency (step st ev) = _concurrency st
  ∧ _active (step st ev) = _active st.
Proof.
  destruct ev; simpl; try discriminate; auto.
  - unfold queueJob. destruct (enqueue _ _ _ _ _ _ _ _); [discriminate|]. auto.
  - intros _. destruct (settle_fields job h now st) as (-> & -> & _). auto.
  - unfold finish. destruct (react job st); [discriminate|]. auto.
  - intros _. destruct (then_resolve_fields job resolve_throws st) as (-> & -> & _). auto.
  - intros _. destruct (catch_reject_fields job st) as (-> & -> & _). auto.
Qed.

Lemma step_bounded st ev :
  bounded st →
  bounded (step st ev) ∧ _concurrency (step st ev) = _concurrency st.
Proof.
  unfold bounded. intros Hb.
  destruct (pass_of st ev) as [[now pre]|] eqn:Hp.
  - rewrite (pass_of_step _ _ _ _ Hp), _process_concurrency.
    apply pass_of_bounded in Hp as [Hc Ha]. rewrite Hc. split; [|reflexivity].
    rewrite <- Hc. apply _process_bounded. lia.
  - apply no_pass_step in Hp as [-> ->]. auto.
Qed.

Lemma run_bounded evs : ∀ st,
  bounded st →
  bounded (run evs st) ∧ _concurrency (run evs st) = _concurrency st.
Proof.
  induction evs as [|ev evs IH]; intros st Hb; simpl; [auto|].
  destruct (step_bounded st ev Hb) as [Hb' Hc'].
  destruct (IH (step st ev) Hb') as [H1 H2].
  split; [exact H1|]. rewrite H2. exact Hc'.
Qed.

(** Claim C1. Whatever is submitted, settled, finished, paused or resumed,
    and whatever the modules' statuses become, the concurrency bound is 50
    and the active set never holds more units than the bound. Each dispatch
    pass and each completion handler keeps the bound: [_process_bounded],
    [step_bounded]; so does every round of the loop: [process_loop_bounded]. *)
Theorem active_never_exceeds_concurrency :
  ∀ (ms : ModuleManager.Modules) (evs : list Event),
    let st := run evs (new ms) in
    _concurrency st = 50 ∧ length (_active st) ≤ _concurrency st.
Proof.
  intros ms evs st.
  destruct (run_bounded evs (new ms)) as [Hb Hc].
  - unfold bounded. simpl. lia.
  - split; [exact Hc | exact Hb].
Qed.


(** *** The sort of the queue *)

Lemma sort_insert_perm {A} (compare : A → A → Z) x l :
  sort_insert compare x l ≡ₚ x :: l.
Proof.
  induction l as [|y l IH]; simpl; [reflexivity|].
  destruct (compare x y <=? 0)%Z; [reflexivity|].
  rewrite IH. apply Permutation_swap.
Qed.

Lemma sort_perm {A} (compare : A → A → Z) l : sort compare l ≡ₚ l.
Proof.
  induction l as [|x l IH]; simpl; [reflexivity|].
  rewrite sort_insert_perm, IH. reflexivity.
Qed.

Lemma sort_insert_sorted h x l :
  StronglySorted (priority_le h) l →
  StronglySorted (priority_le h) (sort_insert (by_priority h) x l).
Proof.
  induction 1 as [|y l Hs IH Hall]; simpl; [repeat constructor|].
  unfold by_priority at 1.
  destruct (Z.leb_spec (priority_of h x - priority_of h y) 0) as [Hle|Hgt].
  - constructor; [constructor; assumption|].
    constructor; [unfold priority_le; lia|].
    eapply Forall_impl; [exact Hall|]. unfold priority_le. intros z Hz. lia.
  - constructor; [exact IH|].
    rewrite sort_insert_perm. constructor; [unfold priority_le; lia | exact Hall].
Qed.

Lemma sort_sorted h l :
  StronglySorted (priority_le h) (sort (by_priority h) l).
Proof.
  induction l as [|x l IH]; simpl; [constructor | apply sort_insert_sorted, IH].
Qed.

Lemma sort_insert_stable h p x l :
  filter (λ r, priority_of h r = p) (sort_insert (by_priority h) x l)
  = filter (λ r, priority_of h r = p) (x :: l).
Proof.
  induction l as [|y l IH]; simpl; [reflexivity|].
  unfold by_priority at 1.
  destruct (Z.leb_spec (priority_of h x - priority_of h y) 0) as [Hle|Hgt];
    [reflexivity|].
  rewrite !filter_cons, IH, !filter_cons.
  destruct (decide (priority_of h y = p)), (decide (priority_of h x = p));
    try reflexivity; lia.
Qed.

Lemma sort_stable h p l :
  filter (λ r, priority_of h r = p) (sort (by_priority h) l)
  = filter (λ r, priority_of h r = p) l.
Proof.
  induction l as [|x l IH]; simpl; [reflexivity|].
  rewrite sort_insert_stable, !filter_cons, IH. reflexivity.
Qed.

(** *** What the fields of a queue have to do with one another *)

Lemma indexOf_split {A} `{EqDecision A} (x : A) (l : list A) :
  x ∈ l →
  ∃ l1 l2, l = l1 ++ (x :: l2) ∧ (x ∉ l1) ∧ indexOf x l = Some (length l1).
Proof.
  unfold indexOf. induction l as [|y l IH]; intros Hin.
  - apply elem_of_nil in Hin. contradiction.
  - simpl. destruct (decide (y = x)) as [->|Hne].
    + exists [], l. split; [reflexivity|]. split; [apply not_elem_of_nil | reflexivity].
    + apply elem_of_cons in Hin as [->|Hin]; [contradiction|].
      destruct (IH Hin) as (l1 & l2 & -> & Hni & Hfind).
      exists (y :: l1), l2. split; [reflexivity|]. split.
      * intros H'. apply elem_of_cons in H' as [->|H']; contradiction.
      * destruct (list_find _ _) as [[i z]|]; [|discriminate].
        simpl in *. congruence.
Qed.

Lemma delete_middle {A} (l1 l2 : list A) x :
  delete (length l1) (l1 ++ x :: l2) = l1 ++ l2.
Proof. induction l1 as [|y l1 IH]; simpl; [reflexivity | rewrite IH; reflexivity]. Qed.

Lemma splice_indexOf {A} `{EqDecision A} (x : A) (l : list A) :
  x ∈ l →
  ∃ l1 l2, l = l1 ++ (x :: l2) ∧ (x ∉ l1)
           ∧ splice1 (indexOf x l) l = l1 ++ l2.
Proof.
  intros Hin. destruct (indexOf_split x l Hin) as (l1 & l2 & -> & Hni & ->).
  exists l1, l2. split; [reflexivity|]. split; [exact Hni|].
  simpl. apply delete_middle.
Qed.

Lemma indexOf_None {A} `{EqDecision A} (x : A) (l : list A) :
  indexOf x l = None → x ∉ l.
Proof.
  intros H Hin. destruct (indexOf_split x l Hin) as (? & ? & _ & _ & H').
  congruence.
Qed.

Lemma uuids_insert (h : list Job.Job) k j j' :
  h !! k = Some j → Job.getUuid j' = Job.getUuid j →
  Job.getUuid <$> <[k := j']> h = Job.getUuid <$> h.
Proof.
  intros Hk Hu. rewrite list_fmap_insert, Hu. apply list_insert_id.
  rewrite list_lookup_fmap, Hk. reflexivity.
Qed.

Lemma lookup_insert_is_Some {A} (l : list A) k i x :
  is_Some (l !! i) → is_Some (<[k := x]> l !! i).
Proof.
  rewrite !lookup_lt_is_Some, length_insert. auto.
Qed.

Lemma enter_untouched now j :
  untouched j →
  Job.execute_enter true now j
  = (Job.set_startedAt now (Job._setStatus Job.ACTIVE j), Return ()).
Proof. intros [_ Hs]. unfold Job.execute_enter. rewrite Hs. reflexivity. Qed.

(** What [dispatch] does to a consistent queue. *)
Lemma dispatch_waiting job now st :
  consistent st → job ∈ _queue st → canRunJobs_of st job = true →
  ∃ st' cb j l1 l2,
    dispatch job now st = (st', Some cb)
    ∧ consistent st'
    ∧ _queue st = l1 ++ job :: l2 ∧ _queue st' = l1 ++ l2
    ∧ _active st' = _active st ++ [job]
    ∧ heap st !! job = Some j ∧ untouched j
    ∧ heap st' = <[job := Job.set_startedAt now (Job._setStatus Job.ACTIVE j)]> (heap st)
    ∧ _callbacks st !! Job.getUuid j = Some cb
    ∧ promises st' = promises st
        ++ [{| p_job := job; p_callback := Some cb; p_state := Running |}]
    ∧ _callbacks st' = _callbacks st ∧ delivered st' = delivered st
    ∧ modules st' = modules st ∧ _jobs st' = _jobs st
    ∧ _concurrency st' = _concurrency st ∧ _isPaused st' = _isPaused st
    ∧ _processLock st' = _processLock st.
Proof.
  intros Hc Hin Hcan.
  destruct (queue_waiting _ Hc job Hin) as [(j & Hj & Hun & [cb Hcb]) Hnp].
  destruct (splice_indexOf job (_queue st) Hin) as (l1 & l2 & Hq & Hni & Hsp).
  pose proof (queue_nodup _ Hc) as Hnd. rewrite Hq in Hnd.
  apply NoDup_app in Hnd as (Hnd1 & Hnd12 & Hnd2).
  apply NoDup_cons in Hnd2 as [Hni2 Hnd2].
  assert (Hnd' : NoDup (l1 ++ l2)).
  { apply NoDup_app. split; [exact Hnd1|]. split; [|exact Hnd2].
    intros x Hx Hx2. apply (Hnd12 x Hx). apply list_elem_of_further, Hx2. }
  assert (Hsub : ∀ r, r ∈ l1 ++ l2 → r ∈ _queue st ∧ r ≠ job).
  { intros r Hr. rewrite Hq. apply elem_of_app in Hr as [Hr|Hr].
    - split; [apply elem_of_app; left; exact Hr | congruence].
    - split; [apply elem_of_app; right; apply list_elem_of_further, Hr | congruence]. }
  unfold dispatch. rewrite Hsp.
  set (st2 := set_active _ (set_queue (l1 ++ l2) st)).
  assert (Hu : (uuid_of st2 job ≫= λ u, _callbacks st2 !! u) = Some cb).
  { unfold uuid_of. simpl. rewrite Hj. exact Hcb. }
  assert (Hcan' : canRunJobs_of st2 job = true) by exact Hcan.
  rewrite Hu. unfold call_execute.
  change (heap st2) with (heap st). rewrite Hj, Hcan', (enter_untouched now j Hun).
  eexists _, cb, j, l1, l2. split; [reflexivity|].
  split; [|repeat split; try assumption; apply Hun].
  split; simpl.
  - rewrite length_insert. apply (jobs_are_heap _ Hc).
  - unfold uuids. simpl. erewrite uuids_insert; [apply (uuids_unique _ Hc) | exact Hj | reflexivity].
  - exact Hnd'.
  - intros r Hr. destruct (Hsub r Hr) as [Hrq Hrj].
    destruct (queue_waiting _ Hc r Hrq) as [(jr & Hjr & Hunr & Hcbr) Hnpr].
    split.
    + exists jr. rewrite list_lookup_insert_ne by congruence. auto.
    + rewrite fmap_app. simpl. intros H'. apply elem_of_app in H' as [H'|H'];
        [contradiction|]. apply list_elem_of_singleton in H'. contradiction.
  - rewrite fmap_app. simpl. apply NoDup_app. split; [apply (promises_nodup _ Hc)|].
    split; [|apply NoDup_singleton].
    intros x Hx Hx'. apply list_elem_of_singleton in Hx'. subst x. contradiction.
  - intros p Hp. apply elem_of_app in Hp as [Hp|Hp].
    + destruct (promises_valid _ Hc p Hp) as [H1 H2].
      split; [apply lookup_insert_is_Some, H1 | exact H2].
    + apply list_elem_of_singleton in Hp. subst p. simpl.
      split; [apply lookup_insert_is_Some; eauto | eauto].
  - apply NoDup_app. split; [apply (active_nodup _ Hc)|].
    split; [|apply NoDup_singleton].
    intros x Hx Hx'. apply list_elem_of_singleton in Hx'. subst x.
    destruct (active_pending _ Hc job Hx) as (p & Hp & Hpj & _).
    apply Hnp. apply list_elem_of_fmap. exists p. auto.
  - intros r Hr. apply elem_of_app in Hr as [Hr|Hr].
    + destruct (active_pending _ Hc r Hr) as (p & Hp & Hpj & Hpp).
      exists p. split; [apply elem_of_app; left; exact Hp | auto].
    + apply list_elem_of_singleton in Hr. subst r.
      eexists. split; [apply elem_of_app; right; apply list_elem_of_here|].
      split; reflexivity.
Qed.


Lemma pass_refl st : pass st st.
Proof.
  split; try reflexivity.
  - exists []. rewrite app_nil_r. reflexivity.
  - exists []. rewrite app_nil_r. reflexivity.
  - intros job H1 H2. contradiction.
  - intros job H1 H2. contradiction.
Qed.

Lemma canRunJobs_of_same st st' job :
  heap st' !! job = heap st !! job → modules st' = modules st →
  canRunJobs_of st' job = canRunJobs_of st job.
Proof. intros Hh Hm. unfold canRunJobs_of. rewrite Hh, Hm. reflexivity. Qed.

Lemma dispatched_pass st st' job :
  pass st st' → job ∉ _queue st → dispatched st job → dispatched st' job.
Proof.
  intros Hp Hnq (Ha & Hs & cb & Hpr).
  destruct (pass_active _ _ Hp) as [l Hl].
  destruct (pass_promises _ _ Hp) as [ps Hps].
  split; [rewrite Hl; apply elem_of_app; left; exact Ha|].
  split.
  - unfold status_of. rewrite (pass_heap _ _ Hp) by (left; exact Hnq). exact Hs.
  - exists cb. rewrite Hps. apply elem_of_app. left. exact Hpr.
Qed.

Lemma pass_trans st1 st2 st3 : pass st1 st2 → pass st2 st3 → pass st1 st3.
Proof.
  intros H12 H23. split.
  - etransitivity; [apply (pass_queue _ _ H23) | apply (pass_queue _ _ H12)].
  - destruct (pass_active _ _ H12) as [l Hl].
    destruct (pass_active _ _ H23) as [l' Hl'].
    exists (l ++ l'). rewrite Hl', Hl, app_assoc. reflexivity.
  - destruct (pass_promises _ _ H12) as [l Hl].
    destruct (pass_promises _ _ H23) as [l' Hl'].
    exists (l ++ l'). rewrite Hl', Hl, app_assoc. reflexivity.
  - intros job Hjob.
    assert (H2 : job ∉ _queue st2 ∨ job ∈ _queue st3).
    { destruct Hjob as [Hn|Hin]; [left|right; exact Hin].
      intros Hin. apply Hn.
      eapply elem_of_submseteq; [exact Hin | apply (pass_queue _ _ H12)]. }
    rewrite (pass_heap _ _ H23) by exact H2.
    apply (pass_heap _ _ H12).
    destruct Hjob as [Hn|Hin]; [left; exact Hn|right].
    eapply elem_of_submseteq; [exact Hin | apply (pass_queue _ _ H23)].
  - intros job Hin Hnin.
    destruct (decide (job ∈ _queue st2)) as [Hin2|Hnin2].
    + apply (pass_dispatched _ _ H23); assumption.
    + eapply dispatched_pass; [exact H23 | exact Hnin2|].
      apply (pass_dispatched _ _ H12); assumption.
  - rewrite (pass_callbacks _ _ H23). apply (pass_callbacks _ _ H12).
  - rewrite (pass_delivered _ _ H23). apply (pass_delivered _ _ H12).
  - rewrite (pass_modules _ _ H23). apply (pass_modules _ _ H12).
  - rewrite (pass_jobs _ _ H23). apply (pass_jobs _ _ H12).
  - rewrite (pass_concurrency _ _ H23). apply (pass_concurrency _ _ H12).
  - rewrite (pass_isPaused _ _ H23). apply (pass_isPaused _ _ H12).
  - rewrite (pass_uuids _ _ H23). apply (pass_uuids _ _ H12).
  - intros job Hin Hnin.
    destruct (decide (job ∈ _queue st2)) as [Hin2|Hnin2].
    + rewrite <- (canRunJobs_of_same st1 st2 job).
      * apply (pass_eligible _ _ H23); assumption.
      * apply (pass_heap _ _ H12). right. exact Hin2.
      * apply (pass_modules _ _ H12).
    + apply (pass_eligible _ _ H12); assumption.
  - rewrite (pass_count _ _ H23). apply (pass_count _ _ H12).
Qed.

Lemma dispatch_pass job now st :
  consistent st → job ∈ _queue st → canRunJobs_of st job = true →
  ∃ st' cb,
    dispatch job now st = (st', Some cb)
    ∧ consistent st' ∧ pass st st'
    ∧ S (length (_queue st')) = length (_queue st)
    ∧ _processLock st' = _processLock st.
Proof.
  intros Hc Hin Hcan.
  destruct (dispatch_waiting job now st Hc Hin Hcan)
    as (st' & cb & j & l1 & l2 & Hd & Hc' & Hq & Hq' & Ha & Hj & Hun & Hh & Hcb
        & Hps & Hcbs & Hdel & Hms & Hjs & Hcc & Hpa & Hlk).
  exists st', cb. split; [exact Hd|]. split; [exact Hc'|].
  assert (Hnd : NoDup (l1 ++ job :: l2)) by (rewrite <- Hq; apply (queue_nodup _ Hc)).
  assert (Hnj : job ∉ l1 ++ l2).
  { apply NoDup_app in Hnd as (_ & H1 & H2). apply NoDup_cons in H2 as [H2 _].
    intros H'. apply elem_of_app in H' as [H'|H']; [|contradiction].
    apply (H1 job H'). apply list_elem_of_here. }
  split; [|split; [rewrite Hq, Hq', !length_app; simpl; lia | exact Hlk]].
  split; try assumption.
  - rewrite Hq, Hq'. apply submseteq_app; [reflexivity|]. apply submseteq_cons. reflexivity.
  - exists [job]. exact Ha.
  - eexists. exact Hps.
  - intros r Hr. rewrite Hh. apply list_lookup_insert_ne.
    intros <-. destruct Hr as [Hr|Hr]; [contradiction|].
    rewrite Hq' in Hr. contradiction.
  - intros r Hr Hr'. rewrite Hq in Hr. rewrite Hq' in Hr'.
    assert (r = job) as ->.
    { apply elem_of_app in Hr as [Hr|Hr].
      - exfalso. apply Hr'. apply elem_of_app. left. exact Hr.
      - apply elem_of_cons in Hr as [->|Hr]; [reflexivity|].
        exfalso. apply Hr'. apply elem_of_app. right. exact Hr. }
    split; [rewrite Ha; apply elem_of_app; right; apply list_elem_of_here|].
    split.
    + unfold status_of. rewrite Hh, list_lookup_insert_eq; [reflexivity|].
      apply lookup_lt_Some in Hj. exact Hj.
    + exists cb. rewrite Hps. apply elem_of_app. right. apply list_elem_of_here.
  - unfold uuids. rewrite Hh. eapply uuids_insert; [exact Hj | reflexivity].
  - intros r Hr Hr'. rewrite Hq in Hr. rewrite Hq' in Hr'.
    assert (r = job) as ->; [|exact Hcan].
    apply elem_of_app in Hr as [Hr|Hr].
    + exfalso. apply Hr'. apply elem_of_app. left. exact Hr.
    + apply elem_of_cons in Hr as [->|Hr]; [reflexivity|].
      exfalso. apply Hr'. apply elem_of_app. right. exact Hr.
  - rewrite Ha, Hq, Hq', !length_app. simpl. lia.
Qed.

Lemma process_loop_round fuel now i st :
  process_loop (S fuel) now i st =
  match _queue st !! i with
  | None => (st, false)
  | Some job =>
      if negb (canRunJobs_of st job) then process_loop fuel now (S i) st
      else
        match dispatch job now st with
        | (st', None) => (st', true)
        | (st', Some _) =>
            if _concurrency st' <=? length (_active st') then (st', false)
            else process_loop fuel now (S i) st'
        end
  end.
Proof. reflexivity. Qed.

Lemma length_splice1 {A} (start : option nat) (l : list A) :
  length (splice1 start l) ≤ length l.
Proof.
  destruct start as [i|]; simpl; [apply length_delete_le|].
  rewrite length_take. lia.
Qed.

Lemma dispatch_queue_length job now st :
  length (_queue (dispatch job now st).1) ≤ length (_queue st).
Proof.
  unfold dispatch. cbn [fst].
  match goal with |- context [call_execute ?j ?c ?n ?s] =>
    destruct (call_execute_fields j c n s) as (_ & _ & -> & _) end.
  simpl. apply length_splice1.
Qed.

(** The loop ends by its own test, not for lack of fuel: from index [i] it
    makes at most [length (_queue st) - i] rounds, so every amount of fuel
    that covers this, and the length of the queue which [_process] supplies
    is one, gives the same result. *)
Lemma process_loop_fuel now fuel : ∀ fuel' i st,
  length (_queue st) ≤ fuel + i → length (_queue st) ≤ fuel' + i →
  process_loop fuel now i st = process_loop fuel' now i st.
Proof.
  induction fuel as [|fuel IH]; intros fuel' i st Hf Hf'.
  - destruct fuel' as [|fuel']; [reflexivity|]. rewrite process_loop_round.
    rewrite (proj2 (lookup_ge_None (_queue st) i)) by lia. reflexivity.
  - destruct fuel' as [|fuel'].
    + rewrite process_loop_round.
      rewrite (proj2 (lookup_ge_None (_queue st) i)) by lia. reflexivity.
    + rewrite !process_loop_round.
      destruct (_queue st !! i) as [job|]; [|reflexivity].
      destruct (negb (canRunJobs_of st job)); [apply IH; lia|].
      pose proof (dispatch_queue_length job now st) as Hlen.
      destruct (dispatch job now st) as [st' [cb|]]; [|reflexivity].
      simpl in Hlen. destruct (_ <=? _); [reflexivity|]. apply IH; lia.
Qed.

Lemma process_loop_pass fuel now : ∀ i st,
  consistent st →
  ∃ st', process_loop fuel now i st = (st', false)
         ∧ consistent st' ∧ pass st st'
         ∧ _processLock st' = _processLock st.
Proof.
  induction fuel as [|fuel IH]; intros i st Hc.
  - exists st. split; [reflexivity|]. split; [exact Hc|]. split; [apply pass_refl | reflexivity].
  - rewrite process_loop_round. destruct (_queue st !! i) as [job|] eqn:Hi.
    2:{ exists st. split; [reflexivity|]. split; [exact Hc|].
        split; [apply pass_refl | reflexivity]. }
    destruct (canRunJobs_of st job) eqn:Hcan; cbn [negb]; [|apply IH, Hc].
    assert (Hin : job ∈ _queue st) by (eapply list_elem_of_lookup_2; exact Hi).
    destruct (dispatch_pass job now st Hc Hin Hcan)
      as (st1 & cb & -> & Hc1 & Hp1 & _ & Hl1).
    destruct (_concurrency st1 <=? length (_active st1)).
    + exists st1. auto.
    + destruct (IH (S i) st1 Hc1) as (st2 & -> & Hc2 & Hp2 & Hl2).
      exists st2. split; [reflexivity|]. split; [exact Hc2|].
      split; [eapply pass_trans; eassumption | congruence].
Qed.


Lemma process_loop_progress fuel now : ∀ i st,
  consistent st →
  (∃ k job, i ≤ k ∧ _queue st !! k = Some job ∧ canRunJobs_of st job = true) →
  length (_queue st) ≤ fuel + i →
  length (_queue (process_loop fuel now i st).1) < length (_queue st).
Proof.
  induction fuel as [|fuel IH]; intros i st Hc (k & job & Hik & Hk & Hcan) Hlen.
  - apply lookup_lt_Some in Hk. lia.
  - rewrite process_loop_round. destruct (_queue st !! i) as [job'|] eqn:Hi.
    2:{ apply lookup_ge_None in Hi. apply lookup_lt_Some in Hk. lia. }
    destruct (canRunJobs_of st job') eqn:Hcan'; cbn [negb].
    + assert (Hin : job' ∈ _queue st) by (eapply list_elem_of_lookup_2; exact Hi).
      destruct (dispatch_pass job' now st Hc Hin Hcan')
        as (st1 & cb & -> & Hc1 & Hp1 & Hl1 & _).
      destruct (_concurrency st1 <=? length (_active st1)); [simpl; lia|].
      destruct (process_loop_pass fuel now (S i) st1 Hc1) as (st2 & -> & _ & Hp2 & _).
      simpl. pose proof (submseteq_length _ _ (pass_queue _ _ Hp2)). lia.
    + apply IH; [exact Hc | | lia].
      exists k, job. split; [|auto].
      destruct (decide (k = i)) as [->|]; [congruence | lia].
Qed.

Lemma consistent_same st st' :
  _jobs st' = _jobs st → heap st' = heap st → _queue st' ≡ₚ _queue st →
  _callbacks st' = _callbacks st → promises st' = promises st →
  _active st' = _active st →
  consistent st → consistent st'.
Proof.
  intros Hj Hh Hq Hcb Hp Ha [H1 H2 H3 H4 H5 H6 H7 H8].
  split; unfold uuids in *; rewrite ?Hj, ?Hh, ?Hcb, ?Hp, ?Ha; try assumption.
  - rewrite Hq. exact H3.
  - intros job Hjob. rewrite Hq in Hjob. apply H4, Hjob.
Qed.

Lemma pass_same st st' :
  _jobs st' = _jobs st → heap st' = heap st → _queue st' ≡ₚ _queue st →
  _callbacks st' = _callbacks st → promises st' = promises st →
  _active st' = _active st → delivered st' = delivered st →
  modules st' = modules st → _concurrency st' = _concurrency st →
  _isPaused st' = _isPaused st →
  pass st st'.
Proof.
  intros Hj Hh Hq Hcb Hp Ha Hd Hm Hc Hpa. split; try assumption.
  - apply Permutation_submseteq, Hq.
  - exists []. rewrite app_nil_r. exact Ha.
  - exists []. rewrite app_nil_r. exact Hp.
  - intros job _. rewrite Hh. reflexivity.
  - intros job H1 H2. rewrite Hq in H2. contradiction.
  - unfold uuids. rewrite Hh. reflexivity.
  - intros job H1 H2. rewrite Hq in H2. contradiction.
  - rewrite Ha, (Permutation_length Hq). reflexivity.
Qed.

Lemma _process_pass now st :
  wf st → wf (_process now st) ∧ pass st (_process now st).
Proof.
  intros [Hc Hl]. unfold _process. rewrite Hl.
  destruct (_ || _); [split; [split; assumption | apply pass_refl]|].
  set (st2 := set_queue _ (set_processLock true st)).
  assert (Hc2 : consistent st2).
  { eapply consistent_same; [..|exact Hc]; try reflexivity. apply sort_perm. }
  assert (Hp2 : pass st st2).
  { apply pass_same; try reflexivity. apply sort_perm. }
  destruct (process_loop_pass (length (_queue st2)) now 0 st2 Hc2)
    as (st3 & -> & Hc3 & Hp3 & Hl3).
  split.
  - split; [|reflexivity]. eapply consistent_same; [..|exact Hc3]; reflexivity.
  - eapply pass_trans; [exact Hp2|]. eapply pass_trans; [exact Hp3|].
    apply pass_same; reflexivity.
Qed.

Lemma _process_progress now st :
  wf st → _isPaused st = false → length (_active st) < _concurrency st →
  (∃ job, job ∈ _queue st ∧ canRunJobs_of st job = true) →
  length (_queue (_process now st)) < length (_queue st).
Proof.
  intros [Hc Hl] Hpa Hlt (job & Hin & Hcan). unfold _process. rewrite Hl, Hpa.
  destruct (Nat.leb_spec (_concurrency st) (length (_active st))) as [|_]; [lia|].
  destruct (Nat.eqb_spec (length (_queue st)) 0) as [H0|_].
  { destruct (_queue st); [apply elem_of_nil in Hin; contradiction | discriminate]. }
  cbn [orb].
  set (st2 := set_queue _ (set_processLock true st)).
  assert (Hc2 : consistent st2).
  { eapply consistent_same; [..|exact Hc]; try reflexivity. apply sort_perm. }
  assert (Hq2 : _queue st2 ≡ₚ _queue st) by apply sort_perm.
  assert (Hin2 : job ∈ _queue st2) by (rewrite Hq2; exact Hin).
  apply list_elem_of_lookup_1 in Hin2 as [k Hk].
  pose proof (process_loop_progress (length (_queue st2)) now 0 st2 Hc2) as Hpr.
  destruct (process_loop_pass (length (_queue st2)) now 0 st2 Hc2)
    as (st3 & Hst3 & _).
  rewrite Hst3 in *. simpl in *. rewrite <- (Permutation_length Hq2).
  apply Hpr; [|lia]. exists k, job. split; [lia|]. split; [exact Hk | exact Hcan].
Qed.


Lemma elem_of_insert_inv {A} (l : list A) k x y :
  y ∈ <[k := x]> l → y = x ∨ y ∈ l.
Proof.
  intros Hy. apply list_elem_of_lookup_1 in Hy as [i Hi].
  apply list_lookup_insert_Some in Hi as [(-> & -> & _) | [_ Hi]];
    [left; reflexivity | right; eapply list_elem_of_lookup_2; exact Hi].
Qed.

Lemma elem_of_insert_other {A} (l : list A) k x y z :
  l !! k = Some z → y ∈ l → y ≠ z → y ∈ <[k := x]> l.
Proof.
  intros Hk Hy Hne. apply list_elem_of_lookup_1 in Hy as [i Hi].
  apply list_elem_of_lookup. exists i.
  rewrite list_lookup_insert_ne; [exact Hi|]. intros ->. congruence.
Qed.

Lemma promise_jobs_insert (ps : list Promise) k p p' :
  ps !! k = Some p → p_job p' = p_job p →
  p_job <$> <[k := p']> ps = p_job <$> ps.
Proof.
  intros Hk Hj. rewrite list_fmap_insert, Hj. apply list_insert_id.
  rewrite list_lookup_fmap, Hk. reflexivity.
Qed.

Lemma body_uuid h now j :
  Job.getUuid (Job.execute_body h now j).1.1 = Job.getUuid j.
Proof. rewrite JobFacts.body_job. reflexivity. Qed.

Lemma consistent_settle job h now st :
  consistent st → consistent (settle job h now st).
Proof.
  intros Hc. unfold settle.
  destruct (list_find _ _) as [[k p]|] eqn:Hf; [|exact Hc].
  apply list_find_Some in Hf as (Hk & [Hpj Hrun] & _).
  destruct (heap st !! job) as [j|] eqn:Hj; [|exact Hc].
  pose proof (body_uuid h now j) as Hu.
  destruct (Job.execute_body h now j) as [[j' c] effs]. simpl in Hu.
  assert (Hp : p ∈ promises st) by (eapply list_elem_of_lookup_2; exact Hk).
  assert (Hjp : job ∈ p_job <$> promises st).
  { apply list_elem_of_fmap. exists p. auto. }
  split; simpl.
  - rewrite length_insert. apply (jobs_are_heap _ Hc).
  - unfold uuids. simpl. erewrite uuids_insert; [apply (uuids_unique _ Hc) | exact Hj | exact Hu].
  - apply (queue_nodup _ Hc).
  - intros r Hr. destruct (queue_waiting _ Hc r Hr) as [(jr & Hjr & Hunr & Hcbr) Hnpr].
    assert (r ≠ job) by (intros ->; contradiction).
    split.
    + exists jr. rewrite list_lookup_insert_ne by congruence. auto.
    + erewrite promise_jobs_insert; [exact Hnpr | exact Hk | simpl; congruence].
  - erewrite promise_jobs_insert; [apply (promises_nodup _ Hc) | exact Hk | simpl; congruence].
  - intros q Hq. apply elem_of_insert_inv in Hq as [->|Hq]; simpl.
    + split; [apply lookup_insert_is_Some; eauto|].
      apply (promises_valid _ Hc p Hp).
    + destruct (promises_valid _ Hc q Hq) as [H1 H2].
      split; [apply lookup_insert_is_Some, H1 | exact H2].
  - apply (active_nodup _ Hc).
  - intros r Hr. destruct (active_pending _ Hc r Hr) as (q & Hq & Hqj & Hqp).
    destruct (decide (r = job)) as [->|Hne].
    + eexists. split; [apply list_elem_of_insert; eapply lookup_lt_Some; exact Hk|].
      simpl. split; reflexivity.
    + exists q. split; [|auto].
      eapply elem_of_insert_other; [exact Hk | exact Hq|].
      intros ->. congruence.
Qed.

Lemma consistent_hand_over k p p' calls st :
  consistent st → promises st !! k = Some p →
  p_job p' = p_job p → is_Some (p_callback p') → pending p' = true →
  consistent (hand_over k p' calls st).
Proof.
  intros Hc Hk Hj Hcb Hpend.
  assert (Hp : p ∈ promises st) by (eapply list_elem_of_lookup_2; exact Hk).
  assert (Hps : p_job <$> <[k := p']> (promises st) = p_job <$> promises st).
  { eapply promise_jobs_insert; [exact Hk | exact Hj]. }
  split; simpl.
  - apply (jobs_are_heap _ Hc).
  - apply (uuids_unique _ Hc).
  - apply (queue_nodup _ Hc).
  - intros r Hr. rewrite Hps. apply (queue_waiting _ Hc r Hr).
  - rewrite Hps. apply (promises_nodup _ Hc).
  - intros q Hq. apply elem_of_insert_inv in Hq as [->|Hq];
      [|apply (promises_valid _ Hc q Hq)].
    split; [rewrite Hj; apply (promises_valid _ Hc p Hp) | exact Hcb].
  - apply (active_nodup _ Hc).
  - intros r Hr. destruct (active_pending _ Hc r Hr) as (q & Hq & Hqj & Hqp).
    destruct (decide (r = p_job p)) as [->|Hne].
    + exists p'. split; [apply list_elem_of_insert; eapply lookup_lt_Some; exact Hk|].
      split; assumption.
    + exists q. split; [|auto].
      eapply elem_of_insert_other; [exact Hk | exact Hq|].
      intros ->. congruence.
Qed.

Lemma then_resolve_result job t st :
  then_resolve job t st = st
  ∨ ∃ k cb c,
      promises st !! k
      = Some {| p_job := job; p_callback := Some cb; p_state := Settled c |}
      ∧ then_resolve job t st
        = hand_over k
            {| p_job := job; p_callback := Some cb;
               p_state := Resolved c match c with
                                     | Return _ => t
                                     | Throw e => Some e
                                     end |}
            ((λ r, (cb, r)) <$> resolved c) st.
Proof.
  unfold then_resolve.
  destruct (list_find _ _) as [[k p]|] eqn:Hf; [|left; reflexivity].
  apply list_find_Some in Hf as (Hk & (Hpj & _) & _).
  destruct p as [pj [cb|] [|c|c a|c a|c a]]; try (left; reflexivity).
  simpl in Hpj. subst pj. right. exists k, cb, c. split; [exact Hk | reflexivity].
Qed.

Lemma catch_reject_result job st :
  catch_reject job st = st
  ∨ ∃ k cb c rejection,
      promises st !! k
      = Some {| p_job := job; p_callback := Some cb;
                p_state := Resolved c rejection |}
      ∧ catch_reject job st
        = hand_over k
            {| p_job := job; p_callback := Some cb;
               p_state := Answered c rejection |}
            ((λ r, (cb, r)) <$> rejected rejection) st.
Proof.
  unfold catch_reject.
  destruct (list_find _ _) as [[k p]|] eqn:Hf; [|left; reflexivity].
  apply list_find_Some in Hf as (Hk & (Hpj & _) & _).
  destruct p as [pj [cb|] [|c|c a|c a|c a]]; try (left; reflexivity).
  simpl in Hpj. subst pj. right. exists k, cb, c, a. split; [exact Hk | reflexivity].
Qed.

Lemma consistent_then_resolve job t st :
  consistent st → consistent (then_resolve job t st).
Proof.
  intros Hc.
  destruct (then_resolve_result job t st) as [-> | (k & cb & c & Hk & ->)];
    [exact Hc|].
  eapply consistent_hand_over; [exact Hc | exact Hk | reflexivity | simpl; eauto
                               | reflexivity].
Qed.

Lemma consistent_catch_reject job st :
  consistent st → consistent (catch_reject job st).
Proof.
  intros Hc.
  destruct (catch_reject_result job st) as [-> | (k & cb & c & r & Hk & ->)];
    [exact Hc|].
  eapply consistent_hand_over; [exact Hc | exact Hk | reflexivity | simpl; eauto
                               | reflexivity].
Qed.

Lemma consistent_react job st st' :
  consistent st → react job st = Some st' → consistent st'.
Proof.
  intros Hc. unfold react.
  destruct (list_find _ _) as [[k p]|] eqn:Hf; [|discriminate].
  apply list_find_Some in Hf as (Hk & (Hpj & Hset & _) & _).
  destruct p as [pj [cb|] [|c|c r|c rejection|c rejection]]; try discriminate.
  simpl in Hpj. subst pj.
  intros [= <-].
  set (p := {| p_job := job; p_callback := Some cb; p_state := Answered c rejection |}) in *.
  set (p' := {| p_job := job; p_callback := Some cb; p_state := Delivered c rejection |}).
  assert (Hp : p ∈ promises st) by (eapply list_elem_of_lookup_2; exact Hk).
  assert (Hjp : job ∈ p_job <$> promises st).
  { apply list_elem_of_fmap. exists p. auto. }
  assert (Hps : p_job <$> <[k := p']> (promises st) = p_job <$> promises st).
  { eapply promise_jobs_insert; [exact Hk | reflexivity]. }
  destruct (promises_valid _ Hc p Hp) as [[j Hj] _]. simpl in Hj.
  assert (Hcbs : ∀ r jr, r ∈ _queue st → heap st !! r = Some jr →
            delete (Job.getUuid j) (_callbacks st) !! Job.getUuid jr
            = _callbacks st !! Job.getUuid jr).
  { intros r jr Hr Hjr. apply lookup_delete_ne. intros Heq.
    destruct (queue_waiting _ Hc r Hr) as [_ Hnpr].
    assert (job = r); [|subst r; contradiction].
    eapply (NoDup_lookup _ _ _ _ (uuids_unique _ Hc)).
    - unfold uuids. rewrite list_lookup_fmap, Hj. reflexivity.
    - unfold uuids. rewrite list_lookup_fmap, Hjr. simpl. congruence. }
  assert (Hact : ∀ r, r ∈ match indexOf job (_active st) with
                          | Some i => splice1 (Some i) (_active st)
                          | None => _active st
                          end → r ∈ _active st ∧ r ≠ job).
  { intros r. destruct (indexOf job (_active st)) as [i|] eqn:Hi.
    - assert (Hin : job ∈ _active st).
      { apply fmap_Some in Hi as ([i' x] & Hfind & _).
        apply list_find_Some in Hfind as (Hl & -> & _).
        eapply list_elem_of_lookup_2; exact Hl. }
      destruct (splice_indexOf job (_active st) Hin) as (l1 & l2 & Ha & _ & Hsp).
      rewrite Hi in Hsp. rewrite Hsp.
      pose proof (active_nodup _ Hc) as Hnd. rewrite Ha in Hnd |- *.
      apply NoDup_app in Hnd as (_ & H1 & H2). apply NoDup_cons in H2 as [H2 _].
      intros Hr. apply elem_of_app in Hr as [Hr|Hr].
      + split; [apply elem_of_app; left; exact Hr|].
        intros ->. apply (H1 job Hr). apply list_elem_of_here.
      + split; [apply elem_of_app; right; apply list_elem_of_further, Hr|].
        intros ->. contradiction.
    - intros Hr. split; [exact Hr|]. apply indexOf_None in Hi.
      intros ->. contradiction. }
  assert (Hand : NoDup match indexOf job (_active st) with
                       | Some i => splice1 (Some i) (_active st)
                       | None => _active st
                       end).
  { destruct (indexOf job (_active st)); [|apply (active_nodup _ Hc)].
    simpl. eapply sublist_NoDup; [apply (active_nodup _ Hc) | apply sublist_delete]. }
  unfold uuid_of. simpl. rewrite Hj. simpl.
  destruct (indexOf job (_active st)) as [i|] eqn:Hi; simpl;
    (split; simpl;
     [ apply (jobs_are_heap _ Hc)
     | apply (uuids_unique _ Hc)
     | apply (queue_nodup _ Hc)
     | intros r Hr;
       destruct (queue_waiting _ Hc r Hr) as [(jr & Hjr & Hunr & Hcbr) Hnpr];
       split; [exists jr; rewrite (Hcbs r jr Hr Hjr); auto | rewrite Hps; exact Hnpr]
     | rewrite Hps; apply (promises_nodup _ Hc)
     | intros q Hq; apply elem_of_insert_inv in Hq as [->|Hq];
       [simpl; eauto | apply (promises_valid _ Hc q Hq)]
     | exact Hand
     | intros r Hr; destruct (Hact r Hr) as [Hra Hrj];
       destruct (active_pending _ Hc r Hra) as (q & Hq & Hqj & Hqp);
       exists q; split; [|auto];
       eapply elem_of_insert_other; [exact Hk | exact Hq |];
       intros ->; simpl in Hqj; congruence ]).
Qed.

Lemma consistent_enqueue moduleName jobName payload callback options now uuid st st' :
  consistent st → uuid ∉ uuids st →
  enqueue moduleName jobName payload callback options now uuid st = Return st' →
  consistent st'.
Proof.
  intros Hc Hfresh He.
  apply enqueue_fields in He
    as (_ & Ha & Hq & Hjs & Hh & Hcb & _ & Hps & _).
  assert (Hlt : ∀ r, r ∈ _queue st → r < length (heap st)).
  { intros r Hr. destruct (queue_waiting _ Hc r Hr) as [(jr & Hjr & _) _].
    eapply lookup_lt_Some; exact Hjr. }
  split; unfold uuids; rewrite ?Ha, ?Hq, ?Hjs, ?Hh, ?Hcb, ?Hps.
  - rewrite (jobs_are_heap _ Hc), length_app. simpl.
    rewrite Nat.add_1_r, seq_S. reflexivity.
  - rewrite fmap_app. simpl. apply NoDup_app.
    split; [apply (uuids_unique _ Hc)|]. split; [|apply NoDup_singleton].
    intros x Hx Hx'. apply list_elem_of_singleton in Hx'. subst x. contradiction.
  - apply NoDup_app. split; [apply (queue_nodup _ Hc)|].
    split; [|apply NoDup_singleton].
    intros x Hx Hx'. apply list_elem_of_singleton in Hx'. subst x.
    apply Hlt in Hx. lia.
  - intros r Hr. apply elem_of_app in Hr as [Hr|Hr].
    + destruct (queue_waiting _ Hc r Hr) as [(jr & Hjr & Hunr & Hcbr) Hnpr].
      split; [|exact Hnpr]. exists jr.
      split; [rewrite lookup_app_l; [exact Hjr | eapply lookup_lt_Some; exact Hjr]|].
      split; [exact Hunr|].
      destruct (decide (uuid = Job.getUuid jr)) as [<-|Hne].
      * rewrite lookup_insert_eq. eauto.
      * rewrite lookup_insert_ne by exact Hne. exact Hcbr.
    + apply list_elem_of_singleton in Hr. subst r. split.
      * eexists. split; [apply list_lookup_middle; reflexivity|].
        split; [split; reflexivity|]. simpl. rewrite lookup_insert_eq. eauto.
      * intros Hin. apply list_elem_of_fmap in Hin as (p & Hpj & Hp).
        destruct (promises_valid _ Hc p Hp) as [Hsome _].
        apply lookup_lt_is_Some in Hsome. lia.
  - apply (promises_nodup _ Hc).
  - intros p Hp. destruct (promises_valid _ Hc p Hp) as [[j Hj] H2].
    split; [|exact H2]. exists j.
    rewrite lookup_app_l; [exact Hj | eapply lookup_lt_Some; exact Hj].
  - apply (active_nodup _ Hc).
  - apply (active_pending _ Hc).
Qed.


Lemma uuids_settle job h now st : uuids (settle job h now st) = uuids st.
Proof.
  unfold settle. destruct (list_find _ _) as [[k p]|]; [|reflexivity].
  destruct (heap st !! job) as [j|] eqn:Hj; [|reflexivity].
  pose proof (body_uuid h now j) as Hu.
  destruct (Job.execute_body h now j) as [[j' c] effs]. simpl in Hu.
  unfold uuids. simpl. eapply uuids_insert; eassumption.
Qed.

Lemma wf_pass_of st ev now pre :
  wf st → (∀ u, u ∈ submitted ev → u ∉ uuids st) →
  pass_of st ev = Some (now, pre) →
  wf pre ∧ (uuids pre = uuids st ∨ uuids pre = uuids st ++ submitted ev).
Proof.
  intros [Hc Hl] Hfresh. destruct ev; simpl; try discriminate.
  - destruct (enqueue _ _ _ _ _ _ _ _) as [st'|] eqn:He; [|discriminate].
    intros [= <- <-]. split.
    + split.
      * eapply consistent_enqueue; [exact Hc | | exact He].
        apply Hfresh. simpl. apply list_elem_of_here.
      * apply enqueue_fields in He. destruct He as (_&_&_&_&_&_&_&_&_&_&->). exact Hl.
    + right. apply enqueue_fields in He as (_ & _ & _ & _ & Hh & _).
      unfold uuids. rewrite Hh, fmap_app. reflexivity.
  - intros [= <- <-]. split; [|left; reflexivity].
    split; [|exact Hl]. eapply consistent_same; [..|exact Hc]; reflexivity.
  - destruct (react job st) as [st'|] eqn:Hr; [|discriminate].
    intros [= <- <-]. split.
    + split; [eapply consistent_react; eassumption|].
      apply react_fields in Hr. destruct Hr as (_&_&_&_&_&_&->&_). exact Hl.
    + left. apply react_fields in Hr as (_ & _ & _ & Hh & _).
      unfold uuids. rewrite Hh. reflexivity.
Qed.

Lemma wf_step st ev :
  wf st → (∀ u, u ∈ submitted ev → u ∉ uuids st) →
  wf (step st ev)
  ∧ (uuids (step st ev) = uuids st
     ∨ uuids (step st ev) = uuids st ++ submitted ev).
Proof.
  intros Hwf Hfresh. destruct (pass_of st ev) as [[now pre]|] eqn:Hp.
  - rewrite (pass_of_step _ _ _ _ Hp).
    destruct (wf_pass_of st ev now pre Hwf Hfresh Hp) as [Hpre Hu].
    destruct (_process_pass now pre Hpre) as [Hwf' Hpass].
    split; [exact Hwf'|]. rewrite (pass_uuids _ _ Hpass). exact Hu.
  - destruct Hwf as [Hc Hl]. destruct ev; simpl in *; try discriminate.
    + unfold queueJob. destruct (enqueue _ _ _ _ _ _ _ _); [discriminate|].
      split; [split; assumption | left; reflexivity].
    + split; [|left; reflexivity]. split; [|exact Hl].
      eapply consistent_same; [..|exact Hc]; reflexivity.
    + split; [|left; apply uuids_settle]. split; [apply consistent_settle, Hc|].
      destruct (settle_fields job h now st) as (_&_&_&_&_&_&_&_&->). exact Hl.
    + unfold finish. destruct (react job st); [discriminate|].
      split; [split; assumption | left; reflexivity].
    + split; [|left; reflexivity]. split; [|exact Hl].
      eapply consistent_same; [..|exact Hc]; reflexivity.
    + destruct (then_resolve_fields job resolve_throws st)
        as (_ & _ & _ & _ & _ & _ & Hh & _ & Hlock).
      split; [|left; unfold uuids; rewrite Hh; reflexivity].
      split; [apply consistent_then_resolve, Hc | rewrite Hlock; exact Hl].
    + destruct (catch_reject_fields job st)
        as (_ & _ & _ & _ & _ & _ & Hh & _ & Hlock).
      split; [|left; unfold uuids; rewrite Hh; reflexivity].
      split; [apply consistent_catch_reject, Hc | rewrite Hlock; exact Hl].
Qed.

Lemma NoDup_app_drop_middle {A} (a b c : list A) :
  NoDup (a ++ b ++ c) → NoDup (a ++ c).
Proof.
  intros H. eapply sublist_NoDup; [exact H|].
  apply sublist_app; [reflexivity | apply sublist_inserts_l; reflexivity].
Qed.

Lemma wf_run evs : ∀ st,
  wf st → NoDup (uuids st ++ submitted_uuids evs) →
  wf (run evs st) ∧ NoDup (uuids (run evs st)).
Proof.
  induction evs as [|ev evs IH]; intros st Hwf Hnd; simpl.
  - unfold submitted_uuids in Hnd. simpl in Hnd. rewrite app_nil_r in Hnd. auto.
  - unfold submitted_uuids in Hnd. simpl in Hnd.
    assert (Hfresh : ∀ u, u ∈ submitted ev → u ∉ uuids st).
    { intros u Hu Hu'. apply NoDup_app in Hnd as (_ & Hd & _).
      apply (Hd u Hu'). apply elem_of_app. left. exact Hu. }
    destruct (wf_step st ev Hwf Hfresh) as [Hwf' Hu].
    apply IH; [exact Hwf'|]. destruct Hu as [-> | ->].
    + eapply NoDup_app_drop_middle. exact Hnd.
    + rewrite <- app_assoc. exact Hnd.
Qed.

Lemma wf_new ms : wf (new ms).
Proof.
  split; [|reflexivity]. split; simpl; try apply NoDup_nil_2; try reflexivity.
  - intros job H. apply elem_of_nil in H. contradiction.
  - intros p H. apply elem_of_nil in H. contradiction.
  - intros job H. apply elem_of_nil in H. contradiction.
Qed.

Lemma wf_reachable ms evs :
  NoDup (submitted_uuids evs) →
  wf (run evs (new ms)) ∧ NoDup (uuids (run evs (new ms))).
Proof. intros Hnd. apply wf_run; [apply wf_new | exact Hnd]. Qed.

(** *** The registry and the callbacks *)

Lemma run_app evs more st : run (evs ++ more) st = run more (run evs st).
Proof. apply foldl_app. Qed.

Lemma submitted_uuids_app evs more :
  submitted_uuids (evs ++ more) = submitted_uuids evs ++ submitted_uuids more.
Proof. unfold submitted_uuids. apply bind_app. Qed.

Lemma uuids_run evs : ∀ st,
  wf st → NoDup (uuids st ++ submitted_uuids evs) →
  ∃ l, uuids (run evs st) = uuids st ++ l
       ∧ ∀ u, u ∈ l → u ∈ submitted_uuids evs.
Proof.
  induction evs as [|ev evs IH]; intros st Hwf Hnd; simpl.
  - exists []. rewrite app_nil_r. split; [reflexivity|].
    intros u Hu. apply elem_of_nil in Hu. contradiction.
  - unfold submitted_uuids in Hnd |- *. simpl in Hnd |- *.
    assert (Hfresh : ∀ u, u ∈ submitted ev → u ∉ uuids st).
    { intros u Hu Hu'. apply NoDup_app in Hnd as (_ & Hd & _).
      apply (Hd u Hu'). apply elem_of_app. left. exact Hu. }
    destruct (wf_step st ev Hwf Hfresh) as [Hwf' Hu].
    destruct (IH (step st ev) Hwf') as (l & Hl & Hsub).
    + destruct Hu as [-> | ->].
      * eapply NoDup_app_drop_middle. exact Hnd.
      * rewrite <- app_assoc. exact Hnd.
    + rewrite Hl. destruct Hu as [-> | ->].
      * exists l. split; [reflexivity|]. intros u Hu.
        apply elem_of_app. right. apply Hsub, Hu.
      * exists (submitted ev ++ l). rewrite <- app_assoc. split; [reflexivity|].
        intros u Hu. apply elem_of_app in Hu as [Hu|Hu]; apply elem_of_app;
          [left; exact Hu | right; apply Hsub, Hu].
Qed.

Lemma getJob_found st job u :
  consistent st → uuid_of st job = Some u → getJob u st = Some job.
Proof.
  intros Hc Hu. unfold getJob. rewrite (jobs_are_heap _ Hc).
  assert (Hlt : job < length (heap st)).
  { unfold uuid_of in Hu. apply fmap_Some in Hu as (j & Hj & _).
    eapply lookup_lt_Some; exact Hj. }
  assert (Hfind : list_find (λ r, uuid_of st r = Some u) (seq 0 (length (heap st)))
                  = Some (job, job)).
  { apply list_find_Some. split; [apply lookup_seq_lt, Hlt|]. split; [exact Hu|].
    intros i y Hy Hi Hyu. apply lookup_seq in Hy as [-> _]. simpl in Hyu.
    assert (i = job); [|lia].
    eapply (NoDup_lookup _ _ _ u (uuids_unique _ Hc)).
    - unfold uuids. rewrite list_lookup_fmap. exact Hyu.
    - unfold uuids. rewrite list_lookup_fmap. exact Hu. }
  rewrite Hfind. reflexivity.
Qed.

(** A submission that succeeds puts its job in the registry, under the
    identifier it returns. *)
Lemma queueJob_registers ms evs moduleName jobName payload callback options
    now uuid returned :
  NoDup (submitted_uuids
           (evs ++ [QueueJob moduleName jobName payload callback options
                      now uuid])) →
  let st := run evs (new ms) in
  let r := queueJob moduleName jobName payload callback options now uuid st in
  r.2 = Return returned →
  returned = uuid
  ∧ length (heap st) ∈ _jobs r.1
  ∧ getJob returned r.1 = Some (length (heap st)).
Proof.
  intros Hnd st r. subst r. unfold queueJob.
  destruct (enqueue _ _ _ _ _ _ _ st) as [pre|e] eqn:He; [|discriminate].
  simpl. intros [= <-]. split; [reflexivity|].
  assert (Hnd' : NoDup (submitted_uuids evs ++ [uuid])).
  { rewrite submitted_uuids_app in Hnd. unfold submitted_uuids in Hnd at 2.
    simpl in Hnd. exact Hnd. }
  assert (Hnd0 : NoDup (submitted_uuids evs)).
  { apply NoDup_app in Hnd' as (H & _). exact H. }
  destruct (wf_reachable ms evs Hnd0) as [Hwf _]. fold st in Hwf.
  assert (Hfresh : uuid ∉ uuids st).
  { intros Hin. destruct (uuids_run evs (new ms) (wf_new ms) Hnd0) as (l & Hl & Hsub).
    fold st in Hl. simpl in Hl. rewrite Hl in Hin. apply Hsub in Hin.
    apply NoDup_app in Hnd' as (_ & Hd & _). apply (Hd uuid Hin).
    apply list_elem_of_here. }
  assert (Hpre : wf pre).
  { split; [eapply consistent_enqueue; [apply Hwf | exact Hfresh | exact He]|].
    apply enqueue_fields in He. destruct He as (_&_&_&_&_&_&_&_&_&_&->).
    apply Hwf. }
  destruct (_process_pass now pre Hpre) as [[Hc' _] Hp].
  apply enqueue_fields in He as (_ & _ & _ & Hj & Hh & _).
  assert (Hu : uuid_of (_process now pre) (length (heap st)) = Some uuid).
  { unfold uuid_of. rewrite <- list_lookup_fmap.
    change (Job.getUuid <$> heap (_process now pre))
      with (uuids (_process now pre)).
    rewrite (pass_uuids _ _ Hp). unfold uuids.
    rewrite Hh, list_lookup_fmap, list_lookup_middle by reflexivity.
    reflexivity. }
  split; [|apply getJob_found; assumption].
  rewrite (pass_jobs _ _ Hp), Hj. apply elem_of_app. right.
  apply list_elem_of_here.
Qed.

(** Claim C10. [_jobs] only grows: in every run whose identifiers are
    distinct, a job in the registry is still there after any further events,
    under the same identifier, and [getJob] with that identifier returns that
    very job. *)
Theorem jobs_registry_only_grows :
  ∀ (ms : ModuleManager.Modules) (evs more : list Event) (job : JobRef),
    NoDup (submitted_uuids (evs ++ more)) →
    let st := run evs (new ms) in
    let st' := run more st in
    job ∈ _jobs st →
    _jobs st `prefix_of` _jobs st'
    ∧ job ∈ _jobs st'
    ∧ ∃ uuid, uuid_of st job = Some uuid
              ∧ uuid_of st' job = Some uuid
              ∧ getJob uuid st' = Some job.
Proof.
  intros ms evs more job Hnd st st' Hin.
  rewrite submitted_uuids_app in Hnd.
  assert (Hnd1 : NoDup (submitted_uuids evs)).
  { apply NoDup_app in Hnd as (H & _). exact H. }
  destruct (wf_reachable ms evs Hnd1) as [Hwf Hu]. fold st in Hwf, Hu.
  assert (Hnd2 : NoDup (uuids st ++ submitted_uuids more)).
  { apply NoDup_app. apply NoDup_app in Hnd as (_ & Hd & H2).
    split; [exact Hu|]. split; [|exact H2].
    intros u Hu1. apply Hd.
    destruct (uuids_run evs (new ms) (wf_new ms)) as (l & Hl & Hsub); [exact Hnd1|].
    fold st in Hl. simpl in Hl. rewrite Hl in Hu1. apply Hsub, Hu1. }
  destruct (wf_run more st Hwf Hnd2) as [[Hc' _] _]. fold st' in Hc'.
  destruct (uuids_run more st Hwf Hnd2) as (l & Hl & _). fold st' in Hl.
  destruct Hwf as [Hc _].
  assert (Hlen : length (heap st') = length (heap st) + length l).
  { apply (f_equal length) in Hl. unfold uuids in Hl.
    rewrite length_app, !length_fmap in Hl. exact Hl. }
  rewrite (jobs_are_heap _ Hc) in Hin |- *. rewrite (jobs_are_heap _ Hc').
  apply elem_of_seq in Hin as [_ Hlt]. simpl in Hlt.
  split; [rewrite Hlen, seq_app; apply prefix_app_r; reflexivity|].
  split; [apply elem_of_seq; lia|].
  destruct (lookup_lt_is_Some_2 (heap st) job Hlt) as [j Hj].
  exists (Job.getUuid j).
  assert (Hu1 : uuid_of st job = Some (Job.getUuid j)).
  { unfold uuid_of. rewrite Hj. reflexivity. }
  assert (Hu2 : uuid_of st' job = Some (Job.getUuid j)).
  { change (uuids st' !! job = Some (Job.getUuid j)) with
      ((Job.getUuid <$> heap st') !! job = Some (Job.getUuid j)).
    unfold uuid_of. rewrite <- list_lookup_fmap. fold (uuids st'). rewrite Hl.
    rewrite lookup_app_l by (unfold uuids; rewrite length_fmap; exact Hlt).
    unfold uuids. rewrite list_lookup_fmap, Hj. reflexivity. }
  split; [exact Hu1|]. split; [exact Hu2|]. apply getJob_found; assumption.
Qed.


Lemma find_unique (P : Promise → Prop) `{!∀ p, Decision (P p)}
    (ps : list Promise) (job : JobRef) k p :
  NoDup (p_job <$> ps) → ps !! k = Some p → p_job p = job → P p →
  (∀ q, P q → p_job q = job) →
  list_find P ps = Some (k, p).
Proof.
  intros Hnd Hk Hj HP Hall. apply list_find_Some.
  split; [exact Hk|]. split; [exact HP|].
  intros i q Hi Hlt HPq. assert (i = k); [|lia].
  eapply (NoDup_lookup _ _ _ job Hnd).
  - rewrite list_lookup_fmap, Hi. simpl. f_equal. apply Hall, HPq.
  - rewrite list_lookup_fmap, Hk. simpl. f_equal. exact Hj.
Qed.

Lemma process_loop_delivered fuel now : ∀ i st,
  delivered (process_loop fuel now i st).1 = delivered st.
Proof.
  induction fuel as [|fuel IH]; intros i st; [reflexivity|].
  rewrite process_loop_round.
  destruct (_queue st !! i) as [job|]; [|reflexivity].
  destruct (canRunJobs_of st job); cbn [negb]; [|apply IH].
  unfold dispatch.
  match goal with |- context [call_execute ?j ?c ?n ?s] =>
    pose proof (call_execute_fields j c n s) as (_&_&_&_&_&_&Hd&_);
    set (st3 := call_execute j c n s) in * end.
  simpl in Hd. destruct (uuid_of _ job ≫= _); [|exact Hd].
  destruct (_ <=? _); [exact Hd|]. rewrite IH. exact Hd.
Qed.

Lemma _process_delivered now st : delivered (_process now st) = delivered st.
Proof.
  unfold _process. destruct (_processLock st); [reflexivity|].
  destruct (_ || _); [reflexivity|].
  match goal with |- context [process_loop ?f ?n ?i ?s] =>
    pose proof (process_loop_delivered f n i s) as H;
    destruct (process_loop f n i s) as [st3 [|]]; exact H end.
Qed.

Lemma settle_found st job k cb h now j :
  consistent st →
  promises st !! k
  = Some {| p_job := job; p_callback := Some cb; p_state := Running |} →
  heap st !! job = Some j →
  settle job h now st
  = set_promises
      (<[k := {| p_job := job; p_callback := Some cb;
                 p_state := Settled (Job.execute_body h now j).1.2 |}]>
         (promises st))
      (set_heap (<[job := (Job.execute_body h now j).1.1]> (heap st)) st).
Proof.
  intros Hc Hk Hj. unfold settle.
  rewrite (find_unique _ (promises st) job k _ (promises_nodup _ Hc) Hk eq_refl)
    by (simpl; tauto).
  rewrite Hj. destruct (Job.execute_body h now j) as [[j' c] effs]. reflexivity.
Qed.

Lemma then_resolve_found st job k cb c t :
  consistent st →
  promises st !! k
  = Some {| p_job := job; p_callback := Some cb; p_state := Settled c |} →
  then_resolve job t st
  = hand_over k
      {| p_job := job; p_callback := Some cb;
         p_state := Resolved c match c with
                               | Return _ => t
                               | Throw e => Some e
                               end |}
      ((λ r, (cb, r)) <$> resolved c) st.
Proof.
  intros Hc Hk. unfold then_resolve.
  rewrite (find_unique _ (promises st) job k _ (promises_nodup _ Hc) Hk eq_refl)
    by (simpl; eauto; tauto).
  reflexivity.
Qed.

Lemma catch_reject_found st job k cb c rejection :
  consistent st →
  promises st !! k
  = Some {| p_job := job; p_callback := Some cb;
            p_state := Resolved c rejection |} →
  catch_reject job st
  = hand_over k
      {| p_job := job; p_callback := Some cb;
         p_state := Answered c rejection |}
      ((λ r, (cb, r)) <$> rejected rejection) st.
Proof.
  intros Hc Hk. unfold catch_reject.
  rewrite (find_unique _ (promises st) job k _ (promises_nodup _ Hc) Hk eq_refl)
    by (simpl; eauto; tauto).
  reflexivity.
Qed.

(** Claim C7, amended. An exception raised by a phase is caught by
    [execute]. Its [catch] block publishes the failure when the context
    holds a callback reference, writes the failure to the log and counts it,
    and throws the exception again; when the log entry cannot be built,
    because [JSON.stringify] throws on the payload, nothing is logged or
    counted as failed and that exception takes the place of the phase's.
    Either way the promise of [execute] rejects, the call is counted and the
    job is COMPLETED. The queue has chained the caller's [resolve] and
    [reject] on that promise: [.then(callback.resolve)] calls nothing and
    passes the exception on, and [.catch(callback.reject)] hands it to the
    completion callback. *)
Theorem phase_failure_is_rethrown_to_callback :
  ∀ (ms : ModuleManager.Modules) (evs : list Event) (job : JobRef)
    (cb : Callback) (h : Job.Hooks) (e : Error) (now : Z)
    (resolve_throws : option Error),
    NoDup (submitted_uuids evs) →
    let st := run evs (new ms) in
    {| p_job := job; p_callback := Some cb; p_state := Running |}
      ∈ promises st →
    (Job.try_phases h).2 = Throw e →
    let st1 := settle job h now st in
    let st2 := then_resolve job resolve_throws st1 in
    let st3 := catch_reject job st2 in
    ∃ j thrown,
      heap st !! job = Some j
      ∧ (Job.execute_body h now j).1.2 = Throw thrown
      ∧ match Job._stringify h Job.error with
        | Return _ =>
            thrown = e
            ∧ Job.Logged Job.error ∈ (Job.execute_body h now j).2
            ∧ Job.Stats Job.FAILED ∈ (Job.execute_body h now j).2
        | Throw e' =>
            thrown = e'
            ∧ (Job.Logged Job.error ∉ (Job.execute_body h now j).2)
            ∧ (Job.Stats Job.FAILED ∉ (Job.execute_body h now j).2)
        end
      ∧ (Job.Published (Job.getUuid j) Job.error ∈ (Job.execute_body h now j).2
         ↔ truthy_opt truthy_string (Job.getCallbackRef j) = true)
      ∧ Job.Stats Job.TOTAL ∈ (Job.execute_body h now j).2
      ∧ (Job.Stats Job.SUCCESSFUL ∉ (Job.execute_body h now j).2)
      ∧ status_of st1 job = Some Job.COMPLETED
      ∧ delivered st2 = delivered st
      ∧ delivered st3 = delivered st ++ [(cb, Throw thrown)].
Proof.
  intros ms evs job cb h e now t Hnd st Hp He st1 st2 st3.
  destruct (wf_reachable ms evs Hnd) as [[Hc Hl] _]. fold st in Hc, Hl.
  apply list_elem_of_lookup_1 in Hp as [k Hk].
  destruct (promises_valid _ Hc _ (list_elem_of_lookup_2 _ _ _ Hk)) as [[j Hj] _].
  simpl in Hj.
  pose proof (JobFacts.body_result h now j) as Hres. rewrite He in Hres.
  pose proof (JobFacts.report_cases h j (Throw e)) as Hrep. cbv zeta in Hrep.
  assert (Hmem : ∀ x,
            x ≠ Job.RanValidate → x ≠ Job.RanAuthorize → x ≠ Job.RanExecute →
            x ≠ Job.Stats Job.TOTAL → (∀ d, x ≠ Job.Stats (Job.DURATION d)) →
            x ∈ (Job.execute_body h now j).2
            ↔ x ∈ (Job.report h j (Throw e)).1).
  { intros x H1 H2 H3 H4 H5. rewrite <- He.
    apply JobFacts.body_reported; assumption. }
  assert (Hin : ∀ x,
            x ≠ Job.RanValidate → x ≠ Job.RanAuthorize → x ≠ Job.RanExecute →
            x ≠ Job.Stats Job.TOTAL → (∀ d, x ≠ Job.Stats (Job.DURATION d)) →
            x ∈ (Job.report h j (Throw e)).1 →
            x ∈ (Job.execute_body h now j).2).
  { intros x H1 H2 H3 H4 H5. apply Hmem; assumption. }
  assert (Hout : ∀ x,
            x ≠ Job.RanValidate → x ≠ Job.RanAuthorize → x ≠ Job.RanExecute →
            x ≠ Job.Stats Job.TOTAL → (∀ d, x ≠ Job.Stats (Job.DURATION d)) →
            x ∉ (Job.report h j (Throw e)).1 →
            x ∉ (Job.execute_body h now j).2).
  { intros x H1 H2 H3 H4 H5 Hn H. apply Hn. apply Hmem; assumption. }
  assert (Hshape : ∃ thrown,
            (Job.execute_body h now j).1.2 = Throw thrown
            ∧ match Job._stringify h Job.error with
              | Return _ =>
                  thrown = e
                  ∧ Job.Logged Job.error ∈ (Job.execute_body h now j).2
                  ∧ Job.Stats Job.FAILED ∈ (Job.execute_body h now j).2
              | Throw e' =>
                  thrown = e'
                  ∧ (Job.Logged Job.error ∉ (Job.execute_body h now j).2)
                  ∧ (Job.Stats Job.FAILED ∉ (Job.execute_body h now j).2)
              end
            ∧ (Job.Published (Job.getUuid j) Job.error
                 ∈ (Job.execute_body h now j).2
               ↔ truthy_opt truthy_string (Job.getCallbackRef j) = true)
            ∧ (Job.Stats Job.SUCCESSFUL ∉ (Job.execute_body h now j).2)).
  { rewrite Hres.
    assert (Hpubl : Job.Published (Job.getUuid j) Job.error
                      ∈ (Job.execute_body h now j).2
                    ↔ Job.Published (Job.getUuid j) Job.error
                      ∈ (Job.report h j (Throw e)).1)
      by (apply Hmem; discriminate).
    destruct (Job._stringify h Job.error) as [text|e'].
    - exists e. rewrite Hrep. split; [reflexivity|]. split; [|split].
      + split; [reflexivity|].
        split; apply Hin; try discriminate; rewrite Hrep; simpl;
          rewrite !elem_of_app, !elem_of_cons; tauto.
      + rewrite Hpubl, Hrep. simpl.
        rewrite elem_of_app, JobFacts.publish_mem, !elem_of_cons, elem_of_nil.
        split; [intros [[_ H]|[H|[H|[]]]]; [exact H | discriminate..] | tauto].
      + apply Hout; try discriminate. rewrite Hrep. simpl.
        rewrite elem_of_app, JobFacts.publish_mem, !elem_of_cons, elem_of_nil.
        intros [[H _]|[H|[H|[]]]]; discriminate.
    - exists e'. rewrite Hrep. split; [reflexivity|]. split; [|split].
      + split; [reflexivity|].
        split; apply Hout; try discriminate; rewrite Hrep; simpl;
          rewrite app_nil_r, JobFacts.publish_mem; intros [H _]; discriminate.
      + rewrite Hpubl, Hrep. simpl. rewrite app_nil_r, JobFacts.publish_mem.
        split; [intros [_ H]; exact H | tauto].
      + apply Hout; try discriminate. rewrite Hrep. simpl.
        rewrite app_nil_r, JobFacts.publish_mem. intros [H _]. discriminate. }
  destruct Hshape as (thrown & Hthrown & Hcases & Hpub & Hsucc).
  exists j, thrown. split; [exact Hj|]. split; [exact Hthrown|].
  split; [exact Hcases|]. split; [exact Hpub|].
  split; [apply JobFacts.body_counts_total|]. split; [exact Hsucc|].
  pose proof (settle_found st job k cb h now j Hc Hk Hj) as Hs1.
  fold st1 in Hs1. rewrite Hthrown in Hs1.
  split.
  - rewrite Hs1. unfold status_of. simpl.
    rewrite list_lookup_insert_eq by (eapply lookup_lt_Some; exact Hj).
    simpl. f_equal. apply JobFacts.body_status.
  - assert (Hc1 : consistent st1) by apply consistent_settle, Hc.
    assert (Hk1 : promises st1 !! k
                  = Some {| p_job := job; p_callback := Some cb;
                            p_state := Settled (Throw thrown) |}).
    { rewrite Hs1. simpl. apply list_lookup_insert_eq.
      eapply lookup_lt_Some; exact Hk. }
    pose proof (then_resolve_found st1 job k cb (Throw thrown) t Hc1 Hk1) as Hs2.
    fold st2 in Hs2.
    assert (Hc2 : consistent st2) by apply consistent_then_resolve, Hc1.
    assert (Hk2 : promises st2 !! k
                  = Some {| p_job := job; p_callback := Some cb;
                            p_state := Resolved (Throw thrown) (Some thrown) |}).
    { rewrite Hs2. simpl. apply list_lookup_insert_eq.
      rewrite Hs1. simpl. rewrite length_insert. eapply lookup_lt_Some; exact Hk. }
    pose proof (catch_reject_found st2 job k cb _ _ Hc2 Hk2) as Hs3.
    fold st3 in Hs3.
    assert (Hd2 : delivered st2 = delivered st).
    { rewrite Hs2. simpl. rewrite app_nil_r, Hs1. reflexivity. }
    split; [exact Hd2|]. rewrite Hs3. simpl. rewrite Hd2. reflexivity.
Qed.

(** *** A queued unit is kept, and taken once *)

Lemma waiting_is_not_active st job :
  consistent st → job ∈ _queue st → job ∉ _active st.
Proof.
  intros Hc Hq Ha. destruct (queue_waiting _ Hc job Hq) as [_ Hnp].
  destruct (active_pending _ Hc job Ha) as (p & Hp & Hj & _).
  apply Hnp. apply list_elem_of_fmap. exists p. auto.
Qed.

Lemma pass_keeps_unavailable st st' job :
  consistent st' → pass st st' → job ∈ _queue st →
  canRunJobs_of st job = false →
  job ∈ _queue st' ∧ (job ∉ _active st')
  ∧ heap st' !! job = heap st !! job
  ∧ (job ∉ (p_job <$> promises st'))
  ∧ delivered st' = delivered st.
Proof.
  intros Hc' Hp Hq Hcan.
  assert (Hq' : job ∈ _queue st').
  { destruct (decide (job ∈ _queue st')) as [H|H]; [exact H|].
    pose proof (pass_eligible _ _ Hp job Hq H). congruence. }
  split; [exact Hq'|]. split; [apply waiting_is_not_active; assumption|].
  split; [apply (pass_heap _ _ Hp); right; exact Hq'|].
  split; [apply (queue_waiting _ Hc' job Hq') | apply (pass_delivered _ _ Hp)].
Qed.

(** The part of claim C8 that holds of every run: a dispatch pass leaves a
    queued unit whose module cannot run jobs where it is, [QUEUED], not
    handed to [execute], and hands nothing to a callback. *)
Lemma unavailable_unit_stays_queued
    (ms : ModuleManager.Modules) (evs : list Event) (ev : Event)
    (now : Z) (pre : State) (job : JobRef) :
  NoDup (submitted_uuids (evs ++ [ev])) →
  pass_of (run evs (new ms)) ev = Some (now, pre) →
  job ∈ _queue pre → canRunJobs_of pre job = false →
  let st' := run (evs ++ [ev]) (new ms) in
  job ∈ _queue st' ∧ (job ∉ _active st')
  ∧ heap st' !! job = heap pre !! job
  ∧ status_of st' job = Some Job.QUEUED
  ∧ (job ∉ (p_job <$> promises st'))
  ∧ delivered st' = delivered pre.
Proof.
  intros Hnd Hpo Hq Hcan st'.
  assert (Hnd0 : NoDup (submitted_uuids evs)).
  { rewrite submitted_uuids_app in Hnd. apply NoDup_app in Hnd as (H & _). exact H. }
  destruct (wf_reachable ms evs Hnd0) as [Hwf Hu].
  assert (Hfresh : ∀ u, u ∈ submitted ev → u ∉ uuids (run evs (new ms))).
  { intros u Hin Hin'.
    destruct (uuids_run evs (new ms) (wf_new ms) Hnd0) as (l & Hl & Hsub).
    simpl in Hl. rewrite Hl in Hin'. apply Hsub in Hin'.
    rewrite submitted_uuids_app in Hnd. apply NoDup_app in Hnd as (_ & Hd & _).
    apply (Hd u Hin'). unfold submitted_uuids. simpl. rewrite app_nil_r. exact Hin. }
  destruct (wf_pass_of _ ev now pre Hwf Hfresh Hpo) as [Hpre _].
  destruct (_process_pass now pre Hpre) as [Hwf' Hp].
  assert (Hst' : st' = _process now pre).
  { unfold st'. rewrite run_app. simpl. apply pass_of_step, Hpo. }
  rewrite Hst'.
  destruct (pass_keeps_unavailable pre (_process now pre) job (proj1 Hwf') Hp Hq Hcan)
    as (H1 & H2 & H3 & H4 & H5).
  repeat (split; [assumption|]). split; [|split; assumption].
  unfold status_of. rewrite H3.
  destruct (queue_waiting _ (proj1 Hpre) job Hq) as [(j & Hj & [Hs _] & _) _].
  rewrite Hj. simpl. f_equal. exact Hs.
Qed.

(** Claim C8 fails once two units wait for the module. Two units are
    submitted to a module in ERROR and the queue is resumed: the pass leaves
    both queued and untouched, as the claim says. The module is then marked
    STARTED and the queue resumed again: the pass takes the first unit, and
    leaves the second in the queue, [QUEUED] and not handed to [execute],
    although its module can run jobs, the queue is not paused and one of the
    fifty places is taken. The loop walks the array it splices, as in claims
    C2 and C3. *)
Theorem started_module_unit_is_left_queued :
  let st1 := run [submit "u0" None; submit "u1" None; Resume 9]
               (new (data_module BaseModule.ERROR)) in
  let st2 := run [SetModuleStatus "data" BaseModule.STARTED; Resume 10] st1 in
  (_queue st1 = [0; 1] ∧ _active st1 = [] ∧ promises st1 = []
   ∧ delivered st1 = []
   ∧ status_of st1 0 = Some Job.QUEUED ∧ status_of st1 1 = Some Job.QUEUED)
  ∧ (_queue st2 = [1] ∧ _active st2 = [0]
     ∧ status_of st2 0 = Some Job.ACTIVE
     ∧ status_of st2 1 = Some Job.QUEUED
     ∧ (1 ∉ (p_job <$> promises st2))
     ∧ canRunJobs_of st2 1 = true
     ∧ _isPaused st2 = false ∧ _processLock st2 = false
     ∧ _concurrency st2 = 50).
Proof.
  vm_compute. repeat split.
  intros H. apply list_elem_of_singleton in H. discriminate H.
Qed.

Lemma phase_failure_is_rethrown_to_callback_witness :
  (NoDup (submitted_uuids [submit "u0" None; Resume 9])
   ∧ {| p_job := 0; p_callback := Some 7; p_state := Running |}
       ∈ promises (run [submit "u0" None; Resume 9]
                     (new (data_module BaseModule.STARTED)))
   ∧ (Job.try_phases JobLifecycle.rejecting).2
     = Throw "Payload must be an object")
  ∧ let st := run [submit "u0" None; Resume 9]
                (new (data_module BaseModule.STARTED)) in
    let st1 := settle 0 JobLifecycle.rejecting 11 st in
    let st2 := then_resolve 0 None st1 in
    let st3 := catch_reject 0 st2 in
    ∃ j thrown,
      heap st !! 0 = Some j
      ∧ (Job.execute_body JobLifecycle.rejecting 11 j).1.2 = Throw thrown
      ∧ match Job._stringify JobLifecycle.rejecting Job.error with
        | Return _ =>
            thrown = "Payload must be an object"%string
            ∧ Job.Logged Job.error
                ∈ (Job.execute_body JobLifecycle.rejecting 11 j).2
            ∧ Job.Stats Job.FAILED
                ∈ (Job.execute_body JobLifecycle.rejecting 11 j).2
        | Throw e' =>
            thrown = e'
            ∧ (Job.Logged Job.error
                 ∉ (Job.execute_body JobLifecycle.rejecting 11 j).2)
            ∧ (Job.Stats Job.FAILED
                 ∉ (Job.execute_body JobLifecycle.rejecting 11 j).2)
        end
      ∧ (Job.Published (Job.getUuid j) Job.error
           ∈ (Job.execute_body JobLifecycle.rejecting 11 j).2
         ↔ truthy_opt truthy_string (Job.getCallbackRef j) = true)
      ∧ Job.Stats Job.TOTAL ∈ (Job.execute_body JobLifecycle.rejecting 11 j).2
      ∧ (Job.Stats Job.SUCCESSFUL
           ∉ (Job.execute_body JobLifecycle.rejecting 11 j).2)
      ∧ status_of st1 0 = Some Job.COMPLETED
      ∧ delivered st2 = delivered st
      ∧ delivered st3 = delivered st ++ [(7, Throw thrown)].
Proof.
  assert (Hnd : NoDup (submitted_uuids [submit "u0" None; Resume 9]))
    by (vm_compute; apply NoDup_singleton).
  assert (Hin : {| p_job := 0; p_callback := Some 7; p_state := Running |}
                  ∈ promises (run [submit "u0" None; Resume 9]
                                (new (data_module BaseModule.STARTED))))
    by (vm_compute; apply list_elem_of_here).
  split; [split; [exact Hnd | split; [exact Hin | reflexivity]]|].
  apply (phase_failure_is_rethrown_to_callback
           (data_module BaseModule.STARTED) [submit "u0" None; Resume 9]
           0 7 JobLifecycle.rejecting "Payload must be an object" 11 None
           Hnd Hin eq_refl).
Defined.

(** The scenario of the specification: a unit submitted to a module in
    ERROR stays queued; once the module is marked STARTED the next pass takes
    it. *)
Example unit_waits_for_module_in_error :
  let st1 := run [submit "u0" None; Resume 9]
               (new (data_module BaseModule.ERROR)) in
  let st2 := run [SetModuleStatus "data" BaseModule.STARTED; Resume 10] st1 in
  (_queue st1 = [0] ∧ _active st1 = [] ∧ delivered st1 = []
   ∧ status_of st1 0 = Some Job.QUEUED)
  ∧ (_queue st2 = [] ∧ _active st2 = [0]
     ∧ status_of st2 0 = Some Job.ACTIVE).
Proof. vm_compute. repeat split. Qed.

Lemma jobs_registry_only_grows_witness :
  (NoDup (submitted_uuids
            ([submit "u0" None; Resume 9]
             ++ [Settle 0 passing 11; Then 0 None; Catch 0; Finish 0 12; submit "u1" None]))
   ∧ 0 ∈ _jobs (run [submit "u0" None; Resume 9]
                  (new (data_module BaseModule.STARTED))))
  ∧ let st := run [submit "u0" None; Resume 9]
                (new (data_module BaseModule.STARTED)) in
    let st' := run [Settle 0 passing 11; Then 0 None; Catch 0; Finish 0 12; submit "u1" None] st in
    _jobs st `prefix_of` _jobs st'
    ∧ 0 ∈ _jobs st'
    ∧ ∃ uuid, uuid_of st 0 = Some uuid
              ∧ uuid_of st' 0 = Some uuid
              ∧ getJob uuid st' = Some 0.
Proof.
  assert (Hnd : NoDup (submitted_uuids
            ([submit "u0" None; Resume 9]
             ++ [Settle 0 passing 11; Then 0 None; Catch 0; Finish 0 12; submit "u1" None]))).
  { vm_compute. apply NoDup_cons_2; [|apply NoDup_singleton].
    intros H. apply list_elem_of_singleton in H. discriminate H. }
  assert (Hin : 0 ∈ _jobs (run [submit "u0" None; Resume 9]
                  (new (data_module BaseModule.STARTED))))
    by (vm_compute; apply list_elem_of_here).
  split; [split; [exact Hnd | exact Hin]|].
  apply (jobs_registry_only_grows (data_module BaseModule.STARTED)
           [submit "u0" None; Resume 9]
           [Settle 0 passing 11; Then 0 None; Catch 0; Finish 0 12; submit "u1" None] 0 Hnd Hin).
Defined.

(** A job that has completed is still found by its identifier. *)
Example completed_job_is_still_found :
  let st := run [submit "u0" None; Resume 9; Settle 0 passing 11;
                 Then 0 None; Catch 0; Finish 0 12; submit "u1" None]
              (new (data_module BaseModule.STARTED)) in
  getJob "u0" st = Some 0
  ∧ status_of st 0 = Some Job.COMPLETED
  ∧ _active st = [1] ∧ _callbacks st !! "u0"%string = None.
Proof. vm_compute. repeat split. Qed.

End JobQueueFacts.

(** * Job.ts: what a call of execute does *)

Module JobAccountingFacts.
Import JobAccounting.

Lemma execute_new module payload options created uuid h started finished :
  Job.execute true h started finished (Job.new module payload options created uuid)
  = Job.execute_body h finished
      (Job.set_startedAt started
         (Job._setStatus Job.ACTIVE (Job.new module payload options created uuid))).
Proof. reflexivity. Qed.

Ltac members :=
  intros;
  repeat match goal with
         | H : _ ∈ _ :: _ |- _ => apply elem_of_cons in H as [H|H]; [try discriminate|]
         | H : _ ∈ [] |- _ => apply elem_of_nil in H; contradiction
         | H : _ ∧ _ |- _ => destruct H
         end;
  try discriminate; try congruence;
  repeat rewrite elem_of_cons; rewrite ?elem_of_nil;
  intuition (try discriminate; try congruence).

Ltac body_cases h j :=
  rewrite ?JobFacts.body_job, ?JobFacts.body_result, ?JobFacts.body_effects;
  destruct h as [v a x s];
  unfold first_failure, ends_as, writes, Job.try_phases, Job.report,
    Job.catch_block, Job.log, Job.toJSON;
  cbn [Job._validate Job._authorize Job._execute Job._stringify];
  destruct v as [ev|], a as [ea|], x as [d|ex],
    (s Job.success) as [t1|e1], (s Job.error) as [t2|e2].

(** When the module of a freshly constructed job can run jobs, [execute]
    runs the phases in the order validate, authorize, execute and stops at
    the first that throws: [_authorize] is run only after [_validate] has
    returned, [_execute] only after both have. The call ends as the first
    failing phase, or else [_execute], ended, unless the log entry of that
    outcome cannot be written: then it throws what [JSON.stringify] threw on
    the payload. When the module cannot run jobs, no phase is run: the call
    throws and leaves the job as it was. *)
Theorem execute_stops_at_first_failing_phase
    (module payload : string) (options : option Job.JobOptions)
    (created : Z) (uuid : string) (h : Job.Hooks) (canRunJobs : bool)
    (started finished : Z) :
  let j := Job.new module payload options created uuid in
  let res := Job.execute canRunJobs h started finished j in
  if canRunJobs
  then
    phases res.2 `prefix_of` [Job.RanValidate; Job.RanAuthorize; Job.RanExecute]
    ∧ Job.RanValidate ∈ res.2
    ∧ (Job.RanAuthorize ∈ res.2 ↔ Job._validate h = None)
    ∧ (Job.RanExecute ∈ res.2
       ↔ Job._validate h = None ∧ Job._authorize h = None)
    ∧ res.1.2 = ends_as h (first_failure h)
  else res = (j, Throw "Module can not currently run jobs.", []).
Proof.
  intros j res. subst res j. destruct canRunJobs; [|reflexivity].
  rewrite execute_new. set (j := Job.set_startedAt _ _).
  assert (Hs : Job._startedAt j = Some started) by reflexivity.
  pose proof (JobFacts.publish_shape j Job.success) as Hp1.
  pose proof (JobFacts.publish_shape j Job.error) as Hp2.
  unfold phases. body_cases h j; rewrite Hs;
    destruct Hp1 as [Hp1|Hp1], Hp2 as [Hp2|Hp2]; rewrite ?Hp1, ?Hp2;
    destruct (truthy_number started); simpl.
  all: (split; [first [ by exists [] | by eexists [_] | by eexists [_; _] ] |]).
  all: repeat split; try (intros; congruence); try members.
Qed.

(** When the module of a freshly constructed job can run jobs, [execute]
    leaves the job [COMPLETED] with both clock readings and touches nothing
    else of it, whether the phases pass or one of them throws, and counts
    the call once as [TOTAL]; a duration is counted when the start time is
    not zero. The call is counted as [SUCCESSFUL] exactly when it returns,
    with one log entry. When it throws, it is counted as [FAILED] and the
    failure is logged exactly when the log entry can be written, that is,
    when [JSON.stringify] returns on the payload; otherwise nothing is logged
    and neither outcome is counted. When the context holds a callback
    reference, what the phases ended as is published on the channel of the
    job's uuid, and a failure is published after a success whose log entry
    cannot be written. When the module cannot run jobs, the call throws and
    the job stays as it was, with nothing logged, counted or published. *)
Theorem execute_completes_and_accounts_once
    (module payload : string) (options : option Job.JobOptions)
    (created : Z) (uuid : string) (h : Job.Hooks) (canRunJobs : bool)
    (started finished : Z) :
  let j := Job.new module payload options created uuid in
  let res := Job.execute canRunJobs h started finished j in
  if canRunJobs
  then
    res.1.1 = Job._setStatus Job.COMPLETED
                (Job.set_completedAt finished (Job.set_startedAt started j))
    ∧ counted Job.TOTAL res.2 = 1
    ∧ counted Job.SUCCESSFUL res.2 = (if res.1.2 is Return _ then 1 else 0)
    ∧ counted Job.FAILED res.2
      = (if res.1.2 is Throw _ then if writes h Job.error then 1 else 0
         else 0)
    ∧ logged res.2
      = (if res.1.2 is Return _ then [Job.success]
         else if writes h Job.error then [Job.error] else [])
    ∧ durations res.2
      = (if (started =? 0)%Z then [] else [(finished - started)%Z])
    ∧ publications res.2
      = (if truthy_opt truthy_string (Job.getCallbackRef j)
         then
           if first_failure h is Return _
           then (uuid, Job.success)
                :: (if writes h Job.success then [] else [(uuid, Job.error)])
           else [(uuid, Job.error)]
         else [])
  else res = (j, Throw "Module can not currently run jobs.", []).
Proof.
  intros j res. subst res. unfold j. destruct canRunJobs; [|reflexivity].
  rewrite execute_new. set (j1 := Job.set_startedAt _ _).
  assert (Hs : Job._startedAt j1 = Some started) by reflexivity.
  assert (Hp : ∀ o, Job.publish_if_callbackRef j1 o
               = if truthy_opt truthy_string
                      (Job.getCallbackRef (Job.new module payload options created uuid))
                 then [Job.Published uuid o] else []).
  { intros o. unfold Job.publish_if_callbackRef.
    change (Job.getCallbackRef j1)
      with (Job.getCallbackRef (Job.new module payload options created uuid)).
    destruct (Job.getCallbackRef _) as [r|]; [|reflexivity].
    simpl. destruct (truthy_string r); reflexivity. }
  split; [rewrite JobFacts.body_job; reflexivity|].
  unfold counted, logged, durations, publications.
  body_cases h j1; rewrite Hs, !Hp; unfold truthy_number;
    destruct (truthy_opt truthy_string _), (started =? 0)%Z; simpl;
    repeat split; reflexivity.
Qed.

(** The guard of [execute] against a second run tests the start time
    for truthiness: a job that was executed is refused afterwards exactly
    when the clock did not read zero as it started; after a start at zero
    the phases are run again. *)
Theorem execute_guard_reads_the_start_time
    (module payload : string) (options : option Job.JobOptions)
    (created : Z) (uuid : string) (h h' : Job.Hooks)
    (started finished started' finished' : Z) :
  let first := Job.execute true h started finished
                 (Job.new module payload options created uuid) in
  let second := Job.execute true h' started' finished' first.1.1 in
  (second = (first.1.1, Throw "Job has already been executed.", [])
   ↔ started ≠ 0%Z)
  ∧ (Job.RanValidate ∈ second.2 ↔ started = 0%Z).
Proof.
  intros first second. subst second first. rewrite execute_new.
  set (j1 := Job.set_startedAt _ _).
  assert (Hs : Job._startedAt (Job.execute_body h finished j1).1.1 = Some started).
  { rewrite JobFacts.body_startedAt. reflexivity. }
  set (j2 := (Job.execute_body h finished j1).1.1) in *.
  unfold Job.execute, Job.execute_enter. rewrite Hs. simpl. unfold truthy_number.
  destruct (Z.eqb_spec started 0) as [->|Hne]; simpl.
  - set (j3 := Job.set_startedAt _ _).
    pose proof (JobFacts.body_effects h' finished' j3) as He.
    assert (Hv : Job.RanValidate ∈ (Job.execute_body h' finished' j3).2).
    { rewrite He. apply elem_of_app. left. unfold Job.try_phases.
      destruct (Job._validate h'), (Job._authorize h'); apply list_elem_of_here. }
    destruct (Job.execute_body h' finished' j3) as [[j4 r] effs]. simpl in Hv.
    split.
    + split; [|contradiction]. intros [= _ _ ->].
      apply elem_of_nil in Hv. contradiction.
    + split; [reflexivity|]. intros _. exact Hv.
  - split; [tauto|]. split; [|contradiction].
    intros H. apply elem_of_nil in H. contradiction.
Qed.

End JobAccountingFacts.

(** * ModuleManager.ts: the calls of startup and shutdown *)

Module StartupOrderFacts.
Import ModuleManager Orchestration StartupOrder ModuleManagerFacts.

Lemma extends_refl st : extends st st.
Proof. split; [apply grows_refl | reflexivity]. Qed.

Lemma extends_trans st1 st2 st3 :
  extends st1 st2 → extends st2 st3 → extends st1 st3.
Proof.
  intros [Hg1 Hd1] [Hg2 Hd2]. split; [eapply grows_trans; eassumption|].
  intros name. rewrite Hd2. apply Hd1.
Qed.

Lemma after_startup_dependencies name threw st n :
  BaseModule.getDependentModules <$> getModule n (_modules (after_startup name threw st))
  = BaseModule.getDependentModules <$> getModule n (_modules st).
Proof.
  unfold after_startup. rewrite dependencies_setStatus.
  change (_modules (record (StartupCalled name) (setStatus name BaseModule.STARTING st)))
    with (_modules (setStatus name BaseModule.STARTING st)).
  apply dependencies_setStatus.
Qed.

Lemma after_startup_touched name threw st n :
  touched n (after_startup name threw st) ↔
  (n = name ∧ is_Some (getModule name (_modules st))) ∨ touched n st.
Proof.
  unfold after_startup. rewrite touched_setStatus.
  change (touched n (record (StartupCalled name) (setStatus name BaseModule.STARTING st)))
    with (touched n (setStatus name BaseModule.STARTING st)).
  change (_modules (record (StartupCalled name) (setStatus name BaseModule.STARTING st)))
    with (_modules (setStatus name BaseModule.STARTING st)).
  rewrite touched_setStatus. simpl. rewrite getModule_update_eq.
  assert (Hs : is_Some (BaseModule.setStatus BaseModule.STARTING
                          <$> getModule name (_modules st))
               ↔ is_Some (getModule name (_modules st))).
  { destruct (getModule name (_modules st)); simpl; split; intros [? H]; eauto; discriminate. }
  rewrite Hs. split.
  - intros [(-> & H & _) | (Hne & [(-> & _) | (_ & H)])]; [left; auto | contradiction | right; exact H].
  - intros [(-> & H) | H].
    + left. split; [reflexivity|]. split; [exact H | destruct threw; discriminate].
    + destruct (decide (n = name)) as [->|Hne].
      * left. split; [reflexivity|]. destruct H as (m & Hm & _).
        split; [eauto | destruct threw; discriminate].
      * right. split; [exact Hne|]. right. split; [exact Hne | exact H].
Qed.

Lemma after_startup_extends name threw st : extends st (after_startup name threw st).
Proof.
  split; [|intros n; apply after_startup_dependencies].
  intros n Hn. apply after_startup_touched. right. exact Hn.
Qed.

Lemma module_startup_after startup_throws name st :
  match module_startup startup_throws name st with
  | Err e st'' => Err e (setStatus name BaseModule.ERROR st'')
  | r => r
  end
  = match startup_throws name with
    | Some e => Err e (after_startup name true st)
    | None => Ok (after_startup name false st)
    end.
Proof. unfold module_startup, after_startup. destruct (startup_throws name); reflexivity. Qed.

Lemma waiting_on_extends S x st st' :
  extends st st' → waiting_on S x st → waiting_on S x st'.
Proof.
  intros [_ Hd] Hw s Hs. destruct (Hw s Hs) as (m & d & Hm & Hin & Hor).
  specialize (Hd s). rewrite Hm in Hd.
  destruct (getModule s (_modules st')) as [m'|]; [|discriminate].
  exists m', d. split; [reflexivity|]. simpl in Hd. split; [congruence | exact Hor].
Qed.

Section Reach.

Variable startup_throws : string → option Error.
Variable ms : Modules.

Lemma start_dependencies_spec rec names st :
  (∀ name st0, start_spec ms name st0 (rec name st0)) →
  let r := start_dependencies rec names st in
  extends st (state_of r)
  ∧ (∀ st', r = Ok st' → ∀ d, d ∈ names → touched d st')
  ∧ (started_from ms st → started_from ms (state_of r))
  ∧ (∀ S, (∀ y, y ∈ names → waiting_on S y st) → untouched_all S st →
          untouched_all S (state_of r))
  ∧ (healthy st → ∀ st', r = Ok st' → healthy st').
Proof.
  intros Hrec. revert st. induction names as [|d names IH]; intros st; simpl.
  - split; [apply extends_refl|]. split; [|split; [auto | split; [auto|]]].
    + intros st' _ d Hd. apply elem_of_nil in Hd. contradiction.
    + intros Hh st' [= <-]. exact Hh.
  - destruct (getModule d (_modules st)) as [m|] eqn:Hm; simpl.
    2:{ split; [apply extends_refl|]. split; [discriminate | split; [auto|split; [auto|discriminate]]]. }
    destruct (Hrec d st) as (He1 & Ht1 & Hs1 & Hu1 & Hh1).
    destruct (rec d st) as [st1|e st1|st1] eqn:Hr; simpl in *.
    + destruct (IH st1) as (He2 & Ht2 & Hs2 & Hu2 & Hh2).
      split; [eapply extends_trans; eassumption|]. split; [|split; [|split]].
      * intros st' Hok d' Hd'. apply elem_of_cons in Hd' as [->|Hd'].
        -- rewrite Hok in He2. apply (proj1 He2 d). apply Ht1. reflexivity.
        -- eapply Ht2; eassumption.
      * auto.
      * intros S Hw Hu. apply Hu2.
        -- intros y Hy. eapply waiting_on_extends; [exact He1|].
           apply Hw. apply list_elem_of_further, Hy.
        -- apply Hu1; [apply Hw, list_elem_of_here | exact Hu].
      * intros Hh st' Hok. eapply Hh2; [|exact Hok]. eapply Hh1; [exact Hh | reflexivity].
    + split; [exact He1|]. split; [discriminate|]. split; [exact Hs1|]. split; [|discriminate].
      intros S Hw Hu. apply Hu1; [apply Hw, list_elem_of_here | exact Hu].
    + split; [exact He1|]. split; [discriminate|]. split; [exact Hs1|]. split; [|discriminate].
      intros S Hw Hu. apply Hu1; [apply Hw, list_elem_of_here | exact Hu].
Qed.

Lemma _startModule_spec fuel :
  ∀ name st, start_spec ms name st (_startModule startup_throws fuel name st).
Proof.
  induction fuel as [|fuel IH]; intros name st; simpl.
  - split; [apply extends_refl|]. split; [discriminate | split; [auto | split; [auto | discriminate]]].
  - destruct (getModule name (_modules st)) as [m|] eqn:Hm.
    2:{ split; [apply extends_refl|]. split; [discriminate | split; [auto | split; [auto | discriminate]]]. }
    destruct (BaseModule.getStatus m) eqn:Hst;
      try (split; [apply extends_refl|]; split; [discriminate | split; [auto | split; [auto | discriminate]]]);
      try (split; [apply extends_refl|]; split; [|split; [auto | split; [auto | intros Hh st' [= <-]; exact Hh]]];
           intros st' [= <-]; exists m; split; [exact Hm | rewrite Hst; discriminate]).
    destruct (start_dependencies_spec (_startModule startup_throws fuel)
                (BaseModule.getDependentModules m) st IH) as (He1 & Ht1 & Hs1 & Hu1 & Hh1).
    assert (Hself : untouched_all (λ s, s = name) st).
    { intros s -> (m' & Hm' & Hs'). congruence. }
    assert (Hwself : ∀ S, waiting_on S name st → ∀ y,
              y ∈ BaseModule.getDependentModules m →
              waiting_on (λ s, S s ∨ s = name) y st).
    { intros S Hw y Hy s [Hs | ->].
      - destruct (Hw s Hs) as (m' & d & Hm' & Hd & Hor).
        exists m', d. split; [exact Hm'|]. split; [exact Hd|]. left.
        destruct Hor as [H | ->]; [left; exact H | right; reflexivity].
      - exists m, y. split; [exact Hm|]. split; [exact Hy|]. right. reflexivity. }
    assert (Huall : ∀ S, waiting_on S name st → untouched_all S st →
              untouched_all (λ s, S s ∨ s = name)
                (state_of (start_dependencies (_startModule startup_throws fuel)
                             (BaseModule.getDependentModules m) st))).
    { intros S Hw Hu. apply Hu1; [intros y Hy; apply Hwself; assumption|].
      intros s [Hs | ->]; [apply Hu, Hs | apply Hself; reflexivity]. }
    destruct (start_dependencies _ _ st) as [st1|e st1|st1] eqn:Hr; simpl in *.
    + rewrite module_startup_after.
      assert (Hm1 : ∃ m1, getModule name (_modules st1) = Some m1
                ∧ BaseModule.getDependentModules m1 = BaseModule.getDependentModules m).
      { pose proof (proj2 He1 name) as H1. rewrite Hm in H1.
        destruct (getModule name (_modules st1)) as [m1|]; [|discriminate].
        exists m1. split; [reflexivity|]. simpl in H1. congruence. }
      destruct Hm1 as (m1 & Hm1 & Hdeps).
      assert (Hun1 : BaseModule.getStatus m1 = BaseModule.UNINITIALIZED).
      { destruct (decide (BaseModule.getStatus m1 = BaseModule.UNINITIALIZED)) as [H|H];
          [exact H|]. exfalso.
        assert (Hw0 : waiting_on (λ _, False) name st) by (intros s []).
        assert (Hu0 : untouched_all (λ _, False) st) by (intros s []).
        apply (Huall (λ _, False) Hw0 Hu0 name); [right; reflexivity|].
        exists m1. auto. }
      assert (Hspec : start_spec ms name st
                (match startup_throws name with
                 | Some e => Err e (after_startup name true st1)
                 | None => Ok (after_startup name false st1)
                 end)).
      { assert (Hall : ∀ threw,
                  extends st (after_startup name threw st1)
                  ∧ touched name (after_startup name threw st1)
                  ∧ (started_from ms st → started_from ms (after_startup name threw st1))
                  ∧ (∀ S, waiting_on S name st → untouched_all S st →
                          untouched_all S (after_startup name threw st1))
                  ∧ (healthy st → threw = false → healthy (after_startup name threw st1))).
        { intros threw. split; [eapply extends_trans; [exact He1 | apply after_startup_extends]|].
          split; [apply after_startup_touched; left; eauto|]. split; [|split].
          - intros Hs. eapply started_one; [apply Hs1, Hs | exact Hm1 | exact Hun1|].
            intros d Hd. rewrite Hdeps in Hd. eapply Ht1; [reflexivity | exact Hd].
          - intros S Hw Hu s Hs Ht.
            apply after_startup_touched in Ht as [(-> & _) | Ht].
            + destruct (Hw name Hs) as (m' & d & Hm' & Hd & Hor).
              assert (m' = m) as -> by congruence.
              apply (Huall S Hw Hu d).
              * destruct Hor as [H | ->]; [left; exact H | right; reflexivity].
              * eapply Ht1; [reflexivity | exact Hd].
            + apply (Huall S Hw Hu s); [left; exact Hs | exact Ht].
          - intros Hh -> n mn Hn.
            specialize (Hh1 Hh st1 eq_refl).
            unfold after_startup, setStatus in Hn. simpl in Hn.
            destruct (decide (n = name)) as [->|Hne].
            + rewrite !getModule_update_eq in Hn.
              rewrite Hm1 in Hn. simpl in Hn.
              injection Hn as <-. right. reflexivity.
            + rewrite !getModule_update_ne in Hn by congruence.
              eapply Hh1, Hn. }
        destruct (startup_throws name) as [e|].
        - destruct (Hall true) as (H1 & H2 & H3 & H4 & H5).
          split; [exact H1|]. split; [discriminate | split; [assumption | split; [assumption | discriminate]]].
        - destruct (Hall false) as (H1 & H2 & H3 & H4 & H5).
          split; [exact H1|]. split; [intros st' [= <-]; exact H2 |].
          split; [assumption | split; [assumption|]].
          intros Hh st' [= <-]. apply H5; [exact Hh | reflexivity]. }
      exact Hspec.
    + split; [exact He1|]. split; [discriminate|]. split; [exact Hs1|]. split; [|discriminate].
      intros S Hw Hu s Hs. apply (Huall S Hw Hu s). left. exact Hs.
    + split; [exact He1|]. split; [discriminate|]. split; [exact Hs1|]. split; [|discriminate].
      intros S Hw Hu s Hs. apply (Huall S Hw Hu s). left. exact Hs.
Qed.

Lemma start_all_spec fuel names : ∀ st,
  let r := start_all startup_throws fuel names st in
  extends st (state_of r)
  ∧ (∀ st', r = Ok st' → ∀ d, d ∈ names → touched d st')
  ∧ (started_from ms st → started_from ms (state_of r))
  ∧ (healthy st → ∀ st', r = Ok st' → healthy st').
Proof.
  induction names as [|d names IH]; intros st; simpl.
  - split; [apply extends_refl|]. split; [|split; [auto|]].
    + intros st' _ d Hd. apply elem_of_nil in Hd. contradiction.
    + intros Hh st' [= <-]. exact Hh.
  - destruct (_startModule_spec fuel d st) as (He1 & Ht1 & Hs1 & _ & Hh1).
    destruct (_startModule startup_throws fuel d st) as [st1|e st1|st1]; simpl in *;
      [|split; [exact He1 | split; [discriminate | split; [exact Hs1 | discriminate]]]..].
    destruct (IH st1) as (He2 & Ht2 & Hs2 & Hh2).
    split; [eapply extends_trans; eassumption|]. split; [|split; [auto|]].
    + intros st' Hok d' Hd'. apply elem_of_cons in Hd' as [->|Hd'].
      * rewrite Hok in He2. apply (proj1 He2 d), Ht1. reflexivity.
      * eapply Ht2; eassumption.
    + intros Hh st' Hok. eapply Hh2; [|exact Hok]. eapply Hh1; [exact Hh | reflexivity].
Qed.

End Reach.

(** *** What a startup leaves in the log *)

Lemma after_startup_actions name threw st :
  actions (after_startup name threw st) = actions st ++ [StartupCalled name].
Proof. reflexivity. Qed.

Lemma started_from_log ms st :
  started_from ms st →
  Forall (λ a, is_startup a = true) (actions st)
  ∧ NoDup (actions st)
  ∧ ∀ n, StartupCalled n ∈ actions st → touched n st.
Proof.
  induction 1 as [|st name m threw Hst (IH1 & IH2 & IH3) Hm Hs Hd].
  - split; [constructor|]. split; [constructor|].
    intros n Hn. apply elem_of_nil in Hn. contradiction.
  - rewrite after_startup_actions. split; [|split].
    + apply Forall_app. split; [exact IH1 | repeat constructor].
    + apply NoDup_app. split; [exact IH2|]. split; [|apply NoDup_singleton].
      intros a Ha Ha'. apply list_elem_of_singleton in Ha'. subst a.
      destruct (IH3 name Ha) as (m' & Hm' & Hs'). congruence.
    + intros n Hn. apply after_startup_touched.
      apply elem_of_app in Hn as [Hn|Hn]; [right; apply IH3, Hn|].
      apply list_elem_of_singleton in Hn. injection Hn as ->. left. eauto.
Qed.

Lemma started_from_dependencies ms st name :
  started_from ms st →
  BaseModule.getDependentModules <$> getModule name (_modules st)
  = BaseModule.getDependentModules <$> getModule name ms.
Proof.
  induction 1 as [|st n m threw Hst IH Hm Hs Hd]; [reflexivity|].
  rewrite <- IH. apply after_startup_dependencies.
Qed.

Lemma started_from_order ms st :
  freshly_loaded ms → started_from ms st →
  (∀ n, touched n st → StartupCalled n ∈ actions st)
  ∧ dependencies_first ms (actions st).
Proof.
  intros Hf. induction 1 as [|st name m threw Hst (IH1 & IH2) Hm Hs Hd].
  - split.
    + intros n (m & Hm & Hs). exfalso. apply Hs. simpl in Hm.
      apply getModule_In in Hm. unfold freshly_loaded in Hf.
      rewrite Forall_forall in Hf. apply (Hf (n, m)), Hm.
    + intros n d j Hj. simpl in Hj. rewrite lookup_nil in Hj. discriminate.
  - rewrite after_startup_actions. split.
    + intros n Hn. apply after_startup_touched in Hn as [(-> & _) | Hn];
        apply elem_of_app; [right; apply list_elem_of_here | left; apply IH1, Hn].
    + intros n d j Hj (m0 & Hm0 & Hd0).
      destruct (decide (j < length (actions st))) as [Hlt|Hge].
      * rewrite lookup_app_l in Hj by exact Hlt.
        destruct (IH2 n d j Hj) as (i & Hi & Hli); [exists m0; auto|].
        exists i. split; [exact Hi|]. rewrite lookup_app_l by lia. exact Hli.
      * rewrite lookup_app_r in Hj by lia.
        destruct (j - length (actions st)) as [|k] eqn:Hk; [|destruct k; discriminate].
        injection Hj as <-.
        assert (Hdm : d ∈ BaseModule.getDependentModules m).
        { pose proof (started_from_dependencies ms st name Hst) as H1.
          rewrite Hm, Hm0 in H1. simpl in H1. congruence. }
        pose proof (IH1 d (Hd d Hdm)) as Hin.
        apply list_elem_of_lookup_1 in Hin as [i Hi].
        exists i. split; [apply lookup_lt_Some in Hi; lia|].
        rewrite lookup_app_l by (eapply lookup_lt_Some; exact Hi). exact Hi.
Qed.

(** *** The calls [shutdown] makes *)

Lemma getModule_setStatus_is_Some name s st n :
  is_Some (getModule n (_modules (setStatus name s st)))
  ↔ is_Some (getModule n (_modules st)).
Proof.
  unfold setStatus. simpl. destruct (decide (name = n)) as [<-|Hne].
  - rewrite getModule_update_eq. destruct (getModule name (_modules st)); simpl;
      split; intros [? H]; eauto; discriminate.
  - rewrite getModule_update_ne by exact Hne. reflexivity.
Qed.

Lemma loaded_names_setStatus name s st names :
  loaded_names (_modules (setStatus name s st)) names
  = loaded_names (_modules st) names.
Proof.
  unfold loaded_names. apply list_filter_iff. intros n.
  apply getModule_setStatus_is_Some.
Qed.

Lemma shutdown_each_calls shutdown_throws names : ∀ st,
  let r := shutdown_each shutdown_throws names st in
  ∃ l, actions (state_of r) = actions st ++ (ShutdownCalled <$> l)
       ∧ l `prefix_of` loaded_names (_modules st) names
       ∧ (∀ st', r = Ok st' →
            l = loaded_names (_modules st) names
            ∧ Forall (λ k, shutdown_throws k = None) l)
       ∧ (∀ e st', r = Err e st' →
            ∃ l0 n, l = l0 ++ [n] ∧ shutdown_throws n = Some e
                    ∧ Forall (λ k, shutdown_throws k = None) l0)
       ∧ (∀ st', r ≠ OutOfFuel st').
Proof.
  induction names as [|n names IH]; intros st.
  - exists []. simpl. rewrite app_nil_r.
    repeat split; try reflexivity; try discriminate. constructor.
  - unfold loaded_names. rewrite filter_cons. cbn [shutdown_each].
    destruct (decide (is_Some (getModule n (_modules st)))) as [[m Hm]|Hn].
    + rewrite Hm. unfold module_shutdown.
      set (st1 := record (ShutdownCalled n) (setStatus n BaseModule.STOPPING st)).
      destruct (shutdown_throws n) as [e|] eqn:Hthr; cbn [state_of].
      * exists [n]. split; [reflexivity|]. split; [apply prefix_cons, prefix_nil|].
        split; [discriminate|]. split; [|discriminate].
        intros e' st' [= <- <-]. exists [], n. repeat split; [exact Hthr | constructor].
      * destruct (IH (setStatus n BaseModule.STOPPED st1))
          as (l & Hl & Hp & Hok & Herr & Hfuel).
        rewrite loaded_names_setStatus in Hp, Hok.
        change (_modules st1) with (_modules (setStatus n BaseModule.STOPPING st)) in Hp, Hok.
        rewrite loaded_names_setStatus in Hp, Hok.
        exists (n :: l). split; [|split; [|split; [|split]]].
        -- rewrite Hl. simpl. rewrite <- app_assoc. reflexivity.
        -- apply prefix_cons, Hp.
        -- intros st' H'. destruct (Hok st' H') as [H1 H2].
           split; [f_equal; exact H1 | constructor; assumption].
        -- intros e st' H'. destruct (Herr e st' H') as (l0 & k & -> & Hk & Hl0).
           exists (n :: l0), k. repeat split; [exact Hk | constructor; assumption].
        -- exact Hfuel.
    + destruct (getModule n (_modules st)) as [m|] eqn:Hm; [exfalso; apply Hn; eauto|].
      apply IH.
Qed.

Lemma startups_app_shutdowns (log : list Action) (l : list string) :
  filter (λ a, is_startup a = true) (log ++ (ShutdownCalled <$> l))
  = filter (λ a, is_startup a = true) log.
Proof.
  rewrite filter_app.
  assert (H : filter (λ a, is_startup a = true) (ShutdownCalled <$> l) = []).
  { induction l as [|x l IH]; [reflexivity|].
    rewrite fmap_cons, filter_cons_False by (simpl; discriminate). exact IH. }
  rewrite H. apply app_nil_r.
Qed.

(** How the log of [startup] is made: the startup calls of a state the
    modules went through, then what [shutdown] or the resumption of the
    queue adds. *)
Lemma startup_log startup_throws shutdown_throws fuel ms :
  let r := startup startup_throws shutdown_throws fuel ms in
  ∃ st tail,
    started_from ms st
    ∧ actions (state_of r) = actions st ++ tail
    ∧ Forall (λ a, is_startup a = false) tail
    ∧ (QueueResumed ∈ tail ↔ ∃ st', r = Ok st').
Proof.
  unfold startup.
  destruct (start_all_spec startup_throws ms fuel (map fst ms)
              {| _modules := ms; actions := [] |}) as (_ & _ & Hs & _).
  specialize (Hs (started_nothing ms)).
  assert (Hcatch : ∀ err st1, started_from ms st1 →
            ∃ st tail,
              started_from ms st
              ∧ actions (state_of (startup_catch shutdown_throws err st1))
                = actions st ++ tail
              ∧ Forall (λ a, is_startup a = false) tail
              ∧ (QueueResumed ∈ tail
                 ↔ ∃ st', startup_catch shutdown_throws err st1 = Ok st')).
  { intros err st1 Hs1. unfold startup_catch, shutdown.
    destruct (shutdown_each_calls shutdown_throws (shutdownOrder (_modules st1)) st1)
      as (l & Hl & _).
    exists st1, (ShutdownCalled <$> l). split; [exact Hs1|].
    assert (Hact : actions (state_of
              match shutdown_each shutdown_throws (shutdownOrder (_modules st1)) st1 with
              | Ok st'' => Err err st''
              | r => r
              end) = actions st1 ++ (ShutdownCalled <$> l)).
    { rewrite <- Hl. destruct (shutdown_each _ _ _); reflexivity. }
    split; [exact Hact|]. split.
    + apply Forall_fmap. apply Forall_forall. intros x _. reflexivity.
    + split.
      * intros Hin. apply list_elem_of_fmap in Hin as (x & Hx & _). discriminate.
      * intros [st' H']. destruct (shutdown_each _ _ _); discriminate. }
  destruct (start_all _ _ _ _) as [st1|e st1|st1]; simpl in *.
  - exists st1, [QueueResumed]. split; [exact Hs|]. split; [reflexivity|].
    split; [repeat constructor|]. split; [eauto | intros _; apply list_elem_of_here].
  - apply Hcatch, Hs.
  - apply Hcatch, Hs.
Qed.

(** *** Startup as a whole *)

Lemma filter_none_startup (tail : list Action) :
  Forall (λ a, is_startup a = false) tail →
  filter (λ a, is_startup a = true) tail = [].
Proof.
  induction 1 as [|a tail Ha _ IH]; [reflexivity|].
  rewrite filter_cons_False by (rewrite Ha; discriminate). exact IH.
Qed.

(** Whatever the modules' routines do and however the table was found,
    [startup] invokes the startup routine of a module at most once. *)
Theorem startup_routine_runs_at_most_once
    (startup_throws shutdown_throws : string → option Error)
    (fuel : nat) (ms : Modules) :
  NoDup (startups (state_of (startup startup_throws shutdown_throws fuel ms))).
Proof.
  destruct (startup_log startup_throws shutdown_throws fuel ms)
    as (st & tail & Hst & Hact & Htail & _).
  unfold startups. rewrite Hact, filter_app, (filter_none_startup tail Htail), app_nil_r.
  eapply sublist_NoDup; [apply (started_from_log ms st Hst) | apply sublist_filter].
Qed.

(** On a table of untouched modules, every startup routine that
    [startup] invokes is invoked after those of all the dependencies the
    module lists. *)
Theorem startup_calls_dependencies_first
    (startup_throws shutdown_throws : string → option Error)
    (fuel : nat) (ms : Modules) :
  freshly_loaded ms →
  dependencies_first ms
    (actions (state_of (startup startup_throws shutdown_throws fuel ms))).
Proof.
  intros Hf.
  destruct (startup_log startup_throws shutdown_throws fuel ms)
    as (st & tail & Hst & Hact & Htail & _).
  rewrite Hact. destruct (started_from_order ms st Hf Hst) as [_ Hord].
  intros n d j Hj Hd.
  destruct (decide (j < length (actions st))) as [Hlt|Hge].
  - rewrite lookup_app_l in Hj by exact Hlt.
    destruct (Hord n d j Hj Hd) as (i & Hi & Hli).
    exists i. split; [exact Hi|]. rewrite lookup_app_l by lia. exact Hli.
  - rewrite lookup_app_r in Hj by lia. exfalso.
    rewrite Forall_forall in Htail.
    specialize (Htail (StartupCalled n) (list_elem_of_lookup_2 _ _ _ Hj)).
    discriminate.
Qed.

Lemma startup_calls_dependencies_first_witness :
  freshly_loaded line_abc
  ∧ dependencies_first line_abc
      (actions (state_of (startup never_throws never_throws 3 line_abc))).
Proof.
  assert (Hf : freshly_loaded line_abc) by repeat constructor.
  split; [exact Hf|].
  apply (startup_calls_dependencies_first never_throws never_throws 3 line_abc Hf).
Defined.

(** The job queue is resumed exactly when [startup] succeeds, as the
    last thing it does, after startup calls only. *)
Theorem queue_resumed_exactly_on_success
    (startup_throws shutdown_throws : string → option Error)
    (fuel : nat) (ms : Modules) :
  let r := startup startup_throws shutdown_throws fuel ms in
  (QueueResumed ∈ actions (state_of r) ↔ ∃ st', r = Ok st')
  ∧ ∀ st', r = Ok st' →
      ∃ log, actions st' = log ++ [QueueResumed]
             ∧ Forall (λ a, is_startup a = true) log.
Proof.
  intros r. split.
  - destruct (startup_log startup_throws shutdown_throws fuel ms)
      as (st & tail & Hst & Hact & Htail & Hres).
    fold r in Hact, Hres. rewrite Hact, elem_of_app, <- Hres.
    split; [|auto]. intros [Hin|Hin]; [|exact Hin]. exfalso.
    destruct (started_from_log ms st Hst) as (Hall & _).
    rewrite Forall_forall in Hall. specialize (Hall _ Hin). discriminate.
  - subst r. unfold startup. intros st' Hok.
    destruct (start_all_spec startup_throws ms fuel (map fst ms)
                {| _modules := ms; actions := [] |}) as (_ & _ & Hs & _).
    specialize (Hs (started_nothing ms)).
    destruct (start_all _ _ _ _) as [st1|e st1|st1]; simpl in *.
    + injection Hok as <-. exists (actions st1). split; [reflexivity|].
      apply (started_from_log ms st1 Hs).
    + unfold startup_catch in Hok. destruct (shutdown _ _); discriminate.
    + unfold startup_catch in Hok. destruct (shutdown _ _); discriminate.
Qed.

Lemma started_from_keys ms st name :
  started_from ms st →
  is_Some (getModule name (_modules st)) ↔ is_Some (getModule name ms).
Proof.
  intros Hst. pose proof (started_from_dependencies ms st name Hst) as H.
  destruct (getModule name (_modules st)), (getModule name ms); simpl in H;
    try discriminate; split; intros [? ?]; eauto; discriminate.
Qed.

Lemma freshly_loaded_healthy ms :
  freshly_loaded ms → healthy {| _modules := ms; actions := [] |}.
Proof.
  intros Hf n m Hm. left. simpl in Hm. apply getModule_In in Hm.
  unfold freshly_loaded in Hf. rewrite Forall_forall in Hf. apply (Hf (n, m)), Hm.
Qed.

Lemma getModule_key name m (ms : Modules) :
  getModule name ms = Some m → name ∈ map fst ms.
Proof.
  intros Hm. apply getModule_In in Hm.
  apply list_elem_of_fmap. exists (name, m). split; [reflexivity | exact Hm].
Qed.

(** When [startup] succeeds on a table of untouched modules, every
    module of the table is [STARTED] and its startup routine has run. *)
Theorem successful_startup_starts_every_module
    (startup_throws shutdown_throws : string → option Error)
    (fuel : nat) (ms : Modules) (st' : State) :
  freshly_loaded ms →
  startup startup_throws shutdown_throws fuel ms = Ok st' →
  ∀ name m, getModule name (_modules st') = Some m →
    BaseModule.getStatus m = BaseModule.STARTED
    ∧ StartupCalled name ∈ actions st'.
Proof.
  intros Hf Hok name m Hm. unfold startup in Hok.
  destruct (start_all_spec startup_throws ms fuel (map fst ms)
              {| _modules := ms; actions := [] |}) as (_ & Ht & Hs & Hh).
  specialize (Hs (started_nothing ms)).
  specialize (Hh (freshly_loaded_healthy ms Hf)).
  destruct (start_all _ _ _ _) as [st1|e st1|st1]; simpl in *;
    [| unfold startup_catch in Hok; destruct (shutdown _ _); discriminate
     | unfold startup_catch in Hok; destruct (shutdown _ _); discriminate].
  injection Hok as <-. simpl in Hm |- *.
  assert (Hkey : name ∈ map fst ms).
  { assert (His : is_Some (getModule name ms))
      by (apply (started_from_keys ms st1 name Hs); eauto).
    destruct His as [m0 Hm0]. eapply getModule_key, Hm0. }
  destruct (Ht st1 eq_refl name Hkey) as (m1 & Hm1 & Hne).
  assert (m1 = m) as -> by congruence.
  split.
  - destruct (Hh st1 eq_refl name m Hm) as [H|H]; [contradiction | exact H].
  - apply elem_of_app. left.
    apply (started_from_order ms st1 Hf Hs). exists m. auto.
Qed.

Lemma successful_startup_starts_every_module_witness :
  BaseModule.getStatus (module BaseModule.STARTED ["b"%string])
  = BaseModule.STARTED
  ∧ StartupCalled "a"
      ∈ actions (state_of (startup never_throws never_throws 3 line_abc)).
Proof.
  apply (successful_startup_starts_every_module never_throws never_throws 3
           line_abc (state_of (startup never_throws never_throws 3 line_abc))).
  - repeat constructor.
  - reflexivity.
  - reflexivity.
Defined.

Section Ranked.

Variable ms : Modules.
Variable rank : string → nat.
Hypothesis Hranked : ranked ms rank.

Lemma start_dependencies_ranked fuel :
  (∀ name st, started_from ms st → healthy st →
     is_Some (getModule name ms) → rank name < fuel →
     ∃ st', _startModule never_throws fuel name st = Ok st') →
  ∀ names st, started_from ms st → healthy st →
    (∀ d, d ∈ names → is_Some (getModule d ms) ∧ rank d < fuel) →
    ∃ st1, start_dependencies (_startModule never_throws fuel) names st = Ok st1
           ∧ started_from ms st1 ∧ healthy st1.
Proof.
  intros Hrec. induction names as [|d names IH]; intros st Hst Hh Hall; simpl.
  - eauto.
  - destruct (Hall d (list_elem_of_here _ _)) as [Hd Hr].
    apply (started_from_keys ms st d Hst) in Hd as [m Hm]. rewrite Hm.
    assert (Hd' : is_Some (getModule d ms))
      by (apply (started_from_keys ms st d Hst); eauto).
    destruct (Hrec d st Hst Hh Hd' Hr) as [st1 H1].
    destruct (_startModule_spec never_throws ms fuel d st) as (_ & _ & Hs1 & _ & Hh1).
    rewrite H1 in Hs1, Hh1 |- *. simpl in Hs1.
    apply IH; [apply Hs1, Hst | eapply Hh1; [exact Hh | reflexivity] |].
    intros d0 Hd0. apply Hall, list_elem_of_further, Hd0.
Qed.

Lemma _startModule_ranked fuel :
  ∀ name st, started_from ms st → healthy st →
    is_Some (getModule name ms) → rank name < fuel →
    ∃ st', _startModule never_throws fuel name st = Ok st'.
Proof.
  induction fuel as [|fuel IH]; intros name st Hst Hh Hname Hr; [lia|].
  simpl. pose proof Hname as Hname'.
  apply (started_from_keys ms st name Hst) in Hname' as [m Hm]. rewrite Hm.
  destruct (Hh name m Hm) as [Hu|Hu]; rewrite Hu; [|eauto].
  destruct (start_dependencies_ranked fuel IH (BaseModule.getDependentModules m) st Hst Hh)
    as (st1 & H1 & _).
  { intros d Hd.
    assert (Hdep : depends_on ms name d).
    { destruct Hname as [m0 Hm0]. exists m0. split; [exact Hm0|].
      pose proof (started_from_dependencies ms st name Hst) as H.
      rewrite Hm, Hm0 in H. simpl in H. injection H as <-. exact Hd. }
    destruct (Hranked name d Hdep) as [Hlt His]. split; [exact His | lia]. }
  rewrite H1. unfold module_startup, never_throws. eauto.
Qed.

Lemma start_all_ranked fuel :
  ∀ names st, started_from ms st → healthy st →
    (∀ n, n ∈ names → is_Some (getModule n ms) ∧ rank n < fuel) →
    ∃ st', start_all never_throws fuel names st = Ok st'.
Proof.
  induction names as [|n names IH]; intros st Hst Hh Hall; simpl; [eauto|].
  destruct (Hall n (list_elem_of_here _ _)) as [Hn Hr].
  destruct (_startModule_ranked fuel n st Hst Hh Hn Hr) as [st1 H1].
  destruct (_startModule_spec never_throws ms fuel n st) as (_ & _ & Hs1 & _ & Hh1).
  rewrite H1 in Hs1, Hh1 |- *. simpl in Hs1.
  apply IH; [apply Hs1, Hst | eapply Hh1; [exact Hh | reflexivity] |].
  intros n0 Hn0. apply Hall, list_elem_of_further, Hn0.
Qed.

End Ranked.

(** When the modules can be numbered so that every dependency has a
    smaller number and is in the table, no startup routine throws, and the
    recursion may go as deep as the numbers, [startup] of a table of
    untouched modules returns normally. *)
Theorem startup_succeeds_without_cycles
    (shutdown_throws : string → option Error)
    (fuel : nat) (ms : Modules) (rank : string → nat) :
  freshly_loaded ms →
  ranked ms rank →
  (∀ entry, entry ∈ ms → rank entry.1 < fuel) →
  ∃ st', startup never_throws shutdown_throws fuel ms = Ok st'.
Proof.
  intros Hf Hr Hfuel. unfold startup.
  destruct (start_all_ranked ms rank Hr fuel (map fst ms)
              {| _modules := ms; actions := [] |}) as [st1 H1].
  - constructor.
  - apply freshly_loaded_healthy, Hf.
  - intros n Hn. apply list_elem_of_fmap in Hn as ([n0 m] & -> & Hin). split.
    + simpl. clear -Hin. induction ms as [|[k v] rest IH]; [apply elem_of_nil in Hin; contradiction|].
      simpl. destruct (decide (k = n0)); [eauto|].
      apply elem_of_cons in Hin as [Heq|Hin]; [congruence | apply IH, Hin].
    + apply (Hfuel (n0, m) Hin).
  - rewrite H1. eauto.
Qed.

Lemma ranked_line_abc : ranked line_abc rank_abc.
Proof.
  intros a b (m & Hm & Hb). unfold line_abc in Hm. simpl in Hm.
  destruct (decide ("a"%string = a)) as [<-|?].
  { injection Hm as <-. simpl in Hb. apply list_elem_of_singleton in Hb.
    subst b. vm_compute. split; [lia | eauto]. }
  destruct (decide ("b"%string = a)) as [<-|?].
  { injection Hm as <-. simpl in Hb. apply list_elem_of_singleton in Hb.
    subst b. vm_compute. split; [lia | eauto]. }
  destruct (decide ("c"%string = a)) as [<-|?]; [|discriminate].
  injection Hm as <-. simpl in Hb. apply elem_of_nil in Hb. contradiction.
Qed.

Lemma startup_succeeds_without_cycles_witness :
  ∃ st', startup never_throws never_throws 3 line_abc = Ok st'.
Proof.
  apply (startup_succeeds_without_cycles never_throws 3 line_abc rank_abc).
  - repeat constructor.
  - exact ranked_line_abc.
  - intros entry Hin. unfold line_abc in Hin.
    repeat (apply elem_of_cons in Hin as [->|Hin]; [vm_compute; lia|]).
    apply elem_of_nil in Hin. contradiction.
Defined.

(** *** Shutdown *)

Lemma splice_present (d : string) (o : list string) :
  NoDup o → d ∈ o →
  NoDup (splice1 (indexOf d o) o)
  ∧ ∀ x, x ∈ splice1 (indexOf d o) o ↔ x ∈ o ∧ x ≠ d.
Proof.
  intros Hnd Hin.
  destruct (JobQueueFacts.splice_indexOf d o Hin) as (l1 & l2 & -> & Hni & ->).
  apply NoDup_app in Hnd as (Hn1 & Hdis & Hn2).
  apply NoDup_cons in Hn2 as [Hd2 Hn2]. split.
  - apply NoDup_app. split; [exact Hn1|]. split; [|exact Hn2].
    intros x Hx Hx'. apply (Hdis x Hx). apply list_elem_of_further, Hx'.
  - intros x. rewrite !elem_of_app, elem_of_cons. split.
    + intros [Hx|Hx]; (split; [tauto|]); intros ->; contradiction.
    + intros [[Hx|[Hx|Hx]] Hne]; [left; exact Hx | contradiction | right; exact Hx].
Qed.

Lemma remove_present (ds : list string) : ∀ o,
  NoDup o → NoDup ds → (∀ d, d ∈ ds → d ∈ o) →
  NoDup (foldl (λ o d, splice1 (indexOf d o) o) o ds)
  ∧ ∀ x, x ∈ foldl (λ o d, splice1 (indexOf d o) o) o ds ↔ x ∈ o ∧ x ∉ ds.
Proof.
  induction ds as [|d ds IH]; intros o Ho Hds Hsub; simpl.
  - split; [exact Ho|]. intros x. split; [intros Hx; split; [exact Hx | apply not_elem_of_nil] | tauto].
  - apply NoDup_cons in Hds as [Hd Hds].
    destruct (splice_present d o Ho (Hsub d (list_elem_of_here _ _))) as [Hnd Hmem].
    destruct (IH (splice1 (indexOf d o) o) Hnd Hds) as [Hnd' Hmem'].
    { intros d' Hd'. apply Hmem. split; [apply Hsub, list_elem_of_further, Hd'|].
      intros ->. contradiction. }
    split; [exact Hnd'|]. intros x. rewrite Hmem', Hmem, not_elem_of_cons. tauto.
Qed.

Lemma shutdownOrder_step_members (order : list string) (n : string)
    (m : BaseModule.Module) :
  NoDup order → NoDup (BaseModule.getDependentModules m) →
  NoDup (shutdownOrder_step order (n, m))
  ∧ ∀ x, x ∈ shutdownOrder_step order (n, m)
         ↔ x ∈ order ∨ x = n ∨ x ∈ BaseModule.getDependentModules m.
Proof.
  intros Ho Hd. unfold shutdownOrder_step.
  set (order1 := if includes n order then order else order ++ [n]).
  assert (H1 : NoDup order1 ∧ ∀ x, x ∈ order1 ↔ x ∈ order ∨ x = n).
  { unfold order1, includes. destruct (bool_decide (n ∈ order)) eqn:Hb.
    - apply bool_decide_eq_true in Hb. split; [exact Ho|].
      intros x. split; [tauto | intros [H | ->]; assumption].
    - apply bool_decide_eq_false in Hb. split.
      + apply NoDup_app. split; [exact Ho|]. split; [|apply NoDup_singleton].
        intros x Hx Hx'. apply list_elem_of_singleton in Hx'. subst x. contradiction.
      + intros x. rewrite elem_of_app, list_elem_of_singleton. tauto. }
  destruct H1 as [Hn1 Hm1].
  set (deps := BaseModule.getDependentModules m) in *.
  set (present := filter (λ d, includes d order1 = true) deps).
  assert (Hp : ∀ d, d ∈ present ↔ d ∈ deps ∧ d ∈ order1).
  { intros d. unfold present. rewrite list_elem_of_filter. unfold includes.
    rewrite bool_decide_eq_true. tauto. }
  destruct (remove_present present order1 Hn1) as [Hn2 Hm2].
  { apply NoDup_filter, Hd. }
  { intros d Hd'. apply Hp, Hd'. }
  split.
  - apply NoDup_app. split; [exact Hn2|]. split; [|exact Hd].
    intros x Hx Hx'. apply Hm2 in Hx as [Hx Hnp]. apply Hnp, Hp. tauto.
  - intros x. rewrite elem_of_app, Hm2, Hp, Hm1.
    destruct (decide (x ∈ deps)); tauto.
Qed.

Lemma shutdownOrder_fold (es : Modules) : ∀ order,
  NoDup order →
  Forall (λ entry, NoDup (BaseModule.getDependentModules entry.2)) es →
  NoDup (foldl shutdownOrder_step order es)
  ∧ ∀ x, x ∈ foldl shutdownOrder_step order es
         ↔ x ∈ order
           ∨ ∃ n m, (n, m) ∈ es ∧ (x = n ∨ x ∈ BaseModule.getDependentModules m).
Proof.
  induction es as [|[n m] es IH]; intros order Ho Hes; simpl.
  - split; [exact Ho|]. intros x. split; [tauto|].
    intros [H | (n & m & Hin & _)]; [exact H | apply elem_of_nil in Hin; contradiction].
  - apply Forall_cons in Hes as [Hm Hes]. simpl in Hm.
    destruct (shutdownOrder_step_members order n m Ho Hm) as [Hn1 Hm1].
    destruct (IH _ Hn1 Hes) as [Hn2 Hm2]. split; [exact Hn2|].
    intros x. rewrite Hm2, Hm1. split.
    + intros [[H | H] | (n' & m' & Hin & H)].
      * left. exact H.
      * right. exists n, m. split; [apply list_elem_of_here | exact H].
      * right. exists n', m'. split; [apply list_elem_of_further, Hin | exact H].
    + intros [H | (n' & m' & Hin & H)]; [tauto|].
      apply elem_of_cons in Hin as [[= -> ->] | Hin]; [tauto|].
      right. exists n', m'. tauto.
Qed.

(** When no module lists a dependency twice, the order in which
    [shutdown] stops the modules names each module once, and names exactly
    the running modules and the dependencies they list. *)
Theorem shutdownOrder_names_running_modules_and_dependencies (ms : Modules) :
  dependencies_listed_once ms →
  NoDup (shutdownOrder ms) ∧ ∀ x, x ∈ shutdownOrder ms ↔ to_stop ms x.
Proof.
  intros Hms. unfold shutdownOrder.
  destruct (shutdownOrder_fold (filter (λ entry, is_running entry.2 = true) ms) [])
    as [Hnd Hmem].
  - constructor.
  - unfold dependencies_listed_once in Hms. rewrite Forall_forall in Hms |- *.
    intros e He. apply list_elem_of_filter in He as [_ He]. apply Hms, He.
  - split; [exact Hnd|]. intros x. rewrite Hmem. unfold to_stop. split.
    + intros [H | (n & m & Hin & H)]; [apply elem_of_nil in H; contradiction|].
      apply list_elem_of_filter in Hin as [Hr Hin]. exists n, m. auto.
    + intros (n & m & Hin & Hr & H). right. exists n, m.
      split; [apply list_elem_of_filter; auto | exact H].
Qed.

Lemma shutdownOrder_names_running_modules_and_dependencies_witness :
  NoDup (shutdownOrder chain_bac)
  ∧ ∀ x, x ∈ shutdownOrder chain_bac ↔ to_stop chain_bac x.
Proof.
  apply (shutdownOrder_names_running_modules_and_dependencies chain_bac).
  unfold dependencies_listed_once, chain_bac.
  repeat (apply Forall_cons; split); simpl;
    [apply NoDup_singleton | apply NoDup_singleton | apply NoDup_nil_2 | apply Forall_nil_2].
Defined.

(** [shutdown] calls the shutdown routines of the modules of its order
    that the table holds, in that order, and makes no other call; it stops
    at the first routine that throws, and throws that routine's error. *)
Theorem shutdown_calls_follow_the_order
    (shutdown_throws : string → option Error) (st : State) :
  let r := shutdown shutdown_throws st in
  let due := loaded_names (_modules st) (shutdownOrder (_modules st)) in
  ∃ called,
    actions (state_of r) = actions st ++ (ShutdownCalled <$> called)
    ∧ called `prefix_of` due
    ∧ (∀ st', r = Ok st' →
         called = due ∧ Forall (λ k, shutdown_throws k = None) called)
    ∧ (∀ e st', r = Err e st' →
         ∃ before n, called = before ++ [n] ∧ shutdown_throws n = Some e
                     ∧ Forall (λ k, shutdown_throws k = None) before)
    ∧ (∀ st', r ≠ OutOfFuel st').
Proof.
  intros r due. subst r due. unfold shutdown.
  apply (shutdown_each_calls shutdown_throws (shutdownOrder (_modules st)) st).
Qed.

Lemma module_status_setStatus name s st n :
  module_status n (setStatus name s st)
  = if decide (n = name) then (λ _, s) <$> module_status n st else module_status n st.
Proof.
  unfold module_status, setStatus. simpl. destruct (decide (n = name)) as [->|Hne].
  - rewrite getModule_update_eq. destruct (getModule name (_modules st)); reflexivity.
  - rewrite getModule_update_ne by congruence. reflexivity.
Qed.

Lemma shutdown_each_statuses shutdown_throws names : ∀ st st',
  shutdown_each shutdown_throws names st = Ok st' →
  ∀ n, module_status n st'
       = if decide (n ∈ names) then (λ _, BaseModule.STOPPED) <$> module_status n st
         else module_status n st.
Proof.
  induction names as [|name names IH]; intros st st' Hok n.
  - simpl in Hok. injection Hok as <-.
    rewrite decide_False by apply not_elem_of_nil. reflexivity.
  - cbn [shutdown_each] in Hok.
    destruct (getModule name (_modules st)) as [m|] eqn:Hm.
    + unfold module_shutdown in Hok.
      destruct (shutdown_throws name); [discriminate|].
      rewrite (IH _ _ Hok n). rewrite module_status_setStatus.
      change (module_status n (record (ShutdownCalled name) (setStatus name BaseModule.STOPPING st)))
        with (module_status n (setStatus name BaseModule.STOPPING st)).
      rewrite module_status_setStatus.
      destruct (decide (n = name)) as [->|Hne].
      * rewrite (decide_True (P := name ∈ name :: names)) by apply list_elem_of_here.
        unfold module_status. rewrite Hm. simpl. destruct (decide (name ∈ names)); reflexivity.
      * destruct (decide (n ∈ names)) as [Hin|Hin].
        -- rewrite decide_True by (apply list_elem_of_further, Hin). reflexivity.
        -- rewrite decide_False; [reflexivity|].
           intros H. apply elem_of_cons in H as [?|?]; contradiction.
    + rewrite (IH _ _ Hok n).
      destruct (decide (n = name)) as [->|Hne].
      * unfold module_status. rewrite Hm. simpl.
        destruct (decide (name ∈ names)), (decide (name ∈ name :: names)); reflexivity.
      * destruct (decide (n ∈ names)) as [Hin|Hin].
        -- rewrite decide_True by (apply list_elem_of_further, Hin). reflexivity.
        -- rewrite decide_False; [reflexivity|].
           intros H. apply elem_of_cons in H as [?|?]; contradiction.
Qed.

(** When no module lists a dependency twice and [shutdown] returns
    normally, every running module and every dependency such a module
    lists is [STOPPED], and every other module has the status it had. *)
Theorem shutdown_stops_running_modules_and_dependencies
    (shutdown_throws : string → option Error) (st st' : State) :
  dependencies_listed_once (_modules st) →
  shutdown shutdown_throws st = Ok st' →
  ∀ n m, getModule n (_modules st) = Some m →
    (to_stop (_modules st) n → module_status n st' = Some BaseModule.STOPPED)
    ∧ (¬ to_stop (_modules st) n
       → module_status n st' = Some (BaseModule.getStatus m)).
Proof.
  intros Hms Hok n m Hm. unfold shutdown in Hok.
  pose proof (shutdown_each_statuses _ _ _ _ Hok n) as Hs.
  destruct (shutdownOrder_fold
              (filter (λ entry, is_running entry.2 = true) (_modules st)) [])
    as [_ Hmem].
  { constructor. }
  { unfold dependencies_listed_once in Hms. rewrite Forall_forall in Hms |- *.
    intros e He. apply list_elem_of_filter in He as [_ He]. apply Hms, He. }
  fold (shutdownOrder (_modules st)) in Hmem.
  assert (Hiff : n ∈ shutdownOrder (_modules st) ↔ to_stop (_modules st) n).
  { rewrite Hmem. unfold to_stop. split.
    - intros [H | (k & v & Hin & H)]; [apply elem_of_nil in H; contradiction|].
      apply list_elem_of_filter in Hin as [Hr Hin]. exists k, v. auto.
    - intros (k & v & Hin & Hr & H). right. exists k, v.
      split; [apply list_elem_of_filter; auto | exact H]. }
  unfold module_status in Hs at 2 3. rewrite Hm in Hs. simpl in Hs.
  split; intros H.
  - rewrite Hs, decide_True by (apply Hiff, H). reflexivity.
  - rewrite Hs, decide_False by (rewrite Hiff; exact H). reflexivity.
Qed.

Lemma shutdown_stops_running_modules_and_dependencies_witness :
  (to_stop chain_bac "a"
   → module_status "a" (state_of (shutdown never_throws
                                  {| _modules := chain_bac; actions := [] |}))
     = Some BaseModule.STOPPED)
  ∧ (¬ to_stop chain_bac "a"
     → module_status "a" (state_of (shutdown never_throws
                                    {| _modules := chain_bac; actions := [] |}))
       = Some (BaseModule.getStatus (module BaseModule.STARTED ["b"%string]))).
Proof.
  apply (shutdown_stops_running_modules_and_dependencies never_throws
           {| _modules := chain_bac; actions := [] |}
           (state_of (shutdown never_throws
                        {| _modules := chain_bac; actions := [] |}))).
  - unfold dependencies_listed_once, chain_bac.
    repeat (apply Forall_cons; split); simpl;
      [apply NoDup_singleton | apply NoDup_singleton | apply NoDup_nil_2 | apply Forall_nil_2].
  - reflexivity.
  - reflexivity.
Defined.

(** *** Startup of a table with a dependency cycle *)




End StartupOrderFacts.

(** * JobQueue.ts: where the jobs are *)

Module QueueAccountingFacts.
Import JobQueue Scheduling QueueAccounting JobQueueFacts.

(** *** Lists updated in place *)

Lemma insert_split {A} (l : list A) k x y :
  l !! k = Some x →
  l = take k l ++ x :: drop (S k) l
  ∧ <[k := y]> l = take k l ++ y :: drop (S k) l.
Proof.
  intros Hk. split; [symmetry; apply take_drop_middle, Hk|].
  apply insert_take_drop. eapply lookup_lt_Some, Hk.
Qed.

Lemma elem_of_insert_cases {A} (l : list A) k x y :
  k < length l → y ∈ <[k := x]> l →
  y = x ∨ ∃ i, i ≠ k ∧ l !! i = Some y.
Proof.
  intros Hk Hy. apply list_elem_of_lookup_1 in Hy as [i Hi].
  destruct (decide (i = k)) as [->|Hne].
  - rewrite list_lookup_insert_eq in Hi by exact Hk. left. congruence.
  - rewrite list_lookup_insert_ne in Hi by congruence. right. eauto.
Qed.

Lemma pending_jobs_insert (ps : list Promise) k p p' :
  ps !! k = Some p → pending p = true → pending p' = true →
  p_job p' = p_job p →
  p_job <$> filter (λ q, pending q = true) (<[k := p']> ps)
  = p_job <$> filter (λ q, pending q = true) ps.
Proof.
  intros Hk Hp Hp' Hj. destruct (insert_split ps k p p' Hk) as [H1 H2].
  rewrite H2. rewrite H1 at 3.
  rewrite !filter_app, !filter_cons_True, !fmap_app, !fmap_cons by assumption.
  rewrite Hj. reflexivity.
Qed.

Lemma answers_insert (ps : list Promise) k p p' :
  ps !! k = Some p →
  ps ≫= answers
  = (take k ps ≫= answers) ++ answers p ++ (drop (S k) ps ≫= answers)
  ∧ <[k := p']> ps ≫= answers
    = (take k ps ≫= answers) ++ answers p' ++ (drop (S k) ps ≫= answers).
Proof.
  intros Hk. destruct (insert_split ps k p p' Hk) as [H1 H2]. split.
  - rewrite H1 at 1. rewrite bind_app, bind_cons. reflexivity.
  - rewrite H2, bind_app, bind_cons. reflexivity.
Qed.

Lemma answers_insert_same (ps : list Promise) k p p' :
  ps !! k = Some p → answers p' = answers p →
  <[k := p']> ps ≫= answers = ps ≫= answers.
Proof.
  intros Hk Heq. destruct (answers_insert ps k p p' Hk) as [H1 H2].
  rewrite H2, H1, Heq. reflexivity.
Qed.

Lemma running_pending (ps : list Promise) :
  Forall (λ p, p_state p = Running) ps →
  filter (λ p, pending p = true) ps = ps ∧ ps ≫= answers = []
  ∧ Forall well_answered ps.
Proof.
  induction 1 as [|p ps Hp _ (IH1 & IH2 & IH3)];
    [split; [|split]; [reflexivity | reflexivity | constructor]|].
  split; [|split].
  - rewrite filter_cons_True by (unfold pending; rewrite Hp; reflexivity).
    rewrite IH1. reflexivity.
  - rewrite bind_cons, IH2. unfold answers. rewrite Hp.
    destruct (p_callback p); reflexivity.
  - constructor; [|exact IH3]. unfold well_answered. rewrite Hp. exact I.
Qed.

Lemma pending_insert (ps : list Promise) k p p' :
  ps !! k = Some p → p_job p' = p_job p →
  pending p = true → pending p' = true →
  ∀ r, (∃ q, q ∈ <[k := p']> ps ∧ p_job q = r ∧ pending q = true)
       ↔ (∃ q, q ∈ ps ∧ p_job q = r ∧ pending q = true).
Proof.
  intros Hk Hj Hp Hp' r. split.
  - intros (q & Hq & Hqj & Hqp).
    apply elem_of_insert_inv in Hq as [->|Hq]; [|eauto].
    exists p. split; [eapply list_elem_of_lookup_2; exact Hk|].
    split; [congruence | exact Hp].
  - intros (q & Hq & Hqj & Hqp). destruct (decide (r = p_job p)) as [->|Hne].
    + exists p'. split; [apply list_elem_of_insert; eapply lookup_lt_Some; exact Hk|].
      split; assumption.
    + exists q. split; [|auto].
      eapply elem_of_insert_other; [exact Hk | exact Hq|].
      intros ->. congruence.
Qed.

(** *** What a dispatch pass takes *)

Lemma took_refl st : took st st [].
Proof.
  split; [reflexivity | rewrite app_nil_r; reflexivity|].
  exists []. rewrite app_nil_r. repeat split. constructor.
Qed.

Lemma took_trans st1 st2 st3 t1 t2 :
  took st1 st2 t1 → took st2 st3 t2 → took st1 st3 (t1 ++ t2).
Proof.
  intros [Hq1 Ha1 (ps1 & Hp1 & Hj1 & Hr1)] [Hq2 Ha2 (ps2 & Hp2 & Hj2 & Hr2)].
  split.
  - rewrite Hq1, Hq2, app_assoc. reflexivity.
  - rewrite Ha2, Ha1, app_assoc. reflexivity.
  - exists (ps1 ++ ps2). rewrite Hp2, Hp1, app_assoc, fmap_app, Hj1, Hj2.
    repeat split. apply Forall_app. auto.
Qed.

Lemma took_same st st' :
  _queue st' ≡ₚ _queue st → _active st' = _active st →
  promises st' = promises st → took st st' [].
Proof.
  intros Hq Ha Hp. split; [rewrite Hq; reflexivity | rewrite app_nil_r; exact Ha|].
  exists []. rewrite app_nil_r. repeat split; [exact Hp | constructor].
Qed.

Lemma process_loop_took fuel now : ∀ i st,
  consistent st →
  ∃ st' taken, process_loop fuel now i st = (st', false) ∧ took st st' taken.
Proof.
  induction fuel as [|fuel IH]; intros i st Hc.
  - exists st, []. split; [reflexivity | apply took_refl].
  - rewrite process_loop_round. destruct (_queue st !! i) as [job|] eqn:Hi.
    2:{ exists st, []. split; [reflexivity | apply took_refl]. }
    destruct (canRunJobs_of st job) eqn:Hcan; cbn [negb]; [|apply IH, Hc].
    assert (Hin : job ∈ _queue st) by (eapply list_elem_of_lookup_2; exact Hi).
    destruct (dispatch_waiting job now st Hc Hin Hcan)
      as (st1 & cb & j & l1 & l2 & -> & Hc1 & Hq & Hq1 & Ha1 & _ & _ & _ & _ & Hp1 & _).
    assert (Ht1 : took st st1 [job]).
    { split; [rewrite Hq, Hq1; simpl; symmetry; apply Permutation_middle | exact Ha1|].
      eexists. split; [exact Hp1|]. split; [reflexivity | repeat constructor]. }
    destruct (_concurrency st1 <=? length (_active st1)).
    + exists st1, [job]. auto.
    + destruct (IH (S i) st1 Hc1) as (st2 & t2 & -> & Ht2).
      exists st2, ([job] ++ t2). split; [reflexivity|].
      eapply took_trans; eassumption.
Qed.

Lemma _process_took now st :
  wf st → ∃ taken, took st (_process now st) taken.
Proof.
  intros [Hc Hl]. unfold _process. rewrite Hl.
  destruct (_ || _); [exists []; apply took_refl|].
  set (st2 := set_queue _ (set_processLock true st)).
  assert (Hc2 : consistent st2).
  { eapply consistent_same; [..|exact Hc]; try reflexivity. apply sort_perm. }
  destruct (process_loop_took (length (_queue st2)) now 0 st2 Hc2)
    as (st3 & taken & -> & Ht).
  exists ([] ++ taken ++ []). eapply took_trans; [|eapply took_trans; [exact Ht|]].
  - apply took_same; try reflexivity. apply sort_perm.
  - apply took_same; reflexivity.
Qed.

(** *** The accounts are kept by every event *)

Lemma accounted_same st st' :
  _jobs st' = _jobs st → heap st' = heap st → _queue st' = _queue st →
  promises st' = promises st → _active st' = _active st →
  delivered st' = delivered st →
  accounted st → accounted st'.
Proof.
  intros Hj Hh Hq Hp Ha Hd [H1 H2 H3 H4 H5].
  split; unfold status_of; rewrite ?Hj, ?Hh, ?Hq, ?Hp, ?Ha, ?Hd; assumption.
Qed.

Lemma accounted_process now st :
  wf st → accounted st → accounted (_process now st).
Proof.
  intros Hwf [H1 H2 H3 H4 H5].
  destruct (_process_pass now st Hwf) as [[Hc' _] Hpass].
  destruct (_process_took now st Hwf) as (taken & [Hq Ha (ps & Hp & Hj & Hr)]).
  destruct Hwf as [Hc _].
  destruct (running_pending ps Hr) as (Hpend & Hout & Hwell).
  split; [| | | |rewrite Hp; apply Forall_app; auto].
  - rewrite Hp, fmap_app, Hj, (pass_jobs _ _ Hpass), <- H1, Hq.
    rewrite (Permutation_app_comm taken), <- app_assoc.
    apply Permutation_app_head, Permutation_app_comm.
  - rewrite Ha, Hp, filter_app, fmap_app, Hpend, Hj, H2. reflexivity.
  - rewrite (pass_delivered _ _ Hpass), Hp, bind_app, Hout, app_nil_r. exact H3.
  - intros p Hin. rewrite Hp in Hin. apply elem_of_app in Hin as [Hin|Hin].
    + unfold status_of. rewrite (pass_heap _ _ Hpass); [apply H4, Hin|].
      left. intros Hq'. destruct (queue_waiting _ Hc _ Hq') as [_ Hn].
      apply Hn. apply list_elem_of_fmap. eauto.
    + assert (Hst : p_state p = Running).
      { rewrite Forall_forall in Hr. apply Hr, Hin. }
      assert (Ht : p_job p ∈ taken).
      { rewrite <- Hj. apply list_elem_of_fmap. eauto. }
      pose proof (queue_nodup _ Hc) as Hnd. rewrite Hq in Hnd.
      apply NoDup_app in Hnd as (_ & Hdis & _).
      destruct (pass_dispatched _ _ Hpass (p_job p)) as (_ & Hs & _).
      * rewrite Hq. apply elem_of_app. left. exact Ht.
      * apply Hdis, Ht.
      * rewrite Hs. unfold expected_status. rewrite Hst. reflexivity.
Qed.

Lemma accounted_enqueue moduleName jobName payload callback options now uuid st st' :
  consistent st → accounted st →
  enqueue moduleName jobName payload callback options now uuid st = Return st' →
  accounted st'.
Proof.
  intros Hc [H1 H2 H3 H4 H5] He.
  apply enqueue_fields in He as (_ & Ha & Hq & Hjs & Hh & _ & _ & Hps & Hd & _).
  split; unfold status_of; rewrite ?Ha, ?Hq, ?Hjs, ?Hh, ?Hps, ?Hd; try assumption.
  - rewrite <- H1, <- !app_assoc. apply Permutation_app_head, Permutation_app_comm.
  - intros p Hp. destruct (promises_valid _ Hc p Hp) as [Hsome _].
    rewrite lookup_app_l by (apply lookup_lt_is_Some, Hsome). apply H4, Hp.
Qed.

Lemma accounted_settle job h now st :
  consistent st → accounted st → accounted (settle job h now st).
Proof.
  intros Hc [H1 H2 H3 H4 H5]. unfold settle.
  destruct (list_find _ _) as [[k p]|] eqn:Hf; [|split; assumption].
  apply list_find_Some in Hf as (Hk & [Hpj Hrun] & _).
  destruct (heap st !! job) as [j|] eqn:Hj; [|split; assumption].
  pose proof (JobFacts.body_status h now j) as Hbs.
  destruct (Job.execute_body h now j) as [[j' c] effs]. simpl in Hbs.
  assert (Hst : p_state p = Running).
  { unfold is_running in Hrun. destruct (p_state p); [reflexivity | discriminate..]. }
  split; simpl.
  - erewrite promise_jobs_insert; [exact H1 | exact Hk | simpl; congruence].
  - erewrite pending_jobs_insert; [exact H2 | exact Hk | | reflexivity | simpl; congruence].
    unfold pending. rewrite Hst. reflexivity.
  - erewrite answers_insert_same; [exact H3 | exact Hk|].
    unfold answers. simpl. rewrite Hst. destruct (p_callback p); reflexivity.
  - intros q Hq. unfold status_of. simpl.
    apply elem_of_insert_cases in Hq as [->|(i & Hne & Hi)];
      [| |eapply lookup_lt_Some; exact Hk].
    + simpl. rewrite list_lookup_insert_eq by (eapply lookup_lt_Some; exact Hj).
      simpl. unfold Job.getStatus. rewrite Hbs. reflexivity.
    + assert (Hjq : p_job q ≠ job).
      { intros Heq. apply Hne.
        eapply (NoDup_lookup _ _ _ _ (promises_nodup _ Hc)).
        - rewrite list_lookup_fmap, Hi. reflexivity.
        - rewrite list_lookup_fmap, Hk. simpl. congruence. }
      rewrite list_lookup_insert_ne by congruence.
      apply H4. eapply list_elem_of_lookup_2; exact Hi.
  - apply Forall_insert; [exact H5 | exact I].
Qed.

Lemma accounted_hand_over k p p' calls st :
  accounted st → promises st !! k = Some p →
  p_job p' = p_job p → pending p = true → pending p' = true →
  expected_status p' = expected_status p →
  answers p' = answers p ++ calls →
  (well_answered p → well_answered p') →
  accounted (hand_over k p' calls st).
Proof.
  intros [H1 H2 H3 H4 H5] Hk Hj Hpp Hpp' Hst Hans Hwell.
  destruct (answers_insert (promises st) k p p' Hk) as [Hb1 Hb2].
  assert (Hp : p ∈ promises st) by (eapply list_elem_of_lookup_2; exact Hk).
  split; unfold status_of; simpl.
  - erewrite promise_jobs_insert; [exact H1 | exact Hk | exact Hj].
  - erewrite pending_jobs_insert; [exact H2 | exact Hk | assumption..].
  - rewrite Hb2, H3, Hb1, Hans, <- !app_assoc.
    do 2 apply Permutation_app_head. apply Permutation_app_comm.
  - intros q Hq'.
    apply elem_of_insert_cases in Hq' as [->|(i & Hne & Hi)];
      [| |eapply lookup_lt_Some; exact Hk].
    + rewrite Hj, Hst. apply (H4 p Hp).
    + apply H4. eapply list_elem_of_lookup_2; exact Hi.
  - apply Forall_insert; [exact H5|]. apply Hwell.
    rewrite Forall_forall in H5. apply H5, Hp.
Qed.

Lemma accounted_then_resolve job t st :
  accounted st → accounted (then_resolve job t st).
Proof.
  intros Ha.
  destruct (then_resolve_result job t st) as [-> | (k & cb & c & Hk & ->)];
    [exact Ha|].
  eapply accounted_hand_over; [exact Ha | exact Hk | reflexivity..| |].
  - reflexivity.
  - intros _. unfold well_answered. simpl. destruct c; reflexivity.
Qed.

Lemma accounted_catch_reject job st :
  accounted st → accounted (catch_reject job st).
Proof.
  intros Ha.
  destruct (catch_reject_result job st) as [-> | (k & cb & c & r & Hk & ->)];
    [exact Ha|].
  eapply accounted_hand_over; [exact Ha | exact Hk | reflexivity..| |].
  - unfold answers. simpl. rewrite fmap_app. reflexivity.
  - intros Hw. exact Hw.
Qed.

Lemma react_result job st st' :
  react job st = Some st' →
  ∃ k cb c rejection,
    promises st !! k
    = Some {| p_job := job; p_callback := Some cb; p_state := Answered c rejection |}
    ∧ promises st'
      = <[k := {| p_job := job; p_callback := Some cb;
                  p_state := Delivered c rejection |}]> (promises st)
    ∧ delivered st' = delivered st
    ∧ _active st' = match indexOf job (_active st) with
                    | Some i => delete i (_active st)
                    | None => _active st
                    end
    ∧ _callbacks st' = match uuid_of st job with
                       | Some u => delete u (_callbacks st)
                       | None => _callbacks st
                       end.
Proof.
  unfold react.
  destruct (list_find _ _) as [[k p]|] eqn:Hf; [|discriminate].
  apply list_find_Some in Hf as (Hk & (Hpj & Hset & _) & _).
  destruct p as [pj [cb|] [|c|c a|c a|c a]]; try discriminate. simpl in Hpj. subst pj.
  intros [= <-]. exists k, cb, c, a. split; [exact Hk|].
  unfold uuid_of. simpl.
  destruct (heap st !! job); simpl;
    destruct (indexOf job (_active st)); simpl; repeat split.
Qed.

Lemma accounted_react job st st' :
  consistent st → accounted st → react job st = Some st' → accounted st'.
Proof.
  intros Hc [H1 H2 H3 H4 H5] Hr.
  destruct (react_result job st st' Hr)
    as (k & cb & c & rejection & Hk & Hps & Hd & Ha & _).
  apply react_fields in Hr as (_ & Hq & Hjs & Hh & _).
  set (p := {| p_job := job; p_callback := Some cb; p_state := Answered c rejection |}) in *.
  set (p' := {| p_job := job; p_callback := Some cb; p_state := Delivered c rejection |}) in *.
  destruct (insert_split (promises st) k p p' Hk) as [Hs1 Hs2].
  split; unfold status_of; rewrite ?Hq, ?Hjs, ?Hh, ?Hps, ?Hd, ?Ha.
  - erewrite promise_jobs_insert; [exact H1 | exact Hk | reflexivity].
  - rewrite Hs1 in H2. rewrite Hs2.
    rewrite filter_app, filter_cons_True, fmap_app, fmap_cons in H2 by reflexivity.
    rewrite filter_app, filter_cons_False, fmap_app by (simpl; discriminate).
    simpl in H2.
    assert (Hin : job ∈ _active st).
    { rewrite H2. apply elem_of_app. right. apply list_elem_of_here. }
    destruct (indexOf_split job (_active st) Hin) as (l1 & l2 & Hl & _ & Hi).
    rewrite Hi, Hl, delete_middle. rewrite Hl in H2.
    eapply Permutation_app_inv. exact H2.
  - erewrite answers_insert_same; [exact H3 | exact Hk | reflexivity].
  - intros q Hq'.
    apply elem_of_insert_cases in Hq' as [->|(i & Hne & Hi)];
      [| |eapply lookup_lt_Some; exact Hk].
    + apply (H4 p). eapply list_elem_of_lookup_2; exact Hk.
    + apply H4. eapply list_elem_of_lookup_2; exact Hi.
  - apply Forall_insert; [exact H5|].
    rewrite Forall_forall in H5.
    exact (H5 p (list_elem_of_lookup_2 _ _ _ Hk)).
Qed.

Lemma accounted_pass_of st ev now pre :
  wf st → accounted st → pass_of st ev = Some (now, pre) → accounted pre.
Proof.
  intros [Hc Hl] Ha. destruct ev; simpl; try discriminate.
  - destruct (enqueue _ _ _ _ _ _ _ _) as [st'|] eqn:He; [|discriminate].
    intros [= <- <-]. eapply accounted_enqueue; eassumption.
  - intros [= <- <-]. eapply accounted_same; [..|exact Ha]; reflexivity.
  - destruct (react job st) as [st'|] eqn:Hr; [|discriminate].
    intros [= <- <-]. eapply accounted_react; eassumption.
Qed.

Lemma accounted_step st ev :
  wf st → (∀ u, u ∈ submitted ev → u ∉ uuids st) →
  accounted st → accounted (step st ev).
Proof.
  intros Hwf Hfresh Ha. destruct (pass_of st ev) as [[now pre]|] eqn:Hp.
  - rewrite (pass_of_step _ _ _ _ Hp).
    destruct (wf_pass_of st ev now pre Hwf Hfresh Hp) as [Hpre _].
    apply accounted_process; [exact Hpre|].
    exact (accounted_pass_of st ev now pre Hwf Ha Hp).
  - destruct Hwf as [Hc Hl]. destruct ev; simpl in *; try discriminate.
    + unfold queueJob. destruct (enqueue _ _ _ _ _ _ _ _); [discriminate|]. exact Ha.
    + eapply accounted_same; [..|exact Ha]; reflexivity.
    + apply accounted_settle; assumption.
    + unfold finish. destruct (react job st); [discriminate|]. exact Ha.
    + eapply accounted_same; [..|exact Ha]; reflexivity.
    + apply accounted_then_resolve, Ha.
    + apply accounted_catch_reject, Ha.
Qed.

Lemma accounted_run evs : ∀ st,
  wf st → NoDup (uuids st ++ submitted_uuids evs) →
  accounted st → accounted (run evs st).
Proof.
  induction evs as [|ev evs IH]; intros st Hwf Hnd Ha; simpl; [exact Ha|].
  unfold submitted_uuids in Hnd. simpl in Hnd.
  assert (Hfresh : ∀ u, u ∈ submitted ev → u ∉ uuids st).
  { intros u Hu Hu'. apply NoDup_app in Hnd as (_ & Hd & _).
    apply (Hd u Hu'). apply elem_of_app. left. exact Hu. }
  destruct (wf_step st ev Hwf Hfresh) as [Hwf' Hu].
  apply IH; [exact Hwf' | | apply accounted_step; assumption].
  destruct Hu as [-> | ->].
  - eapply NoDup_app_drop_middle. exact Hnd.
  - rewrite <- app_assoc. exact Hnd.
Qed.

Lemma accounted_new ms : accounted (new ms).
Proof.
  split; simpl; try reflexivity; [|constructor].
  intros p H. apply elem_of_nil in H. contradiction.
Qed.

Lemma accounted_reachable ms evs :
  NoDup (submitted_uuids evs) → accounted (run evs (new ms)).
Proof.
  intros Hnd. apply accounted_run; [apply wf_new | exact Hnd | apply accounted_new].
Qed.

(** *** Reachable states *)

Ltac distinct :=
  vm_compute;
  repeat (apply NoDup_cons; split;
          [let H := fresh in
           rewrite ?elem_of_cons, elem_of_nil; intros H; intuition discriminate|]);
  apply NoDup_nil_2.

Lemma reachable_pass ms evs ev now pre :
  NoDup (submitted_uuids (evs ++ [ev])) →
  pass_of (run evs (new ms)) ev = Some (now, pre) →
  wf pre ∧ accounted pre ∧ run (evs ++ [ev]) (new ms) = _process now pre.
Proof.
  intros Hnd Hpo.
  assert (Hnd0 : NoDup (submitted_uuids evs)).
  { rewrite submitted_uuids_app in Hnd. apply NoDup_app in Hnd as (H & _). exact H. }
  destruct (wf_reachable ms evs Hnd0) as [Hwf Hu].
  assert (Hfresh : ∀ u, u ∈ submitted ev → u ∉ uuids (run evs (new ms))).
  { intros u Hin Hin'.
    destruct (uuids_run evs (new ms) (wf_new ms) Hnd0) as (l & Hl & Hsub).
    simpl in Hl. rewrite Hl in Hin'. apply Hsub in Hin'.
    rewrite submitted_uuids_app in Hnd. apply NoDup_app in Hnd as (_ & Hd & _).
    apply (Hd u Hin'). unfold submitted_uuids. simpl. rewrite app_nil_r. exact Hin. }
  destruct (wf_pass_of _ ev now pre Hwf Hfresh Hpo) as [Hpre _].
  split; [exact Hpre|]. split.
  - exact (accounted_pass_of _ ev now pre Hwf (accounted_reachable ms evs Hnd0) Hpo).
  - rewrite run_app. simpl. apply pass_of_step, Hpo.
Qed.

Lemma promises_counted (ps : list Promise) :
  length (filter (λ p, pending p = true) ps)
  + length (filter (λ p, pending p = false) ps)
  = length ps.
Proof.
  induction ps as [|p ps IH]; [reflexivity|].
  rewrite !filter_cons. destruct (pending p) eqn:Hp.
  - rewrite decide_True, decide_False by (reflexivity || discriminate).
    simpl. lia.
  - rewrite decide_False, decide_True by (reflexivity || discriminate).
    simpl. lia.
Qed.

Lemma well_answered_as (p : Promise) :
  is_Some (p_callback p) → well_answered p → answered_as p.
Proof.
  intros [cb Hcb]. unfold well_answered, answered_as, answers. rewrite Hcb.
  intros Hw. exists cb. split; [reflexivity|].
  destruct (p_state p) as [|c|[d|e0] r|[d|e0] [e|]|[d|e0] [e|]];
    try reflexivity; try discriminate;
    try (left; reflexivity);
    try (right; exists d, e; split; reflexivity);
    injection Hw as ->; left; reflexivity.
Qed.

(** No job is lost. After any events, the jobs [getJobs] returns are as
    many as those waiting in the queue, those active and those whose
    [finally] handler has run together, the first two as [getStatus] reports
    them. A job whose callback has been called and whose [finally] handler
    has not run yet is still counted as active. *)
Theorem jobs_are_waiting_active_or_answered
    (ms : ModuleManager.Modules) (evs : list Event) :
  NoDup (submitted_uuids evs) →
  let st := run evs (new ms) in
  length (getJobs st)
  = queueLength (getStatus st) + activeLength (getStatus st)
    + length (finished st).
Proof.
  intros Hnd st.
  destruct (accounted_reachable ms evs Hnd) as [H1 H2 _ _ _]. fold st in H1, H2.
  unfold getJobs, getStatus, finished. simpl.
  rewrite <- (Permutation_length H1), length_app, !length_fmap.
  rewrite (Permutation_length H2), length_fmap.
  pose proof (promises_counted (promises st)). lia.
Qed.

Lemma jobs_are_waiting_active_or_answered_witness :
  let st := run [submit "u0" None; Resume 9; submit "u1" None;
                 Settle 0 passing 11; Then 0 None; Catch 0; Finish 0 12;
                 Settle 1 JobLifecycle.rejecting 13; Then 1 None]
              (new (data_module BaseModule.STARTED)) in
  length (getJobs st)
  = queueLength (getStatus st) + activeLength (getStatus st)
    + length (finished st).
Proof.
  apply (jobs_are_waiting_active_or_answered (data_module BaseModule.STARTED)
           [submit "u0" None; Resume 9; submit "u1" None;
            Settle 0 passing 11; Then 0 None; Catch 0; Finish 0 12;
            Settle 1 JobLifecycle.rejecting 13; Then 1 None]).
  distinct.
Defined.

(** After any events, a registered job is in exactly one of two places.
    It waits in the queue, [QUEUED], not active and never handed to
    [execute]. Or the queue has handed it to [execute], once: then it is not
    in the queue, it is in the active set exactly until the [finally]
    handler of its promise has run, its status is [ACTIVE] while [execute] is
    suspended and [COMPLETED] afterwards, and what its promise has handed to
    the callback is among what the callbacks have received. So a job whose
    callback has been called is still active until that handler has run. *)
Theorem registered_job_has_one_place
    (ms : ModuleManager.Modules) (evs : list Event) (job : JobRef) :
  NoDup (submitted_uuids evs) →
  job ∈ getJobs (run evs (new ms)) →
  place (run evs (new ms)) job.
Proof.
  intros Hnd Hjob. set (st := run evs (new ms)) in *.
  destruct (wf_reachable ms evs Hnd) as [[Hc _] _]. fold st in Hc.
  destruct (accounted_reachable ms evs Hnd) as [H1 H2 H3 H4 _].
  fold st in H1, H2, H3, H4.
  unfold getJobs in Hjob. rewrite <- H1 in Hjob.
  apply elem_of_app in Hjob as [Hq|Hp].
  - destruct (queue_waiting _ Hc job Hq) as [(j & Hj & [Hs _] & _) Hnp].
    apply waiting; [exact Hq | apply waiting_is_not_active; assumption | | exact Hnp].
    unfold status_of. rewrite Hj. simpl. unfold Job.getStatus. rewrite Hs. reflexivity.
  - apply list_elem_of_fmap in Hp as (p & -> & Hp).
    assert (Hnq : p_job p ∉ _queue st).
    { intros Hq. destruct (queue_waiting _ Hc _ Hq) as [_ Hn].
      apply Hn. apply list_elem_of_fmap. eauto. }
    apply handed with (p := p); try assumption; try reflexivity.
    + rewrite H2. split.
      * intros Hin. apply list_elem_of_fmap in Hin as (q & Hqj & Hq).
        apply list_elem_of_filter in Hq as [Hqp Hq].
        apply list_elem_of_lookup_1 in Hq as [i Hi].
        pose proof Hp as Hp'. apply list_elem_of_lookup_1 in Hp' as [i' Hi'].
        assert (i = i'); [|congruence].
        eapply (NoDup_lookup _ _ _ _ (promises_nodup _ Hc)).
        -- rewrite list_lookup_fmap, Hi. reflexivity.
        -- rewrite list_lookup_fmap, Hi'. simpl. congruence.
      * intros Hpend. apply list_elem_of_fmap. exists p. split; [reflexivity|].
        apply list_elem_of_filter. auto.
    + apply H4, Hp.
    + intros a Ha. rewrite H3. apply list_elem_of_bind. eauto.
Qed.

Lemma registered_job_has_one_place_witness :
  place (run [submit "u0" None; Resume 9; Settle 0 passing 11; Then 0 None]
           (new (data_module BaseModule.STARTED))) 0.
Proof.
  apply (registered_job_has_one_place (data_module BaseModule.STARTED)
           [submit "u0" None; Resume 9; Settle 0 passing 11; Then 0 None] 0).
  - distinct.
  - vm_compute. apply list_elem_of_here.
Defined.

(** What the callbacks have received is what the promises have handed
    them. For each promise that is nothing before [.then(callback.resolve)]
    has run; after it the result, if [execute] returned one; and after
    [.catch(callback.reject)] the outcome of [execute], once, or the result
    and then, by [reject], what [resolve] threw when it was called. The
    queue calls [execute] at most once per job, on registered jobs only. *)
Theorem outcomes_are_delivered_once
    (ms : ModuleManager.Modules) (evs : list Event) :
  NoDup (submitted_uuids evs) →
  let st := run evs (new ms) in
  delivered st ≡ₚ promises st ≫= answers
  ∧ (∀ p, p ∈ promises st → answered_as p)
  ∧ NoDup (p_job <$> promises st)
  ∧ ∀ p, p ∈ promises st → p_job p ∈ getJobs st.
Proof.
  intros Hnd st.
  destruct (wf_reachable ms evs Hnd) as [[Hc _] _]. fold st in Hc.
  destruct (accounted_reachable ms evs Hnd) as [H1 _ H3 _ H5]. fold st in H1, H3, H5.
  split; [exact H3|]. split; [|split; [apply (promises_nodup _ Hc)|]].
  - intros p Hp. apply well_answered_as.
    + apply (promises_valid _ Hc p Hp).
    + rewrite Forall_forall in H5. apply H5, Hp.
  - intros p Hp. unfold getJobs. rewrite <- H1. apply elem_of_app. right.
    apply list_elem_of_fmap. eauto.
Qed.

Lemma outcomes_are_delivered_once_witness :
  let st := run [submit "u0" None; Resume 9; Settle 0 passing 11;
                 Then 0 (Some "resolve threw"%string); Catch 0; Finish 0 12]
              (new (data_module BaseModule.STARTED)) in
  delivered st ≡ₚ promises st ≫= answers
  ∧ (∀ p, p ∈ promises st → answered_as p)
  ∧ NoDup (p_job <$> promises st)
  ∧ ∀ p, p ∈ promises st → p_job p ∈ getJobs st.
Proof.
  apply (outcomes_are_delivered_once (data_module BaseModule.STARTED)
           [submit "u0" None; Resume 9; Settle 0 passing 11;
            Then 0 (Some "resolve threw"%string); Catch 0; Finish 0 12]).
  distinct.
Defined.

(** *** The callbacks the queue holds *)

Lemma uuid_of_same st st' job :
  uuids st' = uuids st → uuid_of st' job = uuid_of st job.
Proof.
  unfold uuids, uuid_of. intros H. rewrite <- !list_lookup_fmap, H. reflexivity.
Qed.

Lemma callbacks_held_process now st :
  wf st → callbacks_held st → callbacks_held (_process now st).
Proof.
  intros Hwf Hh.
  destruct (_process_pass now st Hwf) as [_ Hpass].
  destruct (_process_took now st Hwf) as (taken & [Hq Ha (ps & Hp & Hj & Hr)]).
  destruct (running_pending ps Hr) as [Hpend _].
  intros u. rewrite (pass_callbacks _ _ Hpass), (Hh u). split.
  - intros (job & Hu & Hor). exists job.
    split; [rewrite (uuid_of_same _ _ job (pass_uuids _ _ Hpass)); exact Hu|].
    destruct Hor as [Hin | (p & Hin & Hpj & Hpp)].
    + rewrite Hq in Hin. apply elem_of_app in Hin as [Hin|Hin]; [|left; exact Hin].
      right. rewrite <- Hj in Hin. apply list_elem_of_fmap in Hin as (p & -> & Hin).
      exists p. split; [rewrite Hp; apply elem_of_app; right; exact Hin|].
      split; [reflexivity|]. rewrite <- Hpend in Hin.
      apply list_elem_of_filter in Hin as [H _]. exact H.
    + right. exists p. split; [rewrite Hp; apply elem_of_app; left; exact Hin | auto].
  - intros (job & Hu & Hor). exists job.
    split; [rewrite <- (uuid_of_same _ _ job (pass_uuids _ _ Hpass)); exact Hu|].
    destruct Hor as [Hin | (p & Hin & Hpj & Hpp)].
    + left. rewrite Hq. apply elem_of_app. right. exact Hin.
    + rewrite Hp in Hin. apply elem_of_app in Hin as [Hin|Hin].
      * right. exists p. auto.
      * left. rewrite Hq. apply elem_of_app. left. rewrite <- Hj, <- Hpj.
        apply list_elem_of_fmap. eauto.
Qed.

Lemma callbacks_held_enqueue moduleName jobName payload callback options now uuid st st' :
  consistent st → uuid ∉ uuids st → callbacks_held st →
  enqueue moduleName jobName payload callback options now uuid st = Return st' →
  callbacks_held st'.
Proof.
  intros Hc Hfresh Hh He.
  apply enqueue_fields in He as (_ & _ & Hq & _ & Hheap & Hcb & _ & Hps & _).
  assert (Hold : ∀ job, job < length (heap st) → uuid_of st' job = uuid_of st job).
  { intros job Hlt. unfold uuid_of. rewrite Hheap, lookup_app_l by exact Hlt. reflexivity. }
  assert (Hnew : uuid_of st' (length (heap st)) = Some uuid).
  { unfold uuid_of. rewrite Hheap, list_lookup_middle by reflexivity. reflexivity. }
  assert (Hlt : ∀ job, job ∈ _queue st
                       ∨ (∃ p, p ∈ promises st ∧ p_job p = job ∧ pending p = true) →
                       job < length (heap st)).
  { intros job [Hin | (p & Hin & <- & _)].
    - destruct (queue_waiting _ Hc job Hin) as [(jr & Hjr & _) _].
      eapply lookup_lt_Some; exact Hjr.
    - apply lookup_lt_is_Some. apply (promises_valid _ Hc p Hin). }
  intros u. rewrite Hcb, Hq, Hps. split.
  - intros Hsome. destruct (decide (u = uuid)) as [->|Hne].
    + exists (length (heap st)). split; [exact Hnew|]. left.
      apply elem_of_app. right. apply list_elem_of_here.
    + rewrite lookup_insert_ne in Hsome by congruence.
      apply Hh in Hsome as (job & Hu & Hor). exists job.
      split; [rewrite Hold; [exact Hu | apply Hlt, Hor]|].
      destruct Hor as [Hin | Hp]; [left; apply elem_of_app; left; exact Hin | right; exact Hp].
  - intros (job & Hu & Hor).
    destruct (decide (u = uuid)) as [->|Hne]; [rewrite lookup_insert_eq; eauto|].
    rewrite lookup_insert_ne by congruence. apply Hh.
    assert (Hor' : job ∈ _queue st
                   ∨ (∃ p, p ∈ promises st ∧ p_job p = job ∧ pending p = true)).
    { destruct Hor as [Hin | Hp]; [|right; exact Hp].
      apply elem_of_app in Hin as [Hin|Hin]; [left; exact Hin|].
      apply list_elem_of_singleton in Hin. subst job. congruence. }
    exists job. split; [rewrite <- Hold; [exact Hu | apply Hlt, Hor'] | exact Hor'].
Qed.

Lemma callbacks_held_settle job h now st :
  callbacks_held st → callbacks_held (settle job h now st).
Proof.
  intros Hh u.
  destruct (settle_fields job h now st) as (_ & _ & Hq & _ & Hcb & _).
  rewrite Hcb, Hq, (Hh u).
  assert (Hu : ∀ r, uuid_of (settle job h now st) r = uuid_of st r).
  { intros r. apply uuid_of_same, uuids_settle. }
  assert (Hp : ∀ r, (∃ p, p ∈ promises (settle job h now st) ∧ p_job p = r ∧ pending p = true)
                    ↔ (∃ p, p ∈ promises st ∧ p_job p = r ∧ pending p = true)).
  { intros r. unfold settle.
    destruct (list_find _ _) as [[k p]|] eqn:Hf; [|reflexivity].
    apply list_find_Some in Hf as (Hk & [Hpj Hrun] & _).
    destruct (heap st !! job); [|reflexivity].
    destruct (Job.execute_body _ _ _) as [[j' c] effs]. simpl.
    apply (pending_insert (promises st) k p); [exact Hk | simpl; congruence | | reflexivity].
    unfold pending. unfold is_running in Hrun.
    destruct (p_state p); [reflexivity | discriminate..]. }
  split; intros (r & Hr & Hor); exists r.
  - split; [rewrite Hu; exact Hr|]. destruct Hor as [H|H]; [left; exact H | right; apply Hp, H].
  - split; [rewrite <- Hu; exact Hr|]. destruct Hor as [H|H]; [left; exact H | right; apply Hp, H].
Qed.

Lemma callbacks_held_hand_over k p p' calls st :
  callbacks_held st → promises st !! k = Some p →
  p_job p' = p_job p → pending p = true → pending p' = true →
  callbacks_held (hand_over k p' calls st).
Proof.
  intros Hh Hk Hj Hpp Hpp' u. simpl. rewrite (Hh u).
  split; intros (r & Hr & Hor); exists r; (split; [exact Hr|]);
    (destruct Hor as [H|H]; [left; exact H | right]);
    apply (pending_insert (promises st) k p p' Hk Hj Hpp Hpp' r); exact H.
Qed.

Lemma callbacks_held_then_resolve job t st :
  callbacks_held st → callbacks_held (then_resolve job t st).
Proof.
  intros Hh.
  destruct (then_resolve_result job t st) as [-> | (k & cb & c & Hk & ->)];
    [exact Hh|].
  eapply callbacks_held_hand_over; [exact Hh | exact Hk | reflexivity..].
Qed.

Lemma callbacks_held_catch_reject job st :
  callbacks_held st → callbacks_held (catch_reject job st).
Proof.
  intros Hh.
  destruct (catch_reject_result job st) as [-> | (k & cb & c & r & Hk & ->)];
    [exact Hh|].
  eapply callbacks_held_hand_over; [exact Hh | exact Hk | reflexivity..].
Qed.

Lemma callbacks_held_react job st st' :
  consistent st → callbacks_held st → react job st = Some st' →
  callbacks_held st'.
Proof.
  intros Hc Hh Hr.
  destruct (react_result job st st' Hr)
    as (k & cb & c & rejection & Hk & Hps & _ & _ & Hcb).
  apply react_fields in Hr as (_ & Hq & _ & Hheap & _).
  set (p := {| p_job := job; p_callback := Some cb; p_state := Answered c rejection |}) in *.
  set (p' := {| p_job := job; p_callback := Some cb; p_state := Delivered c rejection |}) in *.
  assert (Hpin : p ∈ promises st) by (eapply list_elem_of_lookup_2; exact Hk).
  destruct (promises_valid _ Hc p Hpin) as [[j Hj] _]. simpl in Hj.
  assert (Hu0 : uuid_of st job = Some (Job.getUuid j)).
  { unfold uuid_of. rewrite Hj. reflexivity. }
  rewrite Hu0 in Hcb.
  assert (Huu : ∀ r, uuid_of st' r = uuid_of st r).
  { intros r. unfold uuid_of. rewrite Hheap. reflexivity. }
  assert (Hother : ∀ r, r ≠ job → uuid_of st r ≠ Some (Job.getUuid j)).
  { intros r Hne Hr'. apply Hne.
    unfold uuid_of in Hr'. 
    eapply (NoDup_lookup _ _ _ _ (uuids_unique _ Hc)).
    - unfold uuids. rewrite list_lookup_fmap. exact Hr'.
    - unfold uuids. rewrite list_lookup_fmap, Hj. reflexivity. }
  assert (Hjq : job ∉ _queue st).
  { intros Hin. destruct (queue_waiting _ Hc job Hin) as [_ Hn].
    apply Hn. apply list_elem_of_fmap. exists p. auto. }
  assert (Hpend : ∀ r, (∃ q, q ∈ promises st' ∧ p_job q = r ∧ pending q = true)
                       ↔ r ≠ job ∧ ∃ q, q ∈ promises st ∧ p_job q = r ∧ pending q = true).
  { intros r. rewrite Hps. split.
    - intros (q & Hq' & Hqj & Hqp).
      apply elem_of_insert_cases in Hq' as [->|(i & Hne & Hi)];
        [discriminate | |eapply lookup_lt_Some; exact Hk].
      split; [|exists q; split; [eapply list_elem_of_lookup_2; exact Hi | auto]].
      intros ->. apply Hne.
      eapply (NoDup_lookup _ _ _ _ (promises_nodup _ Hc)).
      + rewrite list_lookup_fmap, Hi. simpl. rewrite Hqj. reflexivity.
      + rewrite list_lookup_fmap, Hk. reflexivity.
    - intros (Hne & q & Hq' & Hqj & Hqp). exists q. split; [|auto].
      eapply elem_of_insert_other; [exact Hk | exact Hq'|].
      intros ->. simpl in Hqj. congruence. }
  intros u. rewrite Hcb, Hq. split.
  - intros Hsome.
    assert (Hne : u ≠ Job.getUuid j).
    { intros ->. rewrite lookup_delete_eq in Hsome. destruct Hsome; discriminate. }
    rewrite lookup_delete_ne in Hsome by congruence.
    apply Hh in Hsome as (r & Hr' & Hor). exists r.
    split; [rewrite Huu; exact Hr'|].
    destruct Hor as [H|H]; [left; exact H|]. right. apply Hpend.
    split; [|exact H]. intros ->. congruence.
  - intros (r & Hr' & Hor). rewrite Huu in Hr'.
    assert (Hrj : r ≠ job).
    { destruct Hor as [H|H]; [intros ->; contradiction | apply Hpend in H; tauto]. }
    rewrite lookup_delete_ne.
    + apply Hh. exists r. split; [exact Hr'|].
      destruct Hor as [H|H]; [left; exact H | right; apply Hpend in H; tauto].
    + intros <-. apply (Hother r Hrj Hr').
Qed.

Lemma callbacks_held_pass_of st ev now pre :
  wf st → (∀ u, u ∈ submitted ev → u ∉ uuids st) → callbacks_held st →
  pass_of st ev = Some (now, pre) → callbacks_held pre.
Proof.
  intros [Hc Hl] Hfresh Hh. destruct ev; simpl; try discriminate.
  - destruct (enqueue _ _ _ _ _ _ _ _) as [st'|] eqn:He; [|discriminate].
    intros [= <- <-]. eapply callbacks_held_enqueue; [exact Hc | | exact Hh | exact He].
    apply Hfresh. simpl. apply list_elem_of_here.
  - intros [= <- <-]. exact Hh.
  - destruct (react job st) as [st'|] eqn:Hr; [|discriminate].
    intros [= <- <-]. eapply callbacks_held_react; eassumption.
Qed.

Lemma callbacks_held_step st ev :
  wf st → (∀ u, u ∈ submitted ev → u ∉ uuids st) →
  callbacks_held st → callbacks_held (step st ev).
Proof.
  intros Hwf Hfresh Hh. destruct (pass_of st ev) as [[now pre]|] eqn:Hp.
  - rewrite (pass_of_step _ _ _ _ Hp).
    destruct (wf_pass_of st ev now pre Hwf Hfresh Hp) as [Hpre _].
    apply callbacks_held_process; [exact Hpre|].
    exact (callbacks_held_pass_of st ev now pre Hwf Hfresh Hh Hp).
  - destruct ev; simpl in *; try discriminate.
    + unfold queueJob. destruct (enqueue _ _ _ _ _ _ _ _); [discriminate|]. exact Hh.
    + exact Hh.
    + apply callbacks_held_settle, Hh.
    + unfold finish. destruct (react job st); [discriminate|]. exact Hh.
    + exact Hh.
    + apply callbacks_held_then_resolve, Hh.
    + apply callbacks_held_catch_reject, Hh.
Qed.

Lemma callbacks_held_run evs : ∀ st,
  wf st → NoDup (uuids st ++ submitted_uuids evs) →
  callbacks_held st → callbacks_held (run evs st).
Proof.
  induction evs as [|ev evs IH]; intros st Hwf Hnd Hh; simpl; [exact Hh|].
  unfold submitted_uuids in Hnd. simpl in Hnd.
  assert (Hfresh : ∀ u, u ∈ submitted ev → u ∉ uuids st).
  { intros u Hu Hu'. apply NoDup_app in Hnd as (_ & Hd & _).
    apply (Hd u Hu'). apply elem_of_app. left. exact Hu. }
  destruct (wf_step st ev Hwf Hfresh) as [Hwf' Hu].
  apply IH; [exact Hwf' | | apply callbacks_held_step; assumption].
  destruct Hu as [-> | ->].
  - eapply NoDup_app_drop_middle. exact Hnd.
  - rewrite <- app_assoc. exact Hnd.
Qed.

(** The queue holds a callback for a uuid exactly when the job of that
    uuid waits in the queue or is in the active set: a callback is
    registered with the job and deleted when its outcome has been handed
    over, whatever the outcome. *)
Theorem callbacks_are_those_of_unanswered_jobs
    (ms : ModuleManager.Modules) (evs : list Event) :
  NoDup (submitted_uuids evs) →
  let st := run evs (new ms) in
  ∀ u, is_Some (_callbacks st !! u) ↔
    ∃ job, uuid_of st job = Some u ∧ (job ∈ _queue st ∨ job ∈ _active st).
Proof.
  intros Hnd st u.
  assert (Hh : callbacks_held st).
  { apply callbacks_held_run; [apply wf_new | exact Hnd|].
    intros v. simpl. rewrite lookup_empty. split.
    - intros [? ?]. discriminate.
    - intros (job & _ & [H | (p & H & _)]); apply elem_of_nil in H; contradiction. }
  destruct (accounted_reachable ms evs Hnd) as [_ H2 _ _ _]. fold st in H2.
  rewrite (Hh u). split; intros (job & Hu & Hor); exists job; (split; [exact Hu|]);
    (destruct Hor as [H|H]; [left; exact H | right]).
  - rewrite H2. destruct H as (p & Hp & <- & Hpp).
    apply list_elem_of_fmap. exists p. split; [reflexivity|].
    apply list_elem_of_filter. auto.
  - rewrite H2 in H. apply list_elem_of_fmap in H as (p & -> & Hp).
    apply list_elem_of_filter in Hp as [Hpp Hp]. eauto.
Qed.

Lemma callbacks_are_those_of_unanswered_jobs_witness :
  let st := run [submit "u0" None; Resume 9; submit "u1" None;
                 Settle 0 passing 11; Then 0 None; Catch 0; Finish 0 12]
              (new (data_module BaseModule.STARTED)) in
  is_Some (_callbacks st !! "u1"%string) ↔
    ∃ job, uuid_of st job = Some "u1"%string
           ∧ (job ∈ _queue st ∨ job ∈ _active st).
Proof.
  apply (callbacks_are_those_of_unanswered_jobs (data_module BaseModule.STARTED)
           [submit "u0" None; Resume 9; submit "u1" None;
            Settle 0 passing 11; Then 0 None; Catch 0; Finish 0 12]).
  distinct.
Defined.

(** *** A paused queue *)

Lemma _process_paused now st : _isPaused st = true → _process now st = st.
Proof.
  intros Hp. unfold _process. destruct (_processLock st); [reflexivity|].
  rewrite Hp. reflexivity.
Qed.

Lemma settle_promise_jobs job h now st :
  p_job <$> promises (settle job h now st) = p_job <$> promises st.
Proof.
  unfold settle. destruct (list_find _ _) as [[k p]|] eqn:Hf; [|reflexivity].
  apply list_find_Some in Hf as (Hk & [Hpj _] & _).
  destruct (heap st !! job); [|reflexivity].
  destruct (Job.execute_body _ _ _) as [[j' c] effs]. simpl.
  eapply promise_jobs_insert; [exact Hk | simpl; congruence].
Qed.

Lemma paused_step st ev :
  _isPaused st = true → is_resume ev = false →
  _isPaused (step st ev) = true
  ∧ p_job <$> promises (step st ev) = p_job <$> promises st
  ∧ _queue st `prefix_of` _queue (step st ev)
  ∧ length (_active (step st ev)) ≤ length (_active st).
Proof.
  intros Hp Hev. destruct ev; simpl in *; try discriminate.
  - unfold queueJob. destruct (enqueue _ _ _ _ _ _ _ _) as [st1|] eqn:He; simpl.
    + apply enqueue_fields in He as (_ & Ha & Hq & _ & _ & _ & _ & Hps & _ & Hpa & _).
      rewrite _process_paused by congruence.
      rewrite Hpa, Hps, Hq, Ha. repeat split; [exact Hp | apply prefix_app_r; reflexivity | lia].
    + repeat split; [exact Hp | reflexivity | lia].
  - repeat split; [reflexivity | lia].
  - destruct (settle_fields job h now st) as (_ & Ha & Hq & _ & _ & _ & _ & Hpa & _).
    rewrite Hpa, Ha, Hq, settle_promise_jobs. repeat split; [exact Hp | reflexivity | lia].
  - unfold finish. destruct (react job st) as [st1|] eqn:Hr.
    + destruct (react_result job st st1 Hr) as (k & cb & c & rejection & Hk & Hps & _).
      apply react_fields in Hr as (_ & Hq & _ & _ & _ & Hpa & _ & Hlen).
      rewrite _process_paused by congruence.
      rewrite Hpa, Hq, Hps. repeat split; [exact Hp | | reflexivity | exact Hlen].
      eapply promise_jobs_insert; [exact Hk | reflexivity].
    + repeat split; [exact Hp | reflexivity | lia].
  - repeat split; [exact Hp | reflexivity | lia].
  - destruct (then_resolve_fields job resolve_throws st)
      as (_ & Ha & Hq & _ & _ & _ & _ & Hpa & _).
    rewrite Hpa, Ha, Hq. repeat split; [exact Hp | | reflexivity | lia].
    destruct (then_resolve_result job resolve_throws st)
      as [-> | (k & cb & c & Hk & ->)]; [reflexivity|].
    simpl. eapply promise_jobs_insert; [exact Hk | reflexivity].
  - destruct (catch_reject_fields job st)
      as (_ & Ha & Hq & _ & _ & _ & _ & Hpa & _).
    rewrite Hpa, Ha, Hq. repeat split; [exact Hp | | reflexivity | lia].
    destruct (catch_reject_result job st)
      as [-> | (k & cb & c & r & Hk & ->)]; [reflexivity|].
    simpl. eapply promise_jobs_insert; [exact Hk | reflexivity].
Qed.

(** While the queue is paused it hands no job to [execute]: whatever
    is submitted, settles or finishes, as long as [resume] is not called
    the queue stays paused, the calls of [execute] are those made before,
    the queue keeps what was waiting in front of what arrives, and the
    active set does not grow. *)
Theorem paused_queue_starts_nothing (evs : list Event) (st : State) :
  _isPaused st = true →
  Forall (λ ev, is_resume ev = false) evs →
  let st' := run evs st in
  _isPaused st' = true
  ∧ p_job <$> promises st' = p_job <$> promises st
  ∧ _queue st `prefix_of` _queue st'
  ∧ length (_active st') ≤ length (_active st).
Proof.
  intros Hp Hevs. revert st Hp.
  induction Hevs as [|ev evs Hev _ IH]; intros st Hp; simpl.
  - repeat split; [exact Hp | reflexivity | lia].
  - destruct (paused_step st ev Hp Hev) as (H1 & H2 & H3 & H4).
    destruct (IH (step st ev) H1) as (H1' & H2' & H3' & H4').
    split; [exact H1'|]. split; [congruence|].
    split; [etransitivity; eassumption | lia].
Qed.

Lemma paused_queue_starts_nothing_witness :
  let st := new (data_module BaseModule.STARTED) in
  let st' := run [submit "u0" None; Pause; submit "u1" None] st in
  _isPaused st' = true
  ∧ p_job <$> promises st' = p_job <$> promises st
  ∧ _queue st `prefix_of` _queue st'
  ∧ length (_active st') ≤ length (_active st).
Proof.
  apply (paused_queue_starts_nothing [submit "u0" None; Pause; submit "u1" None]
           (new (data_module BaseModule.STARTED))).
  - reflexivity.
  - repeat constructor.
Defined.

(** *** The most urgent unit *)

Lemma sorted_lookup {A} (R : A → A → Prop) (l : list A) :
  StronglySorted R l →
  ∀ i j a b, l !! i = Some a → l !! j = Some b → i < j → R a b.
Proof.
  induction 1 as [|x l Hs IH Hall]; intros i j a b Hi Hj Hlt.
  - rewrite lookup_nil in Hi. discriminate.
  - destruct j as [|j]; [lia|]. simpl in Hj. destruct i as [|i]; simpl in Hi.
    + injection Hi as <-. rewrite Forall_forall in Hall.
      apply Hall. eapply list_elem_of_lookup_2; exact Hj.
    + eapply IH; [exact Hi | exact Hj | lia].
Qed.

Lemma filter_sublist {A} (P : A → Prop) `{!∀ x, Decision (P x)} (l1 l2 : list A) :
  l1 `sublist_of` l2 → filter P l1 `sublist_of` filter P l2.
Proof.
  induction 1 as [|x l1 l2 _ IH|x l1 l2 _ IH].
  - constructor.
  - rewrite !filter_cons. destruct (decide (P x)); [constructor|]; exact IH.
  - rewrite filter_cons. destruct (decide (P x)); [constructor|]; exact IH.
Qed.

Lemma lookup_pair_sublist {A} (l : list A) :
  ∀ i j a b, l !! i = Some a → l !! j = Some b → i < j →
    [a; b] `sublist_of` l.
Proof.
  induction l as [|x l IH]; intros i j a b Hi Hj Hlt.
  - rewrite lookup_nil in Hi. discriminate.
  - destruct j as [|j]; [lia|]. simpl in Hj. destruct i as [|i]; simpl in Hi.
    + injection Hi as <-. apply sublist_skip. apply singleton_sublist_l.
      eapply list_elem_of_lookup_2; exact Hj.
    + apply sublist_cons. eapply IH; [exact Hi | exact Hj | lia].
Qed.

Lemma pair_sublist_snoc {A} (l : list A) (a b n : A) :
  [a; b] `sublist_of` l ++ [n] →
  [a; b] `sublist_of` l ∨ (b = n ∧ a ∈ l).
Proof.
  intros H. apply sublist_app_r in H as (k1 & k2 & Heq & H1 & H2).
  destruct k2 as [|y k2].
  - rewrite app_nil_r in Heq. subst k1. left. exact H1.
  - assert (k2 = [] ∧ y = n) as [-> ->].
    { inversion H2 as [|? ? ? H3|? ? ? H3]; subst.
      - apply sublist_nil_r in H3. auto.
      - apply sublist_nil_r in H3. discriminate. }
    destruct k1 as [|x [|x' k1]]; simpl in Heq; try discriminate.
    + injection Heq as -> ->. right. split; [reflexivity|].
      apply singleton_sublist_l, H1.
    + injection Heq as _ _ Heq. destruct k1; discriminate.
Qed.

Lemma sort_fifo h (l : list JobRef) :
  (∀ a b, [a; b] `sublist_of` l → priority_of h a = priority_of h b → a < b) →
  ∀ a b, [a; b] `sublist_of` sort (by_priority h) l →
    priority_of h a = priority_of h b → a < b.
Proof.
  intros Hl a b Hab Heq. apply Hl; [|exact Heq].
  apply (filter_sublist (λ r, priority_of h r = priority_of h a)) in Hab.
  rewrite sort_stable in Hab.
  rewrite !filter_cons, filter_nil in Hab.
  rewrite decide_True in Hab by reflexivity.
  rewrite decide_True in Hab by (symmetry; exact Heq).
  etransitivity; [exact Hab | apply sublist_filter].
Qed.

Lemma process_loop_sublist fuel now : ∀ i st,
  consistent st →
  _queue (process_loop fuel now i st).1 `sublist_of` _queue st.
Proof.
  induction fuel as [|fuel IH]; intros i st Hc; [reflexivity|].
  rewrite process_loop_round. destruct (_queue st !! i) as [job|] eqn:Hi;
    [|reflexivity].
  destruct (canRunJobs_of st job) eqn:Hcan; cbn [negb]; [|apply IH, Hc].
  assert (Hin : job ∈ _queue st) by (eapply list_elem_of_lookup_2; exact Hi).
  destruct (dispatch_waiting job now st Hc Hin Hcan)
    as (st1 & cb & j & l1 & l2 & -> & Hc1 & Hq & Hq1 & _).
  assert (Hs1 : _queue st1 `sublist_of` _queue st).
  { rewrite Hq, Hq1. apply sublist_app; [reflexivity | apply sublist_cons; reflexivity]. }
  destruct (_concurrency st1 <=? length (_active st1)); [exact Hs1|].
  etransitivity; [apply IH, Hc1 | exact Hs1].
Qed.

Lemma fifo_process now st : wf st → fifo st → fifo (_process now st).
Proof.
  intros [Hc Hl] Hf. unfold _process. rewrite Hl.
  destruct (_ || _); [exact Hf|].
  set (st2 := set_queue _ (set_processLock true st)).
  assert (Hc2 : consistent st2).
  { eapply consistent_same; [..|exact Hc]; try reflexivity. apply sort_perm. }
  pose proof (process_loop_sublist (length (_queue st2)) now 0 st2 Hc2) as Hsub.
  destruct (process_loop_pass (length (_queue st2)) now 0 st2 Hc2)
    as (st3 & Hst3 & _ & Hp3 & _).
  rewrite Hst3 in *. simpl in Hsub.
  intros a b Hab. simpl in Hab |- *.
  assert (Hp : ∀ r, r ∈ [a; b] → priority_of (heap st3) r = priority_of (heap st) r).
  { intros r Hr. unfold priority_of. rewrite (pass_heap _ _ Hp3); [reflexivity|].
    right. eapply elem_of_sublist; eassumption. }
  rewrite (Hp a), (Hp b) by (repeat constructor).
  apply (sort_fifo (heap st) (_queue st) Hf).
  etransitivity; [exact Hab | exact Hsub].
Qed.

Lemma fifo_same st st' :
  heap st' = heap st → _queue st' = _queue st → fifo st → fifo st'.
Proof. intros Hh Hq Hf a b. rewrite Hh, Hq. apply Hf. Qed.

Lemma fifo_enqueue moduleName jobName payload callback options now uuid st st' :
  consistent st → fifo st →
  enqueue moduleName jobName payload callback options now uuid st = Return st' →
  fifo st'.
Proof.
  intros Hc Hf He.
  apply enqueue_fields in He as (_ & _ & Hq & _ & Hh & _).
  assert (Hlt : ∀ r, r ∈ _queue st → r < length (heap st)).
  { intros r Hr. destruct (queue_waiting _ Hc r Hr) as [(jr & Hjr & _) _].
    eapply lookup_lt_Some; exact Hjr. }
  intros a b Hab. rewrite Hq in Hab. rewrite Hh.
  apply pair_sublist_snoc in Hab as [Hab | [-> Ha]].
  - unfold priority_of. rewrite !lookup_app_l; [apply Hf, Hab | |].
    + apply Hlt. eapply elem_of_sublist; [|exact Hab]. repeat constructor.
    + apply Hlt. eapply elem_of_sublist; [|exact Hab]. repeat constructor.
  - intros _. apply Hlt, Ha.
Qed.

Lemma body_priority h now j :
  Job.getPriority (Job.execute_body h now j).1.1 = Job.getPriority j.
Proof. rewrite JobFacts.body_job. reflexivity. Qed.

Lemma fifo_settle job h now st : fifo st → fifo (settle job h now st).
Proof.
  intros Hf. unfold settle.
  destruct (list_find _ _) as [[k p]|]; [|exact Hf].
  destruct (heap st !! job) as [j|] eqn:Hj; [|exact Hf].
  pose proof (body_priority h now j) as Hbp.
  destruct (Job.execute_body h now j) as [[j' c] effs]. simpl in Hbp.
  assert (Hp : ∀ r, priority_of (<[job := j']> (heap st)) r = priority_of (heap st) r).
  { intros r. unfold priority_of. destruct (decide (r = job)) as [->|Hne].
    - rewrite list_lookup_insert_eq by (eapply lookup_lt_Some; exact Hj).
      rewrite Hj. simpl. exact Hbp.
    - rewrite list_lookup_insert_ne by congruence. reflexivity. }
  intros a b Hab. simpl in *. rewrite !Hp. apply Hf, Hab.
Qed.

Lemma fifo_pass_of st ev now pre :
  wf st → fifo st → pass_of st ev = Some (now, pre) → fifo pre.
Proof.
  intros [Hc Hl] Hf. destruct ev; simpl; try discriminate.
  - destruct (enqueue _ _ _ _ _ _ _ _) as [st'|] eqn:He; [|discriminate].
    intros [= <- <-]. eapply fifo_enqueue; eassumption.
  - intros [= <- <-]. exact Hf.
  - destruct (react job st) as [st'|] eqn:Hr; [|discriminate].
    intros [= <- <-]. apply react_fields in Hr as (_ & Hq & _ & Hh & _).
    eapply fifo_same; eassumption.
Qed.

Lemma fifo_step st ev :
  wf st → (∀ u, u ∈ submitted ev → u ∉ uuids st) →
  fifo st → fifo (step st ev).
Proof.
  intros Hwf Hfresh Hf. destruct (pass_of st ev) as [[now pre]|] eqn:Hp.
  - rewrite (pass_of_step _ _ _ _ Hp).
    destruct (wf_pass_of st ev now pre Hwf Hfresh Hp) as [Hpre _].
    apply fifo_process; [exact Hpre|].
    exact (fifo_pass_of st ev now pre Hwf Hf Hp).
  - destruct ev; simpl in *; try discriminate.
    + unfold queueJob. destruct (enqueue _ _ _ _ _ _ _ _); [discriminate|]. exact Hf.
    + exact Hf.
    + apply fifo_settle, Hf.
    + unfold finish. destruct (react job st); [discriminate|]. exact Hf.
    + exact Hf.
    + destruct (then_resolve_fields job resolve_throws st)
        as (_ & _ & Hq & _ & _ & _ & Hh & _).
      eapply fifo_same; eassumption.
    + destruct (catch_reject_fields job st)
        as (_ & _ & Hq & _ & _ & _ & Hh & _).
      eapply fifo_same; eassumption.
Qed.

Lemma fifo_run evs : ∀ st,
  wf st → NoDup (uuids st ++ submitted_uuids evs) →
  fifo st → fifo (run evs st).
Proof.
  induction evs as [|ev evs IH]; intros st Hwf Hnd Hf; simpl; [exact Hf|].
  unfold submitted_uuids in Hnd. simpl in Hnd.
  assert (Hfresh : ∀ u, u ∈ submitted ev → u ∉ uuids st).
  { intros u Hu Hu'. apply NoDup_app in Hnd as (_ & Hd & _).
    apply (Hd u Hu'). apply elem_of_app. left. exact Hu. }
  destruct (wf_step st ev Hwf Hfresh) as [Hwf' Hu].
  apply IH; [exact Hwf' | | apply fifo_step; assumption].
  destruct Hu as [-> | ->].
  - eapply NoDup_app_drop_middle. exact Hnd.
  - rewrite <- app_assoc. exact Hnd.
Qed.

Lemma fifo_reachable ms evs :
  NoDup (submitted_uuids evs) → fifo (run evs (new ms)).
Proof.
  intros Hnd. apply fifo_run; [apply wf_new | exact Hnd|].
  intros a b Hab. simpl in Hab. apply sublist_nil_r in Hab. discriminate.
Qed.

Lemma process_loop_first fuel now : ∀ i st k job,
  consistent st → i ≤ k → k - i < fuel →
  _queue st !! k = Some job → canRunJobs_of st job = true →
  (∀ i' r, i ≤ i' < k → _queue st !! i' = Some r → canRunJobs_of st r = false) →
  dispatched (process_loop fuel now i st).1 job.
Proof.
  induction fuel as [|fuel IH]; intros i st k job Hc Hik Hfuel Hk Hcan Hskip; [lia|].
  rewrite process_loop_round. destruct (decide (i = k)) as [->|Hne].
  - rewrite Hk, Hcan. cbn [negb].
    assert (Hin : job ∈ _queue st) by (eapply list_elem_of_lookup_2; exact Hk).
    destruct (dispatch_waiting job now st Hc Hin Hcan)
      as (st1 & cb & j & l1 & l2 & -> & Hc1 & Hq & Hq1 & Ha1 & Hj & _ & Hh1 & _ & Hp1 & _).
    assert (Hnq : job ∉ _queue st1).
    { pose proof (queue_nodup _ Hc) as Hnd. rewrite Hq in Hnd. rewrite Hq1.
      apply NoDup_app in Hnd as (_ & H1 & H2). apply NoDup_cons in H2 as [H2 _].
      intros H. apply elem_of_app in H as [H|H]; [|contradiction].
      apply (H1 job H), list_elem_of_here. }
    assert (Hd : dispatched st1 job).
    { split; [rewrite Ha1; apply elem_of_app; right; apply list_elem_of_here|].
      split.
      - unfold status_of. rewrite Hh1.
        rewrite list_lookup_insert_eq by (eapply lookup_lt_Some; exact Hj). reflexivity.
      - exists cb. rewrite Hp1. apply elem_of_app. right. apply list_elem_of_here. }
    destruct (_concurrency st1 <=? length (_active st1)); [exact Hd|].
    destruct (process_loop_pass fuel now (S k) st1 Hc1) as (st2 & -> & _ & Hp2 & _).
    simpl. eapply dispatched_pass; eassumption.
  - assert (Hi : is_Some (_queue st !! i)).
    { apply lookup_lt_is_Some. apply lookup_lt_Some in Hk. lia. }
    destruct Hi as [r Hr]. rewrite Hr.
    rewrite (Hskip i r) by (try exact Hr; lia). cbn [negb].
    apply (IH (S i) st k job); try assumption; try lia.
    intros i' r' Hi'. apply Hskip. lia.
Qed.

Lemma _process_first now st k job :
  wf st → _isPaused st = false → length (_active st) < _concurrency st →
  list_find (λ r, canRunJobs_of st r = true)
    (sort (by_priority (heap st)) (_queue st)) = Some (k, job) →
  dispatched (_process now st) job.
Proof.
  intros [Hc Hl] Hpa Hlt Hf.
  apply list_find_Some in Hf as (Hk & Hcan & Hbefore).
  unfold _process. rewrite Hl, Hpa.
  destruct (Nat.leb_spec (_concurrency st) (length (_active st))) as [|_]; [lia|].
  destruct (Nat.eqb_spec (length (_queue st)) 0) as [H0|_].
  { apply lookup_lt_Some in Hk.
    rewrite (Permutation_length (sort_perm _ _)) in Hk. lia. }
  cbn [orb].
  set (st2 := set_queue _ (set_processLock true st)).
  assert (Hc2 : consistent st2).
  { eapply consistent_same; [..|exact Hc]; try reflexivity. apply sort_perm. }
  pose proof (process_loop_first (length (_queue st2)) now 0 st2 k job Hc2) as Hd.
  destruct (process_loop_pass (length (_queue st2)) now 0 st2 Hc2)
    as (st3 & Hst3 & _).
  rewrite Hst3 in *. simpl in Hd.
  assert (Hd3 : dispatched st3 job).
  { apply Hd; [lia | | exact Hk | exact Hcan |].
    - apply lookup_lt_Some in Hk. unfold st2. simpl. lia.
    - intros i' r [_ Hi'] Hr. apply not_true_is_false.
      apply (Hbefore i' r Hr Hi'). }
  destruct Hd3 as (H1 & H2 & H3). split; [exact H1 | split; [exact H2 | exact H3]].
Qed.

(** A dispatch pass that has room starts the unit that is due first:
    when the queue is not paused, the active set is below the limit and some
    waiting unit belongs to a module that can run jobs, the pass hands to
    [execute] the one of these units with the least priority number, and
    among those of that priority the one submitted first. *)
Theorem first_due_runnable_unit_is_started
    (ms : ModuleManager.Modules) (evs : list Event) (ev : Event)
    (now : Z) (pre : State) :
  NoDup (submitted_uuids (evs ++ [ev])) →
  pass_of (run evs (new ms)) ev = Some (now, pre) →
  _isPaused pre = false →
  length (_active pre) < _concurrency pre →
  (∃ r, eligible pre r) →
  ∃ job, eligible pre job
         ∧ dispatched (run (evs ++ [ev]) (new ms)) job
         ∧ ∀ other, eligible pre other → due_before (heap pre) job other.
Proof.
  intros Hnd Hpo Hpa Hlt (r & Hr & Hcan).
  destruct (reachable_pass ms evs ev now pre Hnd Hpo) as (Hwf & _ & ->).
  assert (Hfifo : fifo pre).
  { assert (Hnd0 : NoDup (submitted_uuids evs)).
    { rewrite submitted_uuids_app in Hnd. apply NoDup_app in Hnd as (H & _). exact H. }
    exact (fifo_pass_of _ ev now pre (proj1 (wf_reachable ms evs Hnd0))
             (fifo_reachable ms evs Hnd0) Hpo). }
  set (sorted := sort (by_priority (heap pre)) (_queue pre)).
  assert (Hperm : sorted ≡ₚ _queue pre) by apply sort_perm.
  assert (Hfind : is_Some (list_find (λ r, canRunJobs_of pre r = true) sorted)).
  { eapply list_find_elem_of; [rewrite Hperm; exact Hr | exact Hcan]. }
  destruct Hfind as [[k job] Hf]. exists job.
  pose proof Hf as Hf'. apply list_find_Some in Hf' as (Hk & Hjc & Hbefore).
  split; [|split].
  - split; [|exact Hjc]. rewrite <- Hperm. eapply list_elem_of_lookup_2; exact Hk.
  - eapply _process_first; eassumption.
  - intros other [Ho Hoc]. rewrite <- Hperm in Ho.
    apply list_elem_of_lookup_1 in Ho as [m Hm].
    destruct (decide (m < k)) as [Hmk|Hmk]; [destruct (Hbefore m other Hm Hmk Hoc)|].
    destruct (decide (m = k)) as [->|Hne].
    { assert (other = job) as -> by congruence. right. split; [reflexivity | lia]. }
    assert (Hkm : k < m) by lia.
    pose proof (sorted_lookup _ sorted (sort_sorted _ _) k m job other Hk Hm Hkm) as Hle.
    unfold priority_le in Hle. unfold due_before.
    destruct (decide (priority_of (heap pre) job = priority_of (heap pre) other))
      as [Heq|Hneq]; [right | left; lia].
    split; [exact Heq|]. apply Nat.lt_le_incl.
    apply (sort_fifo (heap pre) (_queue pre) Hfifo job other); [|exact Heq].
    eapply lookup_pair_sublist; eassumption.
Qed.

Lemma first_due_runnable_unit_is_started_witness :
  ∃ job,
    eligible (set_isPaused false
                (run [submit "u0" (Some (with_priority 5));
                      submit "u1" (Some (with_priority 2));
                      submit "u2" (Some (with_priority 2))]
                   (new (data_module BaseModule.STARTED)))) job
    ∧ dispatched
        (run ([submit "u0" (Some (with_priority 5));
               submit "u1" (Some (with_priority 2));
               submit "u2" (Some (with_priority 2))] ++ [Resume 9])
           (new (data_module BaseModule.STARTED))) job
    ∧ ∀ other,
        eligible (set_isPaused false
                    (run [submit "u0" (Some (with_priority 5));
                          submit "u1" (Some (with_priority 2));
                          submit "u2" (Some (with_priority 2))]
                       (new (data_module BaseModule.STARTED)))) other →
        due_before
          (heap (set_isPaused false
                   (run [submit "u0" (Some (with_priority 5));
                         submit "u1" (Some (with_priority 2));
                         submit "u2" (Some (with_priority 2))]
                      (new (data_module BaseModule.STARTED))))) job other.
Proof.
  apply (first_due_runnable_unit_is_started (data_module BaseModule.STARTED)
           [submit "u0" (Some (with_priority 5));
            submit "u1" (Some (with_priority 2));
            submit "u2" (Some (with_priority 2))] (Resume 9) 9).
  - distinct.
  - reflexivity.
  - reflexivity.
  - vm_compute. lia.
  - exists 0. split; [vm_compute; apply list_elem_of_here | reflexivity].
Defined.

End QueueAccountingFacts.
